(** * ProofVault: registry, retrieval, deal tracking and webhooks

    A shallow embedding of the certification core of the repository:

    - [Registry]: the ledger contract [FilecoinProofRegistry.sol];
    - [Simulated]: the in-browser ledger [SimulatedBlockchain] of
      [src/lib/wagmiConfig.js];
    - [Gateways]: gateway ranking and failover retrieval ([lib/gateways]);
    - [Deals]: deal-status cache, fallback simulation and health score
      ([src/lib/filecoinDeals.js]);
    - [Webhooks]: the webhook store ([src/lib/webhooks.js]);
    - [Api]: proof verification of the API service;
    - [Nfts]: the tokens of the in-browser ledger;
    - [Listing]: the paginated listing of the API service.

    Solidity mappings are finite maps read with a default (a mapping
    returns the zero value at an absent key), unsigned integers are [N]
    with the checked arithmetic of Solidity 0.8 written out, and a revert
    is the left injection of a sum. *)

From Stdlib Require Import NArith ZArith Lia Ascii String.
From stdpp Require Import gmap strings list fin_maps sorting pretty.

Local Open Scope string_scope.
Local Open Scope list_scope.

(** ** The ledger contract *)

Module Registry.

Local Open Scope N_scope.

Definition address := N.

(** Largest value of a [uint256]. *)
Definition UINT256_MAX : N := 2 ^ 256 - 1.

Record Proof := mkProof {
  sha256Hash : N;            (* bytes32, read as a number; bytes32(0) is 0 *)
  cid : string;
  proofId : string;
  registrant : address;
  timestamp : N;
  blockNumber : N;
  dealIds : list N;
  storageProvider : string
}.

Record DealInfo := mkDealInfo {
  dealId : N;
  provider : string;
  startEpoch : N;
  endEpoch : N;
  active : bool
}.

Inductive Event :=
| ProofRegistered (pid : string) (h : N) (c : string) (who : address) (ts bn : N)
| DealLinked (pid : string) (d : N) (prov : string)
| DealStatusUpdated (pid : string) (d : N) (act : bool).

Record State := mkState {
  proofs : gmap string Proof;
  hashToProofId : gmap N string;
  cidToProofId : gmap string string;
  proofDeals : gmap string (list DealInfo);
  totalProofs : N;
  totalDealsTracked : N;
  owner : address;
  events : list Event
}.

(** What a call sees of the transaction and of the block. *)
Record Env := mkEnv {
  msg_sender : address;
  block_timestamp : N;
  block_number : N
}.

(** The reasons of a revert: one per [require] message, and the panic of
    checked arithmetic. *)
Inductive Error :=
| InvalidProofId
| InvalidHash
| InvalidCID
| ProofIdExists
| HashRegistered
| ProofNotFound
| NotAuthorized
| InvalidDealIndex
| Overflow.

Definition message (e : Error) : string :=
  match e with
  | InvalidProofId => "Invalid proof ID"
  | InvalidHash => "Invalid hash"
  | InvalidCID => "Invalid CID"
  | ProofIdExists => "Proof ID already exists"
  | HashRegistered => "Hash already registered"
  | ProofNotFound => "Proof not found"
  | NotAuthorized => "Not authorized"
  | InvalidDealIndex => "Invalid deal index"
  | Overflow => "Panic(0x11)"
  end.

#[export] Instance Error_eq_dec : EqDecision Error.
Proof. solve_decision. Defined.

(** *** A small error monad for the bodies *)

Definition result (A : Type) : Type := Error + A.

Definition bind {A B} (c : result A) (k : A -> result B) : result B :=
  match c with
  | inl e => inl e
  | inr a => k a
  end.

Notation "'let!' x ':=' c 'in' k" := (bind c (fun x => k))
  (at level 10, x name, c at level 100, k at level 200, only parsing).

Definition require (b : bool) (e : Error) : result unit :=
  if b then inr tt else inl e.

(** [n++] on a [uint256]: reverts instead of wrapping around. *)
Definition incr (n : N) : result N :=
  if n <? UINT256_MAX then inr (n + 1) else inl Overflow.

Definition bytes_length (s : string) : N := N.of_nat (String.length s).

(** *** Reading the mappings *)

Definition zeroProof : Proof := mkProof 0 "" "" 0 0 0 [] "".

Definition proofs_at (st : State) (pid : string) : Proof :=
  default zeroProof (proofs st !! pid).

Definition hashToProofId_at (st : State) (h : N) : string :=
  default "" (hashToProofId st !! h).

Definition cidToProofId_at (st : State) (c : string) : string :=
  default "" (cidToProofId st !! c).

Definition proofDeals_at (st : State) (pid : string) : list DealInfo :=
  default [] (proofDeals st !! pid).

(** *** The state after the constructor *)

Definition initial (deployer : address) : State :=
  mkState ∅ ∅ ∅ ∅ 0 0 deployer [].

(** *** registerProof

    The function is [nonReentrant]; it calls no other contract, so the
    guard never fires and is left out. *)

Definition newProof (env : Env) (pid : string) (h : N) (c sp : string) : Proof :=
  mkProof h c pid (msg_sender env) (block_timestamp env) (block_number env) [] sp.

(** The writes of the body, with [total] the incremented counter. *)
Definition store (env : Env) (pid : string) (h : N) (c sp : string)
    (total : N) (st : State) : State :=
  mkState
    (<[pid := newProof env pid h c sp]> (proofs st))
    (<[h := pid]> (hashToProofId st))
    (<[c := pid]> (cidToProofId st))
    (proofDeals st)
    total
    (totalDealsTracked st)
    (owner st)
    (events st ++
       [ProofRegistered pid h c (msg_sender env)
          (block_timestamp env) (block_number env)]).

Definition registerProof (env : Env) (pid : string) (h : N) (c sp : string)
    (st : State) : result State :=
  let! _ := require (0 <? bytes_length pid) InvalidProofId in
  let! _ := require (negb (h =? 0)) InvalidHash in
  let! _ := require (0 <? bytes_length c) InvalidCID in
  let! _ := require (timestamp (proofs_at st pid) =? 0) ProofIdExists in
  let! _ := require (bytes_length (hashToProofId_at st h) =? 0) HashRegistered in
  let! total := incr (totalProofs st) in
  inr (store env pid h c sp total st).

(** The state a successful registration leaves. *)
Definition registered (env : Env) (pid : string) (h : N) (c sp : string)
    (st : State) : State :=
  store env pid h c sp (totalProofs st + 1) st.

(** *** linkDeal and updateDealStatus *)

Definition authorized (env : Env) (st : State) (pid : string) : bool :=
  (registrant (proofs_at st pid) =? msg_sender env) || (owner st =? msg_sender env).

Definition push_dealId (d : N) (p : Proof) : Proof :=
  mkProof (sha256Hash p) (cid p) (proofId p) (registrant p) (timestamp p)
          (blockNumber p) (dealIds p ++ [d]) (storageProvider p).

Definition linkDeal (env : Env) (pid : string) (d : N) (prov : string)
    (startE endE : N) (st : State) : result State :=
  let! _ := require (0 <? timestamp (proofs_at st pid)) ProofNotFound in
  let! _ := require (authorized env st pid) NotAuthorized in
  let! total := incr (totalDealsTracked st) in
  inr (mkState
         (<[pid := push_dealId d (proofs_at st pid)]> (proofs st))
         (hashToProofId st)
         (cidToProofId st)
         (<[pid := proofDeals_at st pid ++ [mkDealInfo d prov startE endE true]]>
            (proofDeals st))
         (totalProofs st)
         total
         (owner st)
         (events st ++ [DealLinked pid d prov])).

Definition set_active (a : bool) (d : DealInfo) : DealInfo :=
  mkDealInfo (dealId d) (provider d) (startEpoch d) (endEpoch d) a.

Definition updateDealStatus (env : Env) (pid : string) (dealIndex : N)
    (a : bool) (st : State) : result State :=
  let! _ := require (0 <? timestamp (proofs_at st pid)) ProofNotFound in
  let! _ := require (dealIndex <? N.of_nat (length (proofDeals_at st pid))) InvalidDealIndex in
  let! _ := require (authorized env st pid) NotAuthorized in
  match proofDeals_at st pid !! N.to_nat dealIndex with
  | None => inl InvalidDealIndex
  | Some d =>
      inr (mkState
             (proofs st)
             (hashToProofId st)
             (cidToProofId st)
             (<[pid := <[N.to_nat dealIndex := set_active a d]> (proofDeals_at st pid)]>
                (proofDeals st))
             (totalProofs st)
             (totalDealsTracked st)
             (owner st)
             (events st ++ [DealStatusUpdated pid (dealId d) a]))
  end.

(** *** The views *)

Definition getProof (pid : string) (st : State) : result Proof :=
  let! _ := require (0 <? timestamp (proofs_at st pid)) ProofNotFound in
  inr (proofs_at st pid).

Definition getProofByHash (h : N) (st : State) : result Proof :=
  let pid := hashToProofId_at st h in
  let! _ := require (0 <? bytes_length pid) ProofNotFound in
  inr (proofs_at st pid).

Definition getProofByCid (c : string) (st : State) : result Proof :=
  let pid := cidToProofId_at st c in
  let! _ := require (0 <? bytes_length pid) ProofNotFound in
  inr (proofs_at st pid).

Definition getActiveDealsCount (pid : string) (st : State) : N :=
  N.of_nat (length (filter (fun d => active d = true) (proofDeals_at st pid))).

Definition verifyProof (pid : string) (h : N) (st : State) : bool :=
  let proof := proofs_at st pid in
  (0 <? timestamp proof) && (sha256Hash proof =? h).

Definition proofExists (pid : string) (st : State) : bool :=
  0 <? timestamp (proofs_at st pid).

Definition hashExists (h : N) (st : State) : bool :=
  0 <? bytes_length (hashToProofId_at st h).

(** *** The contract as a transition system

    Every function that writes storage is a step. [Ownable], which the
    contract inherits, only ever rewrites the owner: its functions are
    covered by a step that sets the owner to any address. *)

Definition set_owner (a : address) (st : State) : State :=
  mkState (proofs st) (hashToProofId st) (cidToProofId st) (proofDeals st)
          (totalProofs st) (totalDealsTracked st) a (events st).

Inductive step : State -> State -> Prop :=
| step_registerProof env pid h c sp st st' :
    registerProof env pid h c sp st = inr st' -> step st st'
| step_linkDeal env pid d prov s e st st' :
    linkDeal env pid d prov s e st = inr st' -> step st st'
| step_updateDealStatus env pid i a st st' :
    updateDealStatus env pid i a st = inr st' -> step st st'
| step_owner a st :
    step st (set_owner a st).

Inductive reachable : State -> Prop :=
| reachable_initial deployer : reachable (initial deployer)
| reachable_step st st' : reachable st -> step st st' -> reachable st'.

(** The steps that register nothing under the locator [c0]. *)
Inductive step_avoiding (c0 : string) : State -> State -> Prop :=
| avoiding_registerProof env pid h c sp st st' :
    c <> c0 -> registerProof env pid h c sp st = inr st' -> step_avoiding c0 st st'
| avoiding_linkDeal env pid d prov s e st st' :
    linkDeal env pid d prov s e st = inr st' -> step_avoiding c0 st st'
| avoiding_updateDealStatus env pid i a st st' :
    updateDealStatus env pid i a st = inr st' -> step_avoiding c0 st st'
| avoiding_owner a st :
    step_avoiding c0 st (set_owner a st).

(** Two records that differ at most in the deals linked to them. *)
Definition same_record (p q : Proof) : Prop :=
  sha256Hash p = sha256Hash q /\ cid p = cid q /\ proofId p = proofId q /\
  registrant p = registrant q /\ timestamp p = timestamp q /\
  blockNumber p = blockNumber q /\ storageProvider p = storageProvider q.

(** The hash [h] leads to the identifier [pid], under which a record like
    [p0] is stored. *)
Definition anchored (pid : string) (h : N) (p0 : Proof) (st : State) : Prop :=
  hashToProofId_at st h = pid /\ same_record (proofs_at st pid) p0.

(** *** The invariant of the storage

    No proof is stored under the empty identifier, the zero hash is bound
    to nothing, and the hash index leads from the hash of every existing
    proof back to the key the proof is stored under. *)

Record consistent (st : State) : Prop := mkConsistent {
  consistent_empty_id : timestamp (proofs_at st "") = 0;
  consistent_zero_hash : hashToProofId_at st 0 = "";
  consistent_index : forall pid,
    0 < timestamp (proofs_at st pid) ->
    hashToProofId_at st (sha256Hash (proofs_at st pid)) = pid
}.

(** *** Sample calls *)

Definition alice : address := 1001.
Definition bob : address := 1002.

Definition env1 : Env := mkEnv alice 1700000000 100.
Definition env2 : Env := mkEnv bob 1700000030 101.

Definition st1 : State :=
  registered env1 "PV-1" 7 "bafy-one" "f01234" (initial alice).

Definition st2 : State :=
  registered env2 "PV-2" 8 "bafy-one" "f05678" st1.

(** *** Vocabulary for the deals and the log *)

(** What of a deal entry is fixed when it is linked. *)
Definition terms (d : DealInfo) : N * string * N * N :=
  (dealId d, provider d, startEpoch d, endEpoch d).

Definition is_registration (e : Event) : bool :=
  match e with ProofRegistered _ _ _ _ _ _ => true | _ => false end.

Definition is_link (e : Event) : bool :=
  match e with DealLinked _ _ _ => true | _ => false end.

(** The number of events of a kind in the log. *)
Definition count_events (kind : Event -> bool) (log : list Event) : N :=
  N.of_nat (length (List.filter kind log)).

(** Every registration in the log happened in a block with a timestamp. *)
Definition dated (log : list Event) : Prop :=
  Forall (fun e => match e with
                   | ProofRegistered _ _ _ _ ts _ => ts <> 0
                   | _ => True
                   end) log.

(** The contribution of a flag to a count. *)
Definition flag (b : bool) : N := if b then 1 else 0.

(** The deal lists and the counters are in step with the proofs and with
    the log. *)
Record accounted (st : State) : Prop := mkAccounted {
  accounted_unborn : forall pid,
    timestamp (proofs_at st pid) = 0 -> proofDeals_at st pid = [];
  accounted_ids : forall pid,
    dealIds (proofs_at st pid) = map dealId (proofDeals_at st pid);
  accounted_proofs : totalProofs st = count_events is_registration (events st);
  accounted_deals : totalDealsTracked st = count_events is_link (events st)
}.


(** The states successful calls of [linkDeal] and [updateDealStatus] leave. *)
Definition linked (pid : string) (d : N) (prov : string) (s e : N)
    (st : State) : State :=
  mkState
    (<[pid := push_dealId d (proofs_at st pid)]> (proofs st))
    (hashToProofId st) (cidToProofId st)
    (<[pid := proofDeals_at st pid ++ [mkDealInfo d prov s e true]]>
       (proofDeals st))
    (totalProofs st) (totalDealsTracked st + 1) (owner st)
    (events st ++ [DealLinked pid d prov]).

Definition updated (pid : string) (i : nat) (a : bool) (d : DealInfo)
    (st : State) : State :=
  mkState
    (proofs st) (hashToProofId st) (cidToProofId st)
    (<[pid := <[i := set_active a d]> (proofDeals_at st pid)]> (proofDeals st))
    (totalProofs st) (totalDealsTracked st) (owner st)
    (events st ++ [DealStatusUpdated pid (dealId d) a]).

(** Under a dated log, each index entry leads to a live record that
    carries the key. *)
Record indexed (st : State) : Prop := mkIndexed {
  indexed_hash : forall h,
    hashToProofId_at st h <> "" ->
    sha256Hash (proofs_at st (hashToProofId_at st h)) = h /\
    proofId (proofs_at st (hashToProofId_at st h)) = hashToProofId_at st h /\
    timestamp (proofs_at st (hashToProofId_at st h)) <> 0;
  indexed_cid : forall c,
    cidToProofId_at st c <> "" ->
    cid (proofs_at st (cidToProofId_at st c)) = c /\
    proofId (proofs_at st (cidToProofId_at st c)) = cidToProofId_at st c /\
    timestamp (proofs_at st (cidToProofId_at st c)) <> 0
}.

(** A deal linked to "PV-1" by its registrant. *)
Definition st1_linked : State :=
  match linkDeal env1 "PV-1" 4711 "f01234" 100 200 st1 with
  | inr st => st
  | inl _ => st1
  end.

(** The state of [st1_linked] once that deal is marked inactive. *)
Definition st1_unlinked : State :=
  match updateDealStatus env1 "PV-1" 0 false st1_linked with
  | inr st => st
  | inl _ => st1_linked
  end.

End Registry.

(** ** Strings as the scripts use them *)

Module Js.

(** [toLowerCase] on the ASCII range, which is where hashes, identifiers,
    locators and deal statuses live: the letters A to Z move to a to z,
    every other character stays. [String.prototype.toLowerCase] also
    lowers the capitals outside that range; where other strings can reach
    it, as file names do in the search of the listing, the strings are
    asked to be ASCII. *)
Definition lower_ascii (a : Ascii.ascii) : Ascii.ascii :=
  let n := Ascii.N_of_ascii a in
  if ((65 <=? n) && (n <=? 90))%N then Ascii.ascii_of_N (n + 32) else a.

Fixpoint toLowerCase (s : string) : string :=
  match s with
  | EmptyString => EmptyString
  | String a s' => String (lower_ascii a) (toLowerCase s')
  end.

(** Value of a hexadecimal digit, in either case. *)
Definition hex_value (a : Ascii.ascii) : option N :=
  let n := Ascii.N_of_ascii a in
  if ((48 <=? n) && (n <=? 57))%N then Some (n - 48)%N
  else if ((97 <=? n) && (n <=? 102))%N then Some (n - 87)%N
  else if ((65 <=? n) && (n <=? 70))%N then Some (n - 55)%N
  else None.

(** The lower-case digit of a value below sixteen. *)
Definition hex_char (d : N) : Ascii.ascii :=
  Ascii.ascii_of_N (if (d <? 10)%N then (d + 48)%N else (d + 87)%N).

Fixpoint parse_hex (acc : N) (s : string) : option N :=
  match s with
  | EmptyString => Some acc
  | String a s' =>
      match hex_value a with
      | Some d => parse_hex (16 * acc + d)%N s'
      | None => None
      end
  end.

(** A SHA-256 digest in hexadecimal: 64 digits. *)
Definition is_hash (s : string) : bool :=
  (String.length s =? 64)%nat && bool_decide (is_Some (parse_hex 0 s)).

(** The [bytes32] a hexadecimal digest stands for; this is how a digest
    computed in the browser is handed to the contract. *)
Definition bytes32_of_hex (s : string) : N := default 0%N (parse_hex 0 s).

End Js.

(** ** The simulated ledger *)

Module Simulated.

Local Open Scope Z_scope.

Record Proof := mkProof {
  proofId : string;
  sha256Hash : string;
  cid : string;
  registrant : string;
  proof_timestamp : Z;
  proof_blockNumber : Z
}.

Record Transaction := mkTransaction {
  hash : string;
  type : string;
  tx_proofId : string;
  tx_blockNumber : Z;
  tx_timestamp : Z
}.

(** The fields of the class that [registerProof] reads or writes. A [Map]
    is the list of its entries in insertion order. *)
Record SimulatedBlockchain := mkChain {
  blockNumber : Z;
  timestamp : Z;
  proofs : list (string * Proof);
  transactions : list Transaction
}.

Inductive Error :=
| ProofIdExists
| HashRegistered.

Definition message (e : Error) : string :=
  match e with
  | ProofIdExists => "Proof ID already exists"
  | HashRegistered => "Hash already registered"
  end.

(** What [registerProof] resolves to. *)
Record Receipt := mkReceipt {
  receipt_hash : string;
  receipt_blockNumber : Z;
  receipt_proof : Proof
}.

(** The state of the constructor, before anything is loaded. *)
Definition fresh (now : Z) : SimulatedBlockchain :=
  mkChain 1 (now / 1000) [] [].

Definition Map_has {V} (m : list (string * V)) (k : string) : bool :=
  existsb (fun e => String.eqb (fst e) k) m.

Fixpoint Map_set {V} (m : list (string * V)) (k : string) (v : V)
    : list (string * V) :=
  match m with
  | [] => [(k, v)]
  | e :: m' => if String.eqb (fst e) k then (k, v) :: m' else e :: Map_set m' k v
  end.

Fixpoint Map_get {V} (m : list (string * V)) (k : string) : option V :=
  match m with
  | [] => None
  | e :: m' => if String.eqb (fst e) k then Some (snd e) else Map_get m' k
  end.

(** The loop over the stored proofs that looks for the hash. *)
Definition hash_known (chain : SimulatedBlockchain) (hashKey : string) : bool :=
  existsb (fun e => String.eqb (Js.toLowerCase (sha256Hash (snd e))) hashKey)
          (proofs chain).

(** [mineBlock], with [now] the clock in milliseconds. *)
Definition mineBlock (now : Z) (chain : SimulatedBlockchain) : SimulatedBlockchain :=
  mkChain (blockNumber chain + 1) (now / 1000) (proofs chain) (transactions chain).

(** [registerProof], from the point where the delay has elapsed: the rest
    of the body runs without interruption. [now] is the clock when the
    block is mined and [txHash] what [generateTxHash] draws. *)
Definition registerProof (now : Z) (txHash : string)
    (pid h c : string) (chain : SimulatedBlockchain)
    : Error + (Receipt * SimulatedBlockchain) :=
  if Map_has (proofs chain) pid then inl ProofIdExists
  else
    let hashKey := Js.toLowerCase h in
    if hash_known chain hashKey then inl HashRegistered
    else
      let proof :=
        mkProof pid h c "0xSimulated1234567890abcdef1234567890abcdef"
                (timestamp chain) (blockNumber chain) in
      let chain1 :=
        mkChain (blockNumber chain) (timestamp chain)
                (Map_set (proofs chain) pid proof)
                (transactions chain ++
                   [mkTransaction txHash "registerProof" pid
                      (blockNumber chain) (timestamp chain)]) in
      let chain2 := mineBlock now chain1 in
      inr (mkReceipt txHash (blockNumber chain2 - 1) proof, chain2).

Definition getProof (pid : string) (chain : SimulatedBlockchain) : option Proof :=
  Map_get (proofs chain) pid.

Definition getProofByHash (h : string) (chain : SimulatedBlockchain) : option Proof :=
  let hashKey := Js.toLowerCase h in
  snd <$> find (fun e => String.eqb (Js.toLowerCase (sha256Hash (snd e))) hashKey)
               (proofs chain).

Definition proofExists (pid : string) (chain : SimulatedBlockchain) : bool :=
  Map_has (proofs chain) pid.

Definition getTotalProofs (chain : SimulatedBlockchain) : Z :=
  Z.of_nat (length (proofs chain)).

(** *** Sample digests *)

Definition digest_a : string :=
  "b94d27b9934d3e08a52e52d7da7dabfac484efe37a5380ee9088f7ace2efcde9".

Definition digest_A : string :=
  "B94D27B9934D3E08A52E52D7DA7DABFAC484EFE37A5380EE9088F7ACE2EFCDE9".

Definition digest_b : string :=
  "7509e5bda0c762d2bac7f90d758b5b2263fa01ccbc542ab5e3df163be08e6ca9".

Definition digest_zero : string :=
  "0000000000000000000000000000000000000000000000000000000000000000".

End Simulated.

(** ** The simulated ledger as a representation of the contract *)

Module Refinement.

(** A simulated chain represents a contract state when the same proof
    identifiers exist on both sides, every stored digest is a well-formed
    hexadecimal digest, and a digest is known to the simulation exactly
    when the [bytes32] it stands for is bound in the contract. *)
Record represents (chain : Simulated.SimulatedBlockchain) (st : Registry.State)
  : Prop := mkRepresents {
  rep_ids : forall pid,
    Simulated.proofExists pid chain = Registry.proofExists pid st;
  rep_digests :
    Forall (fun e => Js.is_hash (Simulated.sha256Hash (snd e)) = true)
           (Simulated.proofs chain);
  rep_hashes : forall h,
    Js.is_hash h = true ->
    Simulated.hash_known chain (Js.toLowerCase h) =
    Registry.hashExists (Js.bytes32_of_hex h) st
}.

(** The two calls agree: both revert, with the same message, or both
    succeed. *)
Definition agree {A B} (r1 : Simulated.Error + A) (r2 : Registry.Error + B) : Prop :=
  match r1, r2 with
  | inl e1, inl e2 => Simulated.message e1 = Registry.message e2
  | inr _, inr _ => True
  | _, _ => False
  end.

(** One entry per proof identifier and per lower-cased digest. *)
Definition unique (chain : Simulated.SimulatedBlockchain) : Prop :=
  NoDup (map fst (Simulated.proofs chain)) /\
  NoDup (map (fun e => Js.toLowerCase (Simulated.sha256Hash (snd e)))
             (Simulated.proofs chain)).

Definition is_inr {A B} (r : A + B) : bool :=
  match r with inr _ => true | inl _ => false end.

(** *** Sequences of calls *)

(** One registration, as both sides receive it: the digest goes to the
    simulation as the hexadecimal string and to the contract as the
    [bytes32] it stands for. *)
Record Registration := mkRegistration {
  reg_now : Z;
  reg_tx : string;
  reg_env : Registry.Env;
  reg_proofId : string;
  reg_hash : string;
  reg_cid : string;
  reg_provider : string
}.

(** The call passes the input checks of the contract, in a block that has
    a timestamp. *)
Definition well_formed (r : Registration) : Prop :=
  reg_proofId r <> "" /\ reg_cid r <> "" /\
  Js.is_hash (reg_hash r) = true /\ Js.bytes32_of_hex (reg_hash r) <> 0%N /\
  Registry.block_timestamp (reg_env r) <> 0%N.

(** The messages of the failures of a sequence of calls, [None] for a
    success, and the state at the end. *)
Fixpoint run_simulated (calls : list Registration)
    (chain : Simulated.SimulatedBlockchain)
    : list (option string) * Simulated.SimulatedBlockchain :=
  match calls with
  | [] => ([], chain)
  | r :: rest =>
      match Simulated.registerProof (reg_now r) (reg_tx r) (reg_proofId r)
              (reg_hash r) (reg_cid r) chain with
      | inl e =>
          let '(out, final) := run_simulated rest chain in
          (Some (Simulated.message e) :: out, final)
      | inr (_, chain') =>
          let '(out, final) := run_simulated rest chain' in
          (None :: out, final)
      end
  end.

Fixpoint run_registry (calls : list Registration) (st : Registry.State)
    : list (option string) * Registry.State :=
  match calls with
  | [] => ([], st)
  | r :: rest =>
      match Registry.registerProof (reg_env r) (reg_proofId r)
              (Js.bytes32_of_hex (reg_hash r)) (reg_cid r) (reg_provider r) st with
      | inl e =>
          let '(out, final) := run_registry rest st in
          (Some (Registry.message e) :: out, final)
      | inr st' =>
          let '(out, final) := run_registry rest st' in
          (None :: out, final)
      end
  end.

(** A registration, then the same identifier again, then the same digest
    in capitals under another identifier, then a new proof. *)
Definition sample_calls : list Registration := [
  mkRegistration 1700000000000 "0xaa" Registry.env1 "PV-1"
    Simulated.digest_a "bafy-one" "f01234";
  mkRegistration 1700000030000 "0xbb" Registry.env2 "PV-1"
    Simulated.digest_b "bafy-two" "f01234";
  mkRegistration 1700000060000 "0xcc" Registry.env2 "PV-2"
    Simulated.digest_A "bafy-two" "f05678";
  mkRegistration 1700000090000 "0xdd" Registry.env2 "PV-3"
    Simulated.digest_b "bafy-three" "f05678"
].

End Refinement.

(** ** Gateways: ranking and failover retrieval *)

Module Gateways.

Local Open Scope Z_scope.

Record Gateway := mkGateway {
  id : string;
  name : string;
  url : string;
  priority : Z;
  type : string
}.

Definition GATEWAYS : list Gateway := [
  mkGateway "w3s" "Web3.Storage" "https://w3s.link/ipfs/" 1 "primary";
  mkGateway "dweb" "Dweb.link" "https://dweb.link/ipfs/" 2 "primary";
  mkGateway "ipfs-io" "IPFS.io" "https://ipfs.io/ipfs/" 3 "public";
  mkGateway "cloudflare" "Cloudflare" "https://cloudflare-ipfs.com/ipfs/" 4 "public";
  mkGateway "pinata" "Pinata" "https://gateway.pinata.cloud/ipfs/" 5 "public";
  mkGateway "nftstorage" "NFT.Storage" "https://nftstorage.link/ipfs/" 6 "public"
].

(** The status [checkGatewayHealth] resolves to. [latency] is a rounded
    number of milliseconds, [None] for the [null] of a failed probe;
    [lastChecked] is the instant of the probe. *)
Record Health := mkHealth {
  healthy : bool;
  latency : option Z;
  lastChecked : Z;
  error : option string
}.

(** The object [{ ...gateway, health }]. *)
Record Ranked := mkRanked {
  gateway : Gateway;
  health : Health
}.

(** [latency || 9999]: [null] and [0] are both falsy. *)
Definition latency_or_9999 (h : Health) : Z :=
  match latency h with
  | None => 9999
  | Some l => if l =? 0 then 9999 else l
  end.

(** The comparison function handed to [sort]. *)
Definition compare (a b : Ranked) : Z :=
  if healthy (health a) && negb (healthy (health b)) then -1
  else if negb (healthy (health a)) && healthy (health b) then 1
  else if healthy (health a) && healthy (health b) then
    latency_or_9999 (health a) - latency_or_9999 (health b)
  else priority (gateway a) - priority (gateway b).

(** [Array.prototype.sort] is a stable sort: an element goes before the
    first later element it does not compare greater than. For a comparison
    that orders the elements consistently, as [compare] does, every stable
    sort returns this list. *)
Fixpoint insert (cmp : Ranked -> Ranked -> Z) (x : Ranked) (l : list Ranked)
    : list Ranked :=
  match l with
  | [] => [x]
  | y :: l' => if cmp x y <=? 0 then x :: l else y :: insert cmp x l'
  end.

Definition sort (cmp : Ranked -> Ranked -> Z) (l : list Ranked) : list Ranked :=
  foldr (insert cmp) [] l.

(** [getGatewaysWithHealth]: [check] is what [checkGatewayHealth] resolves
    to for each gateway, from its cache or from a probe. *)
Definition getGatewaysWithHealth (check : Gateway -> Health) : list Ranked :=
  sort compare (map (fun g => mkRanked g (check g)) GATEWAYS).

(** *** fetchWithFailover *)

(** What one [fetch] does: it resolves to a response, whose [ok] flag tells
    a success status, or it rejects, on a network failure or when the
    timeout aborts it. *)
Inductive Outcome :=
| Responded (ok : bool) (body : string)
| Rejected (err : string).

(** What the function leaves behind: the requests it issued and the
    warnings it wrote to the console, in order. *)
Inductive Effect :=
| Fetch (target : string)
| Warn (who : string) (err : string).

Record Retrieved := mkRetrieved {
  response : string;
  retrieved_gateway : string;
  retrieved_url : string
}.

(** The function returns, or throws an error with this message. *)
Inductive Completion :=
| Return (r : Retrieved)
| Throw (err : string).

(** The loop over [gatewaysToTry], with [lastError] as it stands. *)
Fixpoint try_gateways (fetch : string -> Outcome) (c : string)
    (gatewaysToTry : list Ranked) (lastError : option string)
    : Completion * list Effect :=
  match gatewaysToTry with
  | [] => (Throw (default "All gateways failed" lastError), [])
  | g :: rest =>
      let target := url (gateway g) +:+ c in
      match fetch target with
      | Responded true body =>
          (Return (mkRetrieved body (name (gateway g)) target), [Fetch target])
      | Responded false _ =>
          let '(r, effects) := try_gateways fetch c rest lastError in
          (r, Fetch target :: effects)
      | Rejected err =>
          let '(r, effects) := try_gateways fetch c rest (Some err) in
          (r, Fetch target :: Warn (name (gateway g)) err :: effects)
      end
  end.

Definition gatewaysToTry (gateways : list Ranked) : list Ranked :=
  let healthyGateways := filter (fun g => healthy (health g) = true) gateways in
  if (0 <? Z.of_nat (length healthyGateways)) then healthyGateways
  else take 3 gateways.

(** [fetchWithFailover], from the point where [getGatewaysWithHealth] has
    resolved: [check] is what the health checks resolved to, and the
    effects are the requests for the content and the warnings. The probes
    that the health checks send before are those of
    [fetchWithFailover_from] below. *)
Definition fetchWithFailover (check : Gateway -> Health)
    (fetch : string -> Outcome) (c : string) : Completion * list Effect :=
  try_gateways fetch c (gatewaysToTry (getGatewaysWithHealth check)) None.

(** The warnings among the effects. *)
Definition is_warning (e : Effect) : bool :=
  match e with Warn _ _ => true | Fetch _ => false end.

Definition warnings (effects : list Effect) : list Effect :=
  filter (fun e => is_warning e = true) effects.

(** The requests among the effects. *)
Definition requests (effects : list Effect) : list string :=
  omap (fun e => match e with Fetch t => Some t | Warn _ _ => None end) effects.

(** *** Vocabulary for the trace of a retrieval *)

Definition target_of (c : string) (g : Ranked) : string := url (gateway g) +:+ c.

(** The attempt on [g] does not end the loop. *)
Definition fails (fetch : string -> Outcome) (c : string) (g : Ranked) : Prop :=
  forall body, fetch (target_of c g) <> Responded true body.

(** The warnings the rejecting gateways of [gs] give rise to. *)
Definition rejections (fetch : string -> Outcome) (c : string) (gs : list Ranked)
    : list Effect :=
  omap (fun g => match fetch (target_of c g) with
                 | Rejected err => Some (Warn (name (gateway g)) err)
                 | Responded _ _ => None
                 end) gs.

(** [lastError] once the loop has gone through all of [gs]. *)
Definition last_rejection (fetch : string -> Outcome) (c : string)
    (gs : list Ranked) (lastError : option string) : option string :=
  foldl (fun acc g => match fetch (target_of c g) with
                      | Rejected err => Some err
                      | Responded _ _ => acc
                      end) lastError gs.

(** *** The order the comparison induces *)

(** [a] may stand before [b]. *)
Definition before (a b : Ranked) : Prop := compare a b <= 0.

(** The latency shown for a healthy gateway, 0 for [null]. *)
Definition latency_ms (h : Health) : Z := default 0 (latency h).

(** *** Sample health results and responses *)

Definition up (l : Z) : Health := mkHealth true (Some l) 0 None.
Definition down : Health := mkHealth false None 0 (Some "Timeout").

(** The first gateway answers at once, the second in 200 ms, the others
    time out. *)
Definition check_instant (g : Gateway) : Health :=
  if String.eqb (id g) "w3s" then up 0
  else if String.eqb (id g) "dweb" then up 200
  else down.

(** Three gateways are up. *)
Definition check_three (g : Gateway) : Health :=
  if String.eqb (id g) "w3s" then up 50
  else if String.eqb (id g) "dweb" then up 200
  else if String.eqb (id g) "ipfs-io" then up 300
  else down.

(** Only the third of them serves the content; the others answer with an
    error status. *)
Definition fetch_third_only (target : string) : Outcome :=
  if String.eqb target "https://ipfs.io/ipfs/bafy-one" then Responded true "payload"
  else Responded false "Internal Server Error".

(** Only the third serves the content; the others reject. *)
Definition fetch_third_after_rejections (target : string) : Outcome :=
  if String.eqb target "https://ipfs.io/ipfs/bafy-one" then Responded true "payload"
  else Rejected "Failed to fetch".

(** Every request rejects, each gateway with a reason of its own. *)
Definition fetch_all_reject (target : string) : Outcome :=
  Rejected ("no route to " +:+ target).

(** Every request is answered with an error status. *)
Definition fetch_all_unavailable (target : string) : Outcome :=
  Responded false "Service Unavailable".

(** *** The best gateway and the addresses built from it *)

(** [getBestGateway]: [None] stands for the [undefined] that reading the
    first element of an empty ranking would give. *)
Definition getBestGateway (check : Gateway -> Health) : option Ranked :=
  let gateways := getGatewaysWithHealth check in
  match find (fun g => healthy (health g)) gateways with
  | Some g => Some g
  | None => head gateways
  end.

Definition getOptimizedUrl (check : Gateway -> Health) (c : string) : option string :=
  (fun g => url (gateway g) +:+ c) <$> getBestGateway check.

Definition getGatewayUrl (gatewayId c : string) : string :=
  match find (fun g => String.eqb (id g) gatewayId) GATEWAYS with
  | None => "https://w3s.link/ipfs/" +:+ c
  | Some g => url g +:+ c
  end.

(** The preference kept in the local store: [None] when the key is absent. *)
Definition getPreferredGateway (saved : option string) : option Gateway :=
  match saved with
  | Some gatewayId =>
      if String.eqb gatewayId "" then head GATEWAYS
      else
        match find (fun g => String.eqb (id g) gatewayId) GATEWAYS with
        | Some g => Some g
        | None => head GATEWAYS
        end
  | None => head GATEWAYS
  end.

Definition setPreferredGateway (gatewayId : string) (saved : option string)
    : option string :=
  Some gatewayId.

(** *** checkGatewayHealth and its cache *)

Definition HEALTH_CHECK_INTERVAL : Z := 60000.

Record CachedHealth := mkCachedHealth {
  status : Health;
  cached_at : Z
}.

(** What the probe does: it is answered, with a success status or not,
    after a rounded number of milliseconds; the timeout aborts it; or it
    fails for another reason. *)
Inductive Probe :=
| Answered (ok : bool) (elapsed : Z)
| Aborted
| Failed (reason : string).

(** [checkGatewayHealth]: [now] is the clock when the cache is read,
    [finished] when the probe has ended. The result comes with the cache
    afterwards and the number of probes sent. *)
Definition checkGatewayHealth (now finished : Z) (probe : Probe) (g : Gateway)
    (healthCache : gmap string CachedHealth)
    : Health * gmap string CachedHealth * nat :=
  let probed :=
    let result :=
      match probe with
      | Answered ok elapsed => mkHealth ok (Some elapsed) finished None
      | Aborted => mkHealth false None finished (Some "Timeout")
      | Failed reason => mkHealth false None finished (Some reason)
      end in
    (result, <[id g := mkCachedHealth result finished]> healthCache, 1%nat) in
  match healthCache !! id g with
  | Some cached =>
      if now - cached_at cached <? HEALTH_CHECK_INTERVAL
      then (status cached, healthCache, 0%nat)
      else probed
  | None => probed
  end.

Definition clearHealthCache (healthCache : gmap string CachedHealth)
    : gmap string CachedHealth := ∅.

(** A status as a probe writes it: healthy only with a measured latency
    and no error, and without latency only with an error. *)
Definition well_formed_status (h : Health) : Prop :=
  (healthy h = true -> is_Some (latency h) /\ error h = None) /\
  (latency h = None -> healthy h = false /\ is_Some (error h)).

(** *** The retrieval with its health checks *)

Definition TEST_CID : string :=
  "bafybeigdyrzt5sfp7udm7hu76uh7y26nf3efuylqabf3oclgtqy55fbzdi".

(** What the health check of one gateway meets: the clock when it reads
    the cache, how its probe ends if it sends one, and the clock when the
    probe has ended. *)
Record Check := mkCheck {
  read_at : Z;
  probe : Probe;
  finished_at : Z
}.

(** The gateway has an entry in the cache that is younger than a minute. *)
Definition fresh (now : Z) (g : Gateway) (healthCache : gmap string CachedHealth)
    : bool :=
  match healthCache !! id g with
  | Some cached => now - cached_at cached <? HEALTH_CHECK_INTERVAL
  | None => false
  end.

(** The health checks that [getGatewaysWithHealth] starts, one for each
    gateway in the configured order: the statuses, the cache afterwards
    and the addresses probed, in the order the probes are sent. Each check
    reads the cache and sends its probe when it is started, and writes the
    entry of its own gateway when its probe has ended; as no two gateways
    share an identifier, a check reads what it would read before all the
    writes, and the cache is passed from one to the next. *)
Fixpoint check_all (meets : Gateway -> Check) (gateways : list Gateway)
    (healthCache : gmap string CachedHealth)
    : list Ranked * gmap string CachedHealth * list string :=
  match gateways with
  | [] => ([], healthCache, [])
  | g :: rest =>
      let '(h, cache1, n) :=
        checkGatewayHealth (read_at (meets g)) (finished_at (meets g))
                           (probe (meets g)) g healthCache in
      let '(results, cache2, probed) := check_all meets rest cache1 in
      (mkRanked g h :: results, cache2,
       match n with
       | O => probed
       | S _ => (url g +:+ TEST_CID) :: probed
       end)
  end.

(** [getGatewaysWithHealth], with the cache and the probes. *)
Definition getGatewaysWithHealth_from (meets : Gateway -> Check)
    (healthCache : gmap string CachedHealth)
    : list Ranked * gmap string CachedHealth * list string :=
  let '(results, cache', probed) := check_all meets GATEWAYS healthCache in
  (sort compare results, cache', probed).

(** A request that leaves: a probe of a health check, or a request for
    the content. *)
Inductive Sent :=
| Head (target : string)
| Get (target : string).

(** [fetchWithFailover] from a state of the health cache: how it
    completes, every request it sends, in order, and the cache afterwards. *)
Definition fetchWithFailover_from (meets : Gateway -> Check)
    (fetch : string -> Outcome) (c : string)
    (healthCache : gmap string CachedHealth)
    : Completion * list Sent * gmap string CachedHealth :=
  let '(gateways, cache', probed) := getGatewaysWithHealth_from meets healthCache in
  let '(r, effects) := try_gateways fetch c (gatewaysToTry gateways) None in
  (r, map Head probed ++ map Get (requests effects), cache').

(** What the health check of [g] resolves to from the cache. *)
Definition resolved (meets : Gateway -> Check)
    (healthCache : gmap string CachedHealth) (g : Gateway) : Health :=
  fst (fst (checkGatewayHealth (read_at (meets g)) (finished_at (meets g))
                               (probe (meets g)) g healthCache)).

(** The gateways whose check sends a probe. *)
Definition stale (meets : Gateway -> Check)
    (healthCache : gmap string CachedHealth) (g : Gateway) : Prop :=
  fresh (read_at (meets g)) g healthCache = false.

#[export] Instance stale_dec meets healthCache g : Decision (stale meets healthCache g).
Proof. unfold stale. apply _. Defined.

(** The probes and the requests for the content among what is sent. *)
Definition heads (sent : list Sent) : list string :=
  omap (fun e => match e with Head t => Some t | Get _ => None end) sent.

Definition gets (sent : list Sent) : list string :=
  omap (fun e => match e with Get t => Some t | Head _ => None end) sent.

(** Every check at time 0 probes: the first two gateways answer, in 50
    and 200 ms, the others time out. *)
Definition meets_two (g : Gateway) : Check :=
  if String.eqb (id g) "w3s" then mkCheck 0 (Answered true 50) 50
  else if String.eqb (id g) "dweb" then mkCheck 0 (Answered true 200) 200
  else mkCheck 0 Aborted 5000.

End Gateways.

(** ** Deal tracking *)

Module Deals.

Local Open Scope Z_scope.

Definition DEAL_CACHE_TTL : Z := 5 * 60 * 1000.

(** [DEAL_STATUS] *)
Inductive DealStatus :=
| UNKNOWN
| PENDING
| ACTIVE
| EXPIRED
| SLASHED
| NOT_FOUND.

#[export] Instance DealStatus_eq_dec : EqDecision DealStatus.
Proof. solve_decision. Defined.

(** A deal as the functions build it. Instants are milliseconds since the
    epoch, the number behind the ISO string of the script. *)
Record Deal := mkDeal {
  dealId : string;
  provider : string;
  status : DealStatus;
  pieceCid : string;
  dataCid : option string;         (* absent from a simulated deal *)
  activation : Z;
  expiration : Z;
  created : Z
}.

(** The summary for a locator. The optional fields are those that only
    some of the producers set. The cache stores the summary as JSON and
    reads it back as it was. *)
Record DealInfo := mkDealInfo {
  info_status : DealStatus;
  deals : list Deal;
  pinned : option bool;
  dagSize : option Z;
  info_created : option Z;
  simulated : bool;
  message : option string
}.

(** *** What the status service answers *)

Record W3SDeal := mkW3SDeal {
  w3s_dealId : string;
  storageProvider : string;
  w3s_status : option string;
  w3s_pieceCid : string;
  w3s_dataCid : string;
  dealActivation : Z;
  dealExpiration : Z;
  w3s_created : Z
}.

Record W3SData := mkW3SData {
  w3s_deals : list W3SDeal;
  pins : nat;                (* the length of [pins], 0 when it is absent *)
  w3s_dagSize : option Z;
  w3s_data_created : option Z
}.

(** The request resolves to a success status with a body that decodes,
    resolves to an error status, or fails: the request rejects or the body
    does not decode. *)
Inductive Reply :=
| Ok (data : W3SData)
| HttpError (code : Z)
| NetworkError.

Definition mapDealStatus (s : option string) : DealStatus :=
  match Js.toLowerCase <$> s with
  | Some "active" | Some "activedeal" => ACTIVE
  | Some "pending" | Some "published" | Some "queued" => PENDING
  | Some "expired" => EXPIRED
  | Some "slashed" => SLASHED
  | _ => UNKNOWN
  end.

Definition is_status (s : DealStatus) (d : Deal) : bool :=
  bool_decide (status d = s).

Definition parseW3SResponse (data : W3SData) : DealInfo :=
  let deals :=
    map (fun deal =>
           mkDeal (w3s_dealId deal) (storageProvider deal)
                  (mapDealStatus (w3s_status deal)) (w3s_pieceCid deal)
                  (Some (w3s_dataCid deal))
                  (dealActivation deal) (dealExpiration deal) (w3s_created deal))
        (w3s_deals data) in
  let hasActiveDeals := existsb (is_status ACTIVE) deals in
  let hasPendingDeals := existsb (is_status PENDING) deals in
  mkDealInfo
    (if hasActiveDeals then ACTIVE
     else if hasPendingDeals then PENDING
     else if (0 <? Z.of_nat (length deals)) then EXPIRED else UNKNOWN)
    deals
    (Some (0 <? pins data)%nat)
    (w3s_dagSize data)
    (w3s_data_created data)
    false
    None.

(** *** The fallback simulation *)

(** The sum of the character codes of the locator. *)
Fixpoint char_sum (s : string) : Z :=
  match s with
  | EmptyString => 0
  | String a s' => Z.of_N (Ascii.N_of_ascii a) + char_sum s'
  end.

(** [s.slice(-n)]: the last [n] characters, all of [s] when it is shorter. *)
Definition slice_last (n : nat) (s : string) : string :=
  String.substring (String.length s - n) n s.

Definition dayMs : Z := 24 * 60 * 60 * 1000.

Definition simulateDealInfo (now : Z) (c : string) : DealInfo :=
  let hash := char_sum c in
  let hasDeals := negb (hash mod 3 =? 0) in
  if negb hasDeals then
    mkDealInfo PENDING [] None None None true (Some "Deal aggregation in progress")
  else
    let providers := ["f01234"; "f05678"; "f09012"] in
    let deals :=
      imap (fun (n : nat) provider =>
              let i := Z.of_nat n in
              mkDeal (pretty (1000000 + (hash * (i + 1)) mod 999999))
                     provider
                     ACTIVE
                     ("baga6ea4seaq" +:+ slice_last 32 c)
                     None
                     (now - (30 + i * 10) * dayMs)
                     (now + (180 - i * 30) * dayMs)
                     (now - (35 + i * 10) * dayMs))
           (take (Z.to_nat (hash mod 3 + 1)) providers) in
    mkDealInfo ACTIVE deals (Some true) None None true None.

Definition not_found : DealInfo :=
  mkDealInfo NOT_FOUND [] None None None false None.

(** [fetchDealFromW3S]: [now] is the clock when the fallback runs. *)
Definition fetchDealFromW3S (now : Z) (reply : Reply) (c : string) : DealInfo :=
  match reply with
  | Ok data => parseW3SResponse data
  | HttpError code => if code =? 404 then not_found else simulateDealInfo now c
  | NetworkError => simulateDealInfo now c
  end.

(** *** The cache *)

Record Entry := mkEntry {
  data : DealInfo;
  timestamp : Z
}.

(** The object stored under [DEAL_CACHE_KEY], empty when the key is
    absent: the properties of its own that [JSON.parse] gives it. *)
Abbreviation Cache := (gmap string Entry).

(** [getCachedDeal]. Where the object has no property of its own under
    [cid], [cache[cid]] is undefined or something inherited from the
    prototype, which has no [timestamp]: the comparison with the lifetime
    fails and the answer is [null] in both cases. *)
Definition getCachedDeal (now : Z) (c : string) (cache : Cache) : option DealInfo :=
  match cache !! c with
  | Some entry => if now - timestamp entry <? DEAL_CACHE_TTL then Some (data entry) else None
  | None => None
  end.

(** [cache[cid] = entry] on the object that [JSON.parse] returned. The
    object is a plain one: under the key "__proto__", unless the object
    has a property of its own by that name, the assignment goes to the
    setter it inherits and replaces the prototype, so that the object
    gains no property and [JSON.stringify] writes none. Every other key is
    set as a property of the object. *)
Definition assign (c : string) (entry : Entry) (cache : Cache) : Cache :=
  if String.eqb c "__proto__" && bool_decide (cache !! c = None) then cache
  else <[c := entry]> cache.

(** [cacheDeal]; [writable] tells whether the store accepts the write, the
    failure being caught and logged. *)
Definition cacheDeal (now : Z) (writable : bool) (c : string) (d : DealInfo)
    (cache : Cache) : Cache :=
  let cleaned :=
    filter (fun kv => ~ (now - timestamp (snd kv) > DEAL_CACHE_TTL * 2)) cache in
  if writable then assign c (mkEntry d now) cleaned else cache.

(** What one call of [getDealInfo] meets: the clock when it reads the
    cache, the reply of the status service, the clock when the fallback
    runs and when the result is stored, and whether the store is writable. *)
Record Call := mkCall {
  at_lookup : Z;
  reply : Reply;
  at_fallback : Z;
  at_store : Z;
  writable : bool
}.

(** [getDealInfo]: the result, the cache it leaves and the number of
    requests it sent to the status service. [fetchDealFromW3S] catches
    every failure itself, so the handler of [getDealInfo] that answers
    with the status unknown has nothing to catch. *)
Definition getDealInfo (call : Call) (c : string) (cache : Cache)
    : DealInfo * Cache * nat :=
  if String.eqb c "" then (not_found, cache, 0%nat)
  else
    match getCachedDeal (at_lookup call) c cache with
    | Some cached => (cached, cache, 0%nat)
    | None =>
        let dealInfo := fetchDealFromW3S (at_fallback call) (reply call) c in
        (dealInfo, cacheDeal (at_store call) (writable call) c dealInfo cache, 1%nat)
    end.

(** *** The health score *)

Record HealthScore := mkHealthScore {
  score : Z;
  label : string;
  color : string
}.

Definition activeCount (dealInfo : DealInfo) : Z :=
  Z.of_nat (length (filter (fun d => status d = ACTIVE) (deals dealInfo))).

(** [getDealHealthScore]; [None] is a [null] argument. *)
Definition getDealHealthScore (dealInfo : option DealInfo) : HealthScore :=
  match dealInfo with
  | None => mkHealthScore 0 "No Data" "gray"
  | Some info =>
      if bool_decide (info_status info = NOT_FOUND) then
        mkHealthScore 0 "No Data" "gray"
      else
        let activeCount := activeCount info in
        if 3 <=? activeCount then mkHealthScore 100 "Excellent" "green"
        else if 2 <=? activeCount then mkHealthScore 80 "Good" "green"
        else if activeCount =? 1 then mkHealthScore 60 "Fair" "yellow"
        else if bool_decide (info_status info = PENDING) then
          mkHealthScore 40 "Pending" "yellow"
        else mkHealthScore 20 "At Risk" "red"
  end.

(** *** Vocabulary *)

(** The number of active deals of a list, deal by deal. *)
Fixpoint active_deals (l : list Deal) : Z :=
  match l with
  | [] => 0
  | d :: l' =>
      match status d with
      | ACTIVE => 1 + active_deals l'
      | _ => active_deals l'
      end
  end.

(** A summary as the producers of this module build it: the status
    not_found comes with no deal. *)
Definition produced (info : DealInfo) : Prop :=
  info_status info = NOT_FOUND -> deals info = [].

(** Three deals, all active, under the status active. *)
Definition three_active : DealInfo :=
  mkDealInfo ACTIVE
    [mkDeal "4711" "f01234" ACTIVE "baga-piece" None 0 0 0;
     mkDeal "4712" "f05678" ACTIVE "baga-piece" None 0 0 0;
     mkDeal "4713" "f09012" ACTIVE "baga-piece" None 0 0 0]
    (Some true) None None false None.

(** The deals moved in time by [delta] milliseconds. *)
Definition shift_deal (delta : Z) (d : Deal) : Deal :=
  mkDeal (dealId d) (provider d) (status d) (pieceCid d) (dataCid d)
         (activation d + delta) (expiration d + delta) (created d + delta).

Definition shift (delta : Z) (info : DealInfo) : DealInfo :=
  mkDealInfo (info_status info) (map (shift_deal delta) (deals info))
             (pinned info) (dagSize info) (info_created info)
             (simulated info) (message info).

(** The reply is a failure other than not-found. *)
Definition failed (r : Reply) : Prop :=
  match r with
  | Ok _ => False
  | HttpError code => code <> 404
  | NetworkError => True
  end.

(** *** Sample replies and calls *)

Definition queued_deal : W3SDeal :=
  mkW3SDeal "4711" "f01234" (Some "Queued") "baga-piece" "bafy-one"
            0 0 1700000000000.

Definition active_deal : W3SDeal :=
  mkW3SDeal "4711" "f01234" (Some "Active") "baga-piece" "bafy-one"
            1700000100000 1715552100000 1700000000000.

(** A first call at time 0 that finds the deal queued, a second after four
    minutes, a third after six minutes, by which time the deal is active. *)
Definition call_A : Call := mkCall 0 (Ok (mkW3SData [queued_deal] 1 (Some 11) None)) 0 0 true.
Definition call_B : Call := mkCall 240000 (Ok (mkW3SData [active_deal] 1 (Some 11) None)) 240000 240000 true.
Definition call_C : Call := mkCall 360000 (Ok (mkW3SData [active_deal] 1 (Some 11) None)) 360000 360000 true.

(** Two calls ten minutes apart while the service is unreachable. *)
Definition call_offline_1 : Call := mkCall 0 NetworkError 0 0 true.
Definition call_offline_2 : Call := mkCall 600000 NetworkError 600000 600000 true.

(** The locator that names the prototype of the cache object. *)
Definition proto : string := "__proto__".

(** A call while the service is unreachable and the store refuses writes. *)
Definition call_full : Call := mkCall 0 NetworkError 0 0 false.

(** *** Vocabulary for the simulated deals *)

(** The deal the simulation builds at position [n] for [provider]. *)
Definition simulated_deal (now : Z) (c : string) (n : nat) (provider : string)
    : Deal :=
  let i := Z.of_nat n in
  mkDeal (pretty (1000000 + (char_sum c * (i + 1)) mod 999999))
         provider ACTIVE ("baga6ea4seaq" +:+ slice_last 32 c) None
         (now - (30 + i * 10) * dayMs)
         (now + (180 - i * 30) * dayMs)
         (now - (35 + i * 10) * dayMs).

(** The number a simulated deal identifier is the decimal writing of. *)
Definition simulated_dealId (c : string) (n : nat) : Z :=
  1000000 + (char_sum c * (Z.of_nat n + 1)) mod 999999.

(** The deal is running at [now]: created, then activated, in the past,
    and expiring in the future. *)
Definition running (now : Z) (d : Deal) : Prop :=
  created d < activation d /\ activation d < now /\ now < expiration d.

Definition has_status (s : DealStatus) (info : DealInfo) : Prop :=
  Exists (fun d => status d = s) (deals info).

End Deals.

(** ** Webhooks *)

Module Webhooks.

Local Open Scope Z_scope.

Record Webhook := mkWebhook {
  id : string;
  name : string;
  url : string;
  events : list string;
  secret : option string;          (* [None] is [null] *)
  enabled : bool;
  createdAt : string;
  lastTriggered : option string;
  successCount : Z;
  failCount : Z
}.

(** The [updates] object, read at the five keys the function looks at:
    [None] is [undefined], a key that is absent. *)
Record Updates := mkUpdates {
  new_name : option string;
  new_url : option string;
  new_events : option (list string);
  new_secret : option (option string);
  new_enabled : option bool
}.

Inductive Error :=
| WebhookNotFound.

Definition message (e : Error) : string :=
  match e with WebhookNotFound => "Webhook not found" end.

(** The loop over [allowedUpdates]. *)
Definition apply_updates (updates : Updates) (webhook : Webhook) : Webhook :=
  mkWebhook
    (id webhook)
    (default (name webhook) (new_name updates))
    (default (url webhook) (new_url updates))
    (default (events webhook) (new_events updates))
    (default (secret webhook) (new_secret updates))
    (default (enabled webhook) (new_enabled updates))
    (createdAt webhook)
    (lastTriggered webhook)
    (successCount webhook)
    (failCount webhook).

(** [updateWebhook] on the stored list: what it returns or throws, and the
    list the store holds afterwards. *)
Definition updateWebhook (i : string) (updates : Updates) (webhooks : list Webhook)
    : (Error + Webhook) * list Webhook :=
  match list_find (fun w => id w = i) webhooks with
  | None => (inl WebhookNotFound, webhooks)
  | Some (index, found) =>
      let webhook := apply_updates updates found in
      (inr webhook, <[index := webhook]> webhooks)
  end.

(** *** Creating, finding and deleting webhooks *)

(** The [config] of [createWebhook]; [None] is a key that is absent. *)
Record Config := mkConfig {
  config_url : option string;
  config_events : option (list string);
  config_name : option string;
  config_secret : option (option string)
}.

Inductive CreateError :=
| UrlRequired
| EventRequired
| InvalidUrl.

Definition create_message (e : CreateError) : string :=
  match e with
  | UrlRequired => "Webhook URL is required"
  | EventRequired => "At least one event must be selected"
  | InvalidUrl => "Invalid webhook URL"
  end.

(** [createWebhook]: what it returns or throws, and the list the store
    holds afterwards. [parses] tells which strings [new URL] accepts,
    [new_id] is the identifier drawn from the clock and the random
    generator, [now] the clock as [toISOString] writes it. *)
Definition createWebhook (parses : string -> bool) (new_id now : string)
    (config : Config) (webhooks : list Webhook)
    : (CreateError + Webhook) * list Webhook :=
  let events := default [] (config_events config) in
  let name := default "Unnamed Webhook" (config_name config) in
  let secret := default None (config_secret config) in
  match config_url config with
  | None | Some "" => (inl UrlRequired, webhooks)
  | Some url =>
      if (length events =? 0)%nat then (inl EventRequired, webhooks)
      else if negb (parses url) then (inl InvalidUrl, webhooks)
      else
        let webhook :=
          mkWebhook new_id name url events secret true now None 0 0 in
        (inr webhook, webhooks ++ [webhook])
  end.

(** [deleteWebhook]: the list the store holds afterwards. *)
Definition deleteWebhook (i : string) (webhooks : list Webhook) : list Webhook :=
  filter (fun w => id w <> i) webhooks.

(** [getWebhookById]; [None] is [null]. *)
Definition getWebhookById (i : string) (webhooks : list Webhook) : option Webhook :=
  snd <$> list_find (fun w => id w = i) webhooks.

(** *** Triggering *)

(** The request [dispatchWebhook] sends: the address, the two headers that
    name the webhook and the event, whether the signature header is there,
    and the instant in the body. The payload travels in the body as it was
    handed in. *)
Record Request := mkRequest {
  request_url : string;
  request_webhookId : string;
  request_event : string;
  request_signed : bool;
  request_timestamp : string
}.

Definition eligible (event : string) (w : Webhook) : bool :=
  enabled w && bool_decide (event ∈ events w).

(** A secret that is [null] or empty adds no signature. *)
Definition has_secret (w : Webhook) : bool :=
  match secret w with
  | Some s => negb (String.eqb s "")
  | None => false
  end.

Definition request_of (now event : string) (w : Webhook) : Request :=
  mkRequest (url w) (id w) event (has_secret w) now.

(** [triggerWebhook]: the dispatches it starts, one call of
    [dispatchWebhook] for each eligible webhook in the order of the loop,
    each given by the request it is to send. The order in which the
    requests leave is that of [sent] below. *)
Definition triggerWebhook (now event : string) (webhooks : list Webhook)
    : list Request :=
  map (request_of now event) (filter (fun w => eligible event w = true) webhooks).

(** The requests in the order they leave. [dispatchWebhook] for a webhook
    without a secret calls [fetch] at once, inside the loop of
    [triggerWebhook]; for a webhook with a secret it first awaits
    [generateSignature], and calls [fetch] only after the loop has ended,
    in the order [arrival] in which the signatures, which are taken to be
    computed, are ready. *)
Definition sent (arrival : list Request -> list Request) (now event : string)
    (webhooks : list Webhook) : list Request :=
  let dispatched := triggerWebhook now event webhooks in
  filter (fun r => request_signed r = false) dispatched ++
  arrival (filter (fun r => request_signed r = true) dispatched).

(** *** Counters and logs *)

Record Log := mkLog {
  log_webhookId : string;
  log_event : string;
  log_success : bool;
  log_error : option string;
  log_timestamp : string
}.

(** The entry with the delivery counted in. *)
Definition counted (success : bool) (now : string) (w : Webhook) : Webhook :=
  mkWebhook (id w) (name w) (url w) (events w) (secret w) (enabled w)
            (createdAt w) (Some now)
            (if success then successCount w + 1 else successCount w)
            (if success then failCount w else failCount w + 1).

Definition updateWebhookStats (webhookId : string) (success : bool) (now : string)
    (webhooks : list Webhook) : list Webhook :=
  match list_find (fun w => id w = webhookId) webhooks with
  | Some (index, w) => <[index := counted success now w]> webhooks
  | None => webhooks
  end.

(** [logWebhookEvent]: the logs the store holds afterwards, newest first. *)
Definition logWebhookEvent (webhookId event : string) (success : bool)
    (error : option string) (now : string) (logs : list Log) : list Log :=
  take 100 (mkLog webhookId event success error now :: logs).

(** [getWebhookLogs]; an argument that is [null] or the empty string
    selects every log. *)
Definition getWebhookLogs (webhookId : option string) (logs : list Log) : list Log :=
  match webhookId with
  | Some i =>
      if String.eqb i "" then logs
      else filter (fun l => log_webhookId l = i) logs
  | None => logs
  end.

(** [clearWebhookLogs]: the logs the store holds afterwards. *)
Definition clearWebhookLogs (webhookId : option string) (logs : list Log) : list Log :=
  match webhookId with
  | Some i =>
      if String.eqb i "" then []
      else filter (fun l => log_webhookId l <> i) logs
  | None => []
  end.

(** The two stored values, which are taken to accept every write. *)
Record Store := mkStore {
  stored_webhooks : list Webhook;
  stored_logs : list Log
}.

(** How the request of one dispatch settled: [None] when [fetch] resolved,
    the message of the error when it rejected; and the clock at the two
    writes that follow. *)
Record Settled := mkSettled {
  settled_id : string;
  settled_event : string;
  settled_error : option string;
  logged_at : string;
  counted_at : string
}.

Definition delivered (c : Settled) : bool :=
  match settled_error c with None => true | Some _ => false end.

(** [dispatchWebhook], from the point where the request has settled: the
    log entry, then the counters. *)
Definition dispatchWebhook (c : Settled) (s : Store) : Store :=
  mkStore
    (updateWebhookStats (settled_id c) (delivered c) (counted_at c) (stored_webhooks s))
    (logWebhookEvent (settled_id c) (settled_event c) (delivered c)
                     (settled_error c) (logged_at c) (stored_logs s)).

(** *** Vocabulary *)

(** What a delivery leaves alone. *)
Definition settings (w : Webhook)
    : string * string * string * list string * option string * bool * string :=
  (id w, name w, url w, events w, secret w, enabled w, createdAt w).

(** The deliveries for [i] among [cs] that went through, or did not. *)
Definition deliveries (ok : bool) (i : string) (cs : list Settled) : Z :=
  Z.of_nat (length (filter (fun c => settled_id c = i /\ delivered c = ok) cs)).

Definition log_of (c : Settled) : Log :=
  mkLog (settled_id c) (settled_event c) (delivered c) (settled_error c) (logged_at c).

(** *** Sample data *)

Definition parses_https (s : string) : bool := String.prefix "https://" s.

Definition hook_config : Config :=
  mkConfig (Some "https://example.org/hook") (Some ["proof_created"]) None None.






End Webhooks.

(** ** The API service *)

Module Api.

Local Open Scope N_scope.

(** A saved proof, with the fields the verification reads. *)
Record Proof := mkProof {
  proofId : string;
  fileName : string;
  fileSize : N;
  sha256Hash : string;
  cid : option string
}.

(** Modelled from the spec: [getProofById], of [proofStorage], is not in
    the sources; it looks the proof up by its identifier among the saved
    proofs, and yields [null] when there is none. *)
Definition getProofById (saved : list Proof) (pid : string) : option Proof :=
  find (fun p => String.eqb (proofId p) pid) saved.

(** [b.toString(16).padStart(2, '0')] for a byte. *)
Definition hex_of_byte (b : N) : string :=
  String (Js.hex_char (b / 16)) (String (Js.hex_char (b mod 16)) EmptyString).

(** [hashBuffer], from the bytes of the digest that [crypto.subtle.digest]
    computes for the file. *)
Definition hashBuffer (digest : list N) : string :=
  foldr (fun b rest => hex_of_byte b +:+ rest) "" digest.

(** [createProof], as far as the saved record goes: the proof it hands
    to [saveProof] carries as hash what [hashBuffer] writes for the digest
    of the file. [new_id] is what [generateProofId] draws, [cid] is
    [None] when the upload is skipped. *)
Definition createProof (new_id name : string) (size : N) (digest : list N)
    (cid : option string) : Proof :=
  mkProof new_id name size (hashBuffer digest) cid.

(** A store whose proofs [createProof] made, the one function that makes
    proofs; the bytes of a digest are below 256. *)
Definition written (saved : list Proof) : Prop :=
  Forall (fun p =>
            exists new_id name size digest cid,
              Forall (fun b => b < 256) digest /\
              p = createProof new_id name size digest cid)
         saved.

Record Verification := mkVerification {
  success : bool;
  verified : bool;
  proof : option Proof;
  providedHash : option string;
  expectedHash : option string;
  timestamp : option Z;
  error : option string
}.

(** The [proof_verified] notification handed to [triggerWebhook]. *)
Record Verified := mkVerified {
  verified_proofId : string;
  verified_result : bool;
  verified_timestamp : Z
}.

(** [verifyProof]: the result, the notifications triggered and the saved
    proofs afterwards. The file comes as the bytes of its digest, [now] is
    the clock; a file of a type the function cannot read is not in the
    domain. *)
Definition verifyProof (now : Z) (pid : string) (digest : list N)
    (saved : list Proof) : Verification * list Verified * list Proof :=
  match getProofById saved pid with
  | None =>
      (mkVerification false false None None None None (Some "Proof not found"),
       [], saved)
  | Some proof =>
      let fileHash := hashBuffer digest in
      let isMatch := String.eqb fileHash (sha256Hash proof) in
      (mkVerification true isMatch (Some proof) (Some fileHash)
                      (Some (sha256Hash proof)) (Some now) None,
       [mkVerified pid isMatch now],
       saved)
  end.

(** *** Sample data *)

(** The bytes of the digest [Simulated.digest_a]. *)
Definition digest_bytes : list N :=
  [185; 77; 39; 185; 147; 77; 62; 8; 165; 46; 82; 215; 218; 125; 171; 250;
   196; 132; 239; 227; 122; 83; 128; 238; 144; 136; 247; 172; 226; 239; 205; 233].

Definition saved_lower : list Proof :=
  [mkProof "PV-1" "hello.txt" 11 Simulated.digest_a (Some "bafy-one")].

(** *** Vocabulary *)

(** The number whose bytes, most significant first, are [bytes], after the
    digits already in [acc]. *)
Definition big_endian (acc : N) (bytes : list N) : N :=
  foldl (fun acc b => 256 * acc + b) acc bytes.

End Api.

(** ** The simulated ledger: tokens *)

Module Nfts.

Local Open Scope Z_scope.

Record NFT := mkNFT {
  tokenId : Z;
  proofId : string;
  sha256Hash : string;
  cid : string;
  fileName : string;
  fileSize : Z;
  owner : string;
  nft_timestamp : Z
}.

Record Transaction := mkTransaction {
  hash : string;
  type : string;
  tx_proofId : string;
  tx_tokenId : Z;
  tx_blockNumber : Z;
  tx_timestamp : Z
}.

(** The fields of the class that [mintProof] reads or writes. *)
Record SimulatedBlockchain := mkChain {
  blockNumber : Z;
  timestamp : Z;
  nfts : list (string * NFT);
  nftCounter : Z;
  transactions : list Transaction
}.

Inductive Error :=
| AlreadyMinted.

Definition message (e : Error) : string :=
  match e with AlreadyMinted => "Proof already minted" end.

Record Receipt := mkReceipt {
  receipt_hash : string;
  receipt_tokenId : Z;
  receipt_blockNumber : Z
}.

Definition fresh (now : Z) : SimulatedBlockchain :=
  mkChain 1 (now / 1000) [] 1 [].

Definition mineBlock (now : Z) (chain : SimulatedBlockchain) : SimulatedBlockchain :=
  mkChain (blockNumber chain + 1) (now / 1000) (nfts chain) (nftCounter chain)
          (transactions chain).

(** [mintProof], from the point where the delay has elapsed. *)
Definition mintProof (now : Z) (txHash : string)
    (pid h c name : string) (size : Z) (chain : SimulatedBlockchain)
    : Error + (Receipt * SimulatedBlockchain) :=
  if Simulated.Map_has (nfts chain) pid then inl AlreadyMinted
  else
    let tokenId := nftCounter chain in
    let nft :=
      mkNFT tokenId pid h c name size
            "0xSimulated1234567890abcdef1234567890abcdef" (timestamp chain) in
    let chain1 :=
      mkChain (blockNumber chain) (timestamp chain)
              (Simulated.Map_set (nfts chain) pid nft)
              (nftCounter chain + 1)
              (transactions chain ++
                 [mkTransaction txHash "mintProof" pid tokenId
                    (blockNumber chain) (timestamp chain)]) in
    let chain2 := mineBlock now chain1 in
    inr (mkReceipt txHash tokenId (blockNumber chain2 - 1), chain2).

Definition getNFT (pid : string) (chain : SimulatedBlockchain) : option NFT :=
  Simulated.Map_get (nfts chain) pid.

Definition isProofMinted (pid : string) (chain : SimulatedBlockchain) : bool :=
  Simulated.Map_has (nfts chain) pid.

Definition getTotalNFTs (chain : SimulatedBlockchain) : Z :=
  Z.of_nat (length (nfts chain)).

(** What the methods of the class do to these fields: [mintProof] as
    above; the others leave the tokens and their counter alone, and so
    does a reload, which restores the two as [save] wrote them. *)
Inductive step : SimulatedBlockchain -> SimulatedBlockchain -> Prop :=
| step_mint now txHash pid h c name size chain receipt chain' :
    mintProof now txHash pid h c name size chain = inr (receipt, chain') ->
    step chain chain'
| step_other chain chain' :
    nfts chain' = nfts chain -> nftCounter chain' = nftCounter chain ->
    step chain chain'.

(** The states the class reaches from its constructor. *)
Inductive reachable : SimulatedBlockchain -> Prop :=
| reachable_fresh now : reachable (fresh now)
| reachable_step chain chain' : reachable chain -> step chain chain' -> reachable chain'.

(** The tokens in the order they were minted. *)
Definition tokens (chain : SimulatedBlockchain) : list Z :=
  map (fun e => tokenId (snd e)) (nfts chain).

(** The invariant of the numbering: the tokens count up from one, the
    counter is the next number, and each token sits under its own
    identifier, which no other token has. *)
Record numbered (chain : SimulatedBlockchain) : Prop := {
  numbered_tokens :
    tokens chain = map Z.of_nat (seq 1 (length (nfts chain)));
  numbered_counter : nftCounter chain = Z.of_nat (length (nfts chain)) + 1;
  numbered_keys : NoDup (map fst (nfts chain));
  numbered_ids : Forall (fun e => proofId (snd e) = fst e) (nfts chain)
}.

(** *** Sample data *)

Definition chain1 : SimulatedBlockchain :=
  match mintProof 1700000000000 "0xaa" "PV-1" Simulated.digest_a "bafy-one"
                  "hello.txt" 11 (fresh 1700000000000) with
  | inr (_, chain) => chain
  | inl _ => fresh 1700000000000
  end.

End Nfts.

(** ** Listing the saved proofs *)

Module Listing.

Local Open Scope Z_scope.

(** A saved proof, with the fields [listProofs] reads: [timestamp] is the
    time value of the date it parses, [registered] is
    [!!p.onChain?.registered] and [minted] is [!!p.nft?.minted]. *)
Record Proof := mkProof {
  proofId : string;
  fileName : string;
  fileSize : Z;
  sha256Hash : string;
  timestamp : Z;
  demoMode : bool;
  registered : bool;
  minted : bool
}.

(** The [filter] option; [None] is a key that is absent. *)
Record Filter := mkFilter {
  filter_demoMode : option bool;
  filter_onChain : option bool;
  filter_hasNft : option bool;
  filter_search : option string
}.

(** [s.includes(term)] *)
Fixpoint includes (s term : string) : bool :=
  String.prefix term s ||
  match s with
  | EmptyString => false
  | String _ s' => includes s' term
  end.

(** The four filters, one after the other. A search string that is empty
    filters nothing. *)
Definition apply_filters (filter : Filter) (proofs : list Proof) : list Proof :=
  let proofs :=
    match filter_demoMode filter with
    | Some wanted => List.filter (fun p => Bool.eqb (demoMode p) wanted) proofs
    | None => proofs
    end in
  let proofs :=
    match filter_onChain filter with
    | Some wanted => List.filter (fun p => Bool.eqb (registered p) wanted) proofs
    | None => proofs
    end in
  let proofs :=
    match filter_hasNft filter with
    | Some wanted => List.filter (fun p => Bool.eqb (minted p) wanted) proofs
    | None => proofs
    end in
  match filter_search filter with
  | None | Some "" => proofs
  | Some search =>
      let term := Js.toLowerCase search in
      List.filter (fun p =>
                     includes (Js.toLowerCase (fileName p)) term ||
                     includes (Js.toLowerCase (proofId p)) term ||
                     includes (Js.toLowerCase (sha256Hash p)) term)
                  proofs
  end.

(** [l.slice(s, e)], with the negative positions counted from the end. *)
Definition slice {A} (s e : Z) (l : list A) : list A :=
  let len := Z.of_nat (length l) in
  let position k := if k <? 0 then Z.max (len + k) 0 else Z.min k len in
  take (Z.to_nat (position e - position s)) (drop (Z.to_nat (position s)) l).

Record Pagination := mkPagination {
  page : Z;
  limit : Z;
  total : Z;
  totalPages : Z;
  hasNext : bool;
  hasPrev : bool
}.

(** [listProofs] on the saved proofs. [sort] is what [Array.prototype.sort]
    does with the comparison of the chosen key and direction; the
    comparison never answers that two proofs are equal, which leaves the
    order of proofs with one key to the sort that runs it. [page] and
    [limit] are integers and [limit] is not zero; the quotient rounded up
    is written with the division of integers, which rounds down. *)
Definition listProofs (sort : list Proof -> list Proof)
    (page limit : Z) (filter : Filter) (saved : list Proof)
    : list Proof * Pagination :=
  let proofs := sort (apply_filters filter saved) in
  let total := Z.of_nat (length proofs) in
  let totalPages := - ((- total) / limit) in
  let start := (page - 1) * limit in
  let data := slice start (start + limit) proofs in
  (data, mkPagination page limit total totalPages (page <? totalPages) (1 <? page)).

(** Two characters are the same letter: the same character, or a capital
    from A to Z and its small letter. *)
Definition same_letter (a b : Ascii.ascii) : Prop :=
  let m := Ascii.N_of_ascii a in
  let n := Ascii.N_of_ascii b in
  (m = n \/ (65 <= m <= 90 /\ n = m + 32) \/ (65 <= n <= 90 /\ m = n + 32))%N.

Inductive same_letters : string -> string -> Prop :=
| same_empty : same_letters "" ""
| same_cons a b s t :
    same_letter a b -> same_letters s t ->
    same_letters (String a s) (String b t).

(** The term occurs in the field, letter case apart: a stretch of the
    field has the letters of the term. *)
Definition occurs (term field : string) : Prop :=
  exists pre mid post, field = pre +:+ mid +:+ post /\ same_letters mid term.

(** The search term occurs, letter case apart, in the file name, the
    identifier or the hash of the proof. *)
Definition found (search : string) (p : Proof) : Prop :=
  occurs search (fileName p) \/ occurs search (proofId p) \/
  occurs search (sha256Hash p).

(** Every character of the string is in the ASCII range, where
    [Js.toLowerCase] does what [toLowerCase] does. *)
Fixpoint is_ascii (s : string) : bool :=
  match s with
  | EmptyString => true
  | String a s' => (Ascii.N_of_ascii a <? 128)%N && is_ascii s'
  end.

(** The listings the search is modelled for: no search is set, or the
    search term and the three fields it is looked for in are ASCII. *)
Definition searchable (filter : Filter) (saved : list Proof) : Prop :=
  match filter_search filter with
  | None => True
  | Some search =>
      is_ascii search = true /\
      Forall (fun p => is_ascii (fileName p) && is_ascii (proofId p) &&
                       is_ascii (sha256Hash p) = true) saved
  end.

(** What every filter that is set asks of a proof. *)
Definition passes (filter : Filter) (p : Proof) : Prop :=
  (forall wanted, filter_demoMode filter = Some wanted -> demoMode p = wanted) /\
  (forall wanted, filter_onChain filter = Some wanted -> registered p = wanted) /\
  (forall wanted, filter_hasNft filter = Some wanted -> minted p = wanted) /\
  (forall search, filter_search filter = Some search -> search <> "" ->
     found search p).

(** The page [k], counted from zero, of a listing. *)
Definition page_data (sort : list Proof -> list Proof) (limit : Z)
    (filter : Filter) (saved : list Proof) (k : nat) : list Proof :=
  fst (listProofs sort (Z.of_nat k + 1) limit filter saved).

(** *** Sample data *)

Definition sample_proofs : list Proof :=
  [mkProof "PV-1" "hello.txt" 11 Simulated.digest_a 1700000000000 true false false;
   mkProof "PV-2" "world.txt" 12 Simulated.digest_b 1700000100000 false true false;
   mkProof "PV-3" "third.txt" 13 Simulated.digest_zero 1700000200000 true true true].

Definition no_filter : Filter := mkFilter None None None None.

Definition demo_only : Filter := mkFilter (Some true) None None None.

Definition search_hello : Filter := mkFilter None None None (Some "HELLO").

End Listing.

(** * Properties *)

(** ** Hexadecimal digests *)

Section HexFacts.

Import Js.
Local Open Scope N_scope.

Lemma hex_value_lower a : hex_value (lower_ascii a) = hex_value a.
Proof.
  destruct a as [[] [] [] [] [] [] [] []]; reflexivity.
Qed.

Lemma hex_value_char a d :
  hex_value a = Some d -> d < 16 /\ lower_ascii a = hex_char d.
Proof.
  destruct a as [[] [] [] [] [] [] [] []]; vm_compute;
    try discriminate; intros [= <-]; split; reflexivity.
Qed.

Lemma parse_hex_lower s : forall acc, parse_hex acc (toLowerCase s) = parse_hex acc s.
Proof.
  induction s as [| a s IH]; intros acc; simpl; [done |].
  rewrite hex_value_lower. destruct (hex_value a); [apply IH | done].
Qed.

(** Two digit strings of one length with one value agree up to case. *)
Lemma parse_hex_inj s : forall t acc1 acc2 v,
  String.length s = String.length t ->
  parse_hex acc1 s = Some v -> parse_hex acc2 t = Some v ->
  acc1 = acc2 /\ toLowerCase s = toLowerCase t.
Proof.
  induction s as [| a s IH]; intros [| b t] acc1 acc2 v Hlen; simpl in *;
    try discriminate.
  - intros [= ->] [= ->]. done.
  - destruct (hex_value a) as [d1 |] eqn:Ea; [| discriminate].
    destruct (hex_value b) as [d2 |] eqn:Eb; [| discriminate].
    intros H1 H2. injection Hlen as Hlen.
    destruct (IH t _ _ v Hlen H1 H2) as [Hacc ->].
    apply hex_value_char in Ea as [Hd1 ->], Eb as [Hd2 ->].
    assert (acc1 = acc2 /\ d1 = d2) as [-> ->] by lia. done.
Qed.

Lemma is_hash_parse s :
  is_hash s = true ->
  String.length s = 64%nat /\ parse_hex 0 s = Some (bytes32_of_hex s).
Proof.
  unfold is_hash, bytes32_of_hex. intros [Hl Hp]%andb_true_iff.
  apply Nat.eqb_eq in Hl. apply bool_decide_eq_true in Hp as [v ->]. done.
Qed.

(** On digests, equality of the [bytes32] is equality of the lower-cased
    strings. *)
Lemma bytes32_of_hex_eq s t :
  is_hash s = true -> is_hash t = true ->
  bytes32_of_hex s = bytes32_of_hex t <-> toLowerCase s = toLowerCase t.
Proof.
  intros [Hls Hs]%is_hash_parse [Hlt Ht]%is_hash_parse. split.
  - intros Heq. rewrite <- Heq in Ht.
    apply (parse_hex_inj s t 0 0 (bytes32_of_hex s)); [congruence | done | done].
  - intros Heq. unfold bytes32_of_hex.
    by rewrite <- (parse_hex_lower s), <- (parse_hex_lower t), Heq.
Qed.

End HexFacts.

(** ** The ledger contract *)

Section RegistryFacts.

Import Registry.
Local Open Scope N_scope.

Lemma bytes_length_zero s : bytes_length s = 0 <-> s = "".
Proof.
  unfold bytes_length. destruct s; simpl; split; intros H; try done; lia.
Qed.

Lemma bytes_length_pos s : (0 <? bytes_length s) = true <-> s <> "".
Proof.
  rewrite N.ltb_lt, <- bytes_length_zero. lia.
Qed.

Lemma require_inr b e u : require b e = inr u -> b = true.
Proof. destruct b; simpl; [done | discriminate]. Qed.

(** In a goal [body = inr st' -> _], step over the next [require]: the
    branch where it reverts is absurd, the other one records as [H] that
    the guard holds. *)
Ltac pass_guard H :=
  match goal with
  | |- context [require ?b ?e] =>
      destruct (require b e) eqn:H; [discriminate | apply require_inr in H]
  end.

Lemma incr_inr n m : incr n = inr m -> n < UINT256_MAX /\ m = n + 1.
Proof.
  unfold incr. destruct (n <? UINT256_MAX) eqn:E; [| discriminate].
  intros [= <-]. apply N.ltb_lt in E. done.
Qed.

(** What a successful registration tells about its inputs. *)
Lemma registerProof_inr env pid h c sp st st' :
  registerProof env pid h c sp st = inr st' ->
  pid <> "" /\ h <> 0 /\ c <> "" /\
  timestamp (proofs_at st pid) = 0 /\
  hashToProofId_at st h = "" /\
  totalProofs st < UINT256_MAX /\
  st' = registered env pid h c sp st.
Proof.
  unfold registerProof, bind.
  pass_guard E1. pass_guard E2. pass_guard E3. pass_guard E4. pass_guard E5.
  destruct (incr (totalProofs st)) as [|total] eqn:E6; [discriminate |].
  intros [= <-]. apply incr_inr in E6 as [Hlt ->].
  apply bytes_length_pos in E1, E3.
  apply negb_true_iff, N.eqb_neq in E2.
  apply N.eqb_eq in E4. apply N.eqb_eq, bytes_length_zero in E5.
  done.
Qed.

(** The registration goes through whenever every guard holds: the
    function is total, and a revert has one of the listed reasons. *)
Lemma registerProof_succeeds env pid h c sp st :
  pid <> "" -> h <> 0 -> c <> "" ->
  timestamp (proofs_at st pid) = 0 ->
  hashToProofId_at st h = "" ->
  totalProofs st < UINT256_MAX ->
  registerProof env pid h c sp st = inr (registered env pid h c sp st).
Proof.
  intros Hpid Hh Hc Hts Hhash Hlt. unfold registerProof, bind.
  apply bytes_length_pos in Hpid, Hc. rewrite Hpid, Hc. simpl.
  apply N.eqb_neq in Hh. rewrite Hh. simpl.
  rewrite Hts, Hhash. simpl.
  unfold incr. apply N.ltb_lt in Hlt. rewrite Hlt. done.
Qed.

(** *** Reading the mappings of the next state *)

Lemma proofs_at_registered env pid h c sp st q :
  proofs_at (registered env pid h c sp st) q =
  if decide (pid = q) then newProof env pid h c sp else proofs_at st q.
Proof.
  unfold proofs_at, registered, store. simpl. rewrite lookup_insert.
  by case_decide.
Qed.

Lemma hashToProofId_at_registered env pid h c sp st k :
  hashToProofId_at (registered env pid h c sp st) k =
  if decide (h = k) then pid else hashToProofId_at st k.
Proof.
  unfold hashToProofId_at, registered, store. simpl. rewrite lookup_insert.
  by case_decide.
Qed.

Lemma cidToProofId_at_registered env pid h c sp st k :
  cidToProofId_at (registered env pid h c sp st) k =
  if decide (c = k) then pid else cidToProofId_at st k.
Proof.
  unfold cidToProofId_at, registered, store. simpl. rewrite lookup_insert.
  by case_decide.
Qed.

Lemma linkDeal_inr env pid d prov s e st st' :
  linkDeal env pid d prov s e st = inr st' ->
  0 < timestamp (proofs_at st pid) /\
  hashToProofId st' = hashToProofId st /\
  cidToProofId st' = cidToProofId st /\
  totalProofs st' = totalProofs st /\
  forall q, proofs_at st' q =
            if decide (pid = q) then push_dealId d (proofs_at st pid)
            else proofs_at st q.
Proof.
  unfold linkDeal, bind.
  pass_guard E1. pass_guard E2.
  destruct (incr _) as [|total] eqn:E3; [discriminate |].
  intros [= <-]. apply N.ltb_lt in E1.
  repeat split; try done.
  intros q. unfold proofs_at at 1. simpl. rewrite lookup_insert.
  by case_decide.
Qed.

Lemma updateDealStatus_inr env pid i a st st' :
  updateDealStatus env pid i a st = inr st' ->
  proofs st' = proofs st /\
  hashToProofId st' = hashToProofId st /\
  cidToProofId st' = cidToProofId st /\
  totalProofs st' = totalProofs st.
Proof.
  unfold updateDealStatus, bind.
  pass_guard E1. pass_guard E2. pass_guard E3.
  destruct (_ !! _); [| discriminate].
  by intros [= <-].
Qed.

Lemma consistent_initial deployer : consistent (initial deployer).
Proof.
  split; try done.
Qed.

Lemma consistent_registered env pid h c sp st :
  pid <> "" -> h <> 0 ->
  hashToProofId_at st h = "" ->
  consistent st -> consistent (registered env pid h c sp st).
Proof.
  intros Hpid Hh Hfree [I1 I2 I3]. split.
  - rewrite proofs_at_registered. by case_decide.
  - rewrite hashToProofId_at_registered. by case_decide.
  - intros q. rewrite proofs_at_registered. case_decide as Hq.
    + subst q. intros _. simpl. rewrite hashToProofId_at_registered.
      by case_decide.
    + intros Hts. rewrite hashToProofId_at_registered.
      case_decide as Hk; [| by apply I3].
      (* a stored proof with the hash just bound: its key would be empty *)
      specialize (I3 q Hts). rewrite <- Hk, Hfree in I3. subst q.
      rewrite I1 in Hts. lia.
Qed.

Lemma consistent_step st st' : step st st' -> consistent st -> consistent st'.
Proof.
  intros Hstep Hc. destruct Hstep as [env pid h c sp st st' H
                                     |env pid d prov s e st st' H
                                     |env pid i a st st' H
                                     |a st].
  - apply registerProof_inr in H as (Hpid & Hh & _ & _ & Hfree & _ & ->).
    by apply consistent_registered.
  - apply linkDeal_inr in H as (Hts & Hhash & _ & _ & Hproofs).
    destruct Hc as [I1 I2 I3].
    assert (Hat : forall k, hashToProofId_at st' k = hashToProofId_at st k)
      by (intros k; unfold hashToProofId_at; by rewrite Hhash).
    split.
    + rewrite Hproofs. case_decide as Hq; [| done].
      subst pid. rewrite I1 in Hts. lia.
    + by rewrite Hat.
    + intros q. rewrite Hproofs, Hat. case_decide as Hq.
      * subst q. simpl. intros _. by apply I3.
      * apply I3.
  - apply updateDealStatus_inr in H as (Hp & Hhash & _ & _).
    destruct Hc as [I1 I2 I3].
    assert (Hat : forall k, hashToProofId_at st' k = hashToProofId_at st k)
      by (intros k; unfold hashToProofId_at; by rewrite Hhash).
    assert (Hpat : forall q, proofs_at st' q = proofs_at st q)
      by (intros q; unfold proofs_at; by rewrite Hp).
    split.
    + by rewrite Hpat.
    + by rewrite Hat.
    + intros q. rewrite Hpat, Hat. apply I3.
  - destruct Hc as [I1 I2 I3]. by split.
Qed.

Lemma reachable_consistent st : reachable st -> consistent st.
Proof.
  induction 1 as [deployer | st st' _ IH Hstep].
  - apply consistent_initial.
  - by apply (consistent_step st st').
Qed.

(** At most one existing proof per hash. *)
Lemma one_proof_per_hash st p1 p2 :
  reachable st ->
  proofExists p1 st = true -> proofExists p2 st = true ->
  sha256Hash (proofs_at st p1) = sha256Hash (proofs_at st p2) ->
  p1 = p2.
Proof.
  intros Hr H1 H2 Heq. apply reachable_consistent in Hr as [_ _ I3].
  unfold proofExists in *. apply N.ltb_lt in H1, H2.
  rewrite <- (I3 p1 H1), <- (I3 p2 H2). by rewrite Heq.
Qed.

Lemma step_avoiding_step c0 st st' : step_avoiding c0 st st' -> step st st'.
Proof.
  destruct 1; [eapply step_registerProof | eapply step_linkDeal
              | eapply step_updateDealStatus | apply step_owner]; eassumption.
Qed.

Lemma same_record_refl p : same_record p p.
Proof. by repeat split. Qed.

Lemma same_record_push d p q : same_record p q -> same_record (push_dealId d p) q.
Proof. intros H. exact H. Qed.

(** A registered proof stays where the hash index points: no later step
    moves the index entry of its hash or rewrites its record, deals apart. *)
Lemma anchored_step pid h p0 st st' :
  pid <> "" -> timestamp p0 <> 0 ->
  anchored pid h p0 st -> step st st' -> anchored pid h p0 st'.
Proof.
  intros Hpid Hts [Hidx Hrec] Hstep.
  assert (Hex : timestamp (proofs_at st pid) <> 0).
  { destruct Hrec as (_ & _ & _ & _ & -> & _). done. }
  destruct Hstep as [env pid2 h2 c2 sp2 st st' H
                    |env pid2 d prov s e st st' H
                    |env pid2 i a st st' H
                    |a st].
  - apply registerProof_inr in H as (_ & _ & _ & Hfresh & Hfree & _ & ->).
    assert (pid2 <> pid) by (intros ->; done).
    assert (h2 <> h) by (intros ->; rewrite Hfree in Hidx; by subst pid).
    split.
    + rewrite hashToProofId_at_registered. by rewrite decide_False.
    + rewrite proofs_at_registered. by rewrite decide_False.
  - apply linkDeal_inr in H as (_ & Hhash & _ & _ & Hproofs). split.
    + unfold hashToProofId_at. by rewrite Hhash.
    + rewrite Hproofs. case_decide as Hq; [| done].
      subst pid2. by apply same_record_push.
  - apply updateDealStatus_inr in H as (Hp & Hhash & _ & _). split.
    + unfold hashToProofId_at. by rewrite Hhash.
    + unfold proofs_at. by rewrite Hp.
  - done.
Qed.

Lemma cid_bound_step c0 pid st st' :
  cidToProofId_at st c0 = pid -> step_avoiding c0 st st' ->
  cidToProofId_at st' c0 = pid.
Proof.
  intros Hc Hstep.
  destruct Hstep as [env pid2 h2 c2 sp2 st st' Hne H
                    |env pid2 d prov s e st st' H
                    |env pid2 i a st st' H
                    |a st].
  - apply registerProof_inr in H as (_ & _ & _ & _ & _ & _ & ->).
    rewrite cidToProofId_at_registered. by rewrite decide_False.
  - apply linkDeal_inr in H as (_ & _ & Hcid & _).
    unfold cidToProofId_at. by rewrite Hcid.
  - apply updateDealStatus_inr in H as (_ & _ & Hcid & _).
    unfold cidToProofId_at. by rewrite Hcid.
  - done.
Qed.

Lemma anchored_rtc pid h p0 st st' :
  pid <> "" -> timestamp p0 <> 0 ->
  anchored pid h p0 st -> rtc step st st' -> anchored pid h p0 st'.
Proof.
  intros Hpid Hts Ha Hsteps. induction Hsteps as [| st st1 st2 Hstep _ IH]; [done |].
  apply IH. by apply (anchored_step pid h p0 st st1).
Qed.

Lemma anchored_cid_rtc c0 pid h p0 st st' :
  pid <> "" -> timestamp p0 <> 0 ->
  anchored pid h p0 st -> cidToProofId_at st c0 = pid ->
  rtc (step_avoiding c0) st st' ->
  anchored pid h p0 st' /\ cidToProofId_at st' c0 = pid.
Proof.
  intros Hpid Hts Ha Hc Hsteps.
  induction Hsteps as [| st st1 st2 Hstep _ IH]; [done |].
  apply IH.
  - apply (anchored_step pid h p0 st st1); try done.
    by apply (step_avoiding_step c0).
  - by apply (cid_bound_step c0 pid st st1).
Qed.

(** C2. Whenever [registerProof] succeeds, [getProofByHash] on the hash and
    [getProofByCid] on the locator both return the record just registered,
    which carries the proof identifier, hash and locator of the call; the
    counter of proofs has grown by one and a [ProofRegistered] event has
    been appended to the log. The lookups keep their answer afterwards, up
    to the deals linked to the proof in between: by hash after any calls,
    by locator after any calls that register other locators (the block of
    the registration having a timestamp, as every block has). *)
Theorem registerProof_then_lookup env pid h c sp st st' :
  registerProof env pid h c sp st = inr st' ->
  let p := newProof env pid h c sp in
  getProofByHash h st' = inr p /\
  getProofByCid c st' = inr p /\
  proofId p = pid /\ sha256Hash p = h /\ cid p = c /\
  totalProofs st' = totalProofs st + 1 /\
  events st' =
    events st ++ [ProofRegistered pid h c (msg_sender env)
                    (block_timestamp env) (block_number env)] /\
  (block_timestamp env <> 0 ->
   (forall st'', rtc step st' st'' ->
      exists q, getProofByHash h st'' = inr q /\ same_record q p) /\
   (forall st'', rtc (step_avoiding c) st' st'' ->
      exists q, getProofByCid c st'' = inr q /\ same_record q p)).
Proof.
  intros H. apply registerProof_inr in H as (Hpid & _ & _ & _ & _ & _ & ->).
  pose proof Hpid as Hlen. apply bytes_length_pos in Hlen. simpl.
  assert (Hh : hashToProofId_at (registered env pid h c sp st) h = pid).
  { rewrite hashToProofId_at_registered. by rewrite decide_True. }
  assert (Hc : cidToProofId_at (registered env pid h c sp st) c = pid).
  { rewrite cidToProofId_at_registered. by rewrite decide_True. }
  assert (Hp : proofs_at (registered env pid h c sp st) pid = newProof env pid h c sp).
  { rewrite proofs_at_registered. by rewrite decide_True. }
  set (st' := registered env pid h c sp st) in *.
  assert (Ha : anchored pid h (newProof env pid h c sp) st').
  { split; [done |]. rewrite Hp. apply same_record_refl. }
  split; [unfold getProofByHash, bind; by rewrite Hh, Hlen, Hp |].
  split; [unfold getProofByCid, bind; by rewrite Hc, Hlen, Hp |].
  do 5 (split; [done |]).
  intros Hts. split.
  - intros st'' Hsteps.
    destruct (anchored_rtc pid h (newProof env pid h c sp) st' st''
                Hpid Hts Ha Hsteps) as [Hi Hr].
    exists (proofs_at st'' pid). split; [| done].
    unfold getProofByHash, bind. by rewrite Hi, Hlen.
  - intros st'' Hsteps.
    destruct (anchored_cid_rtc c pid h (newProof env pid h c sp) st' st''
                Hpid Hts Ha Hc Hsteps) as [[Hi Hr] Hc'].
    exists (proofs_at st'' pid). split; [| done].
    unfold getProofByCid, bind. by rewrite Hc', Hlen.
Qed.

Lemma registerProof_then_lookup_witness :
  registerProof env1 "PV-1" 7 "bafy-one" "f01234" (initial alice) = inr st1 /\
  getProofByHash 7 st1 = inr (newProof env1 "PV-1" 7 "bafy-one" "f01234") /\
  getProofByCid "bafy-one" st1 = inr (newProof env1 "PV-1" 7 "bafy-one" "f01234") /\
  totalProofs st1 = 1.
Proof.
  assert (H : registerProof env1 "PV-1" 7 "bafy-one" "f01234" (initial alice)
              = inr st1) by (vm_compute; reflexivity).
  split; [exact H |].
  destruct (registerProof_then_lookup _ _ _ _ _ _ _ H)
    as (Hh & Hc & _ & _ & _ & Ht & _ & _).
  split; [exact Hh |]. split; [exact Hc |]. exact Ht.
Defined.

(** C1, as the contract has it. In every reachable state a registration
    whose hash is already bound reverts, whatever the locator, and the
    reason is "Hash already registered" as soon as the call passes the
    earlier guards (identifier not empty and not in use, locator not empty);
    at most one existing proof carries a given hash; and the locator is not
    looked at: a call with a new identifier and a new hash succeeds whether
    or not its locator is bound, and binds the locator to the new proof. *)
Theorem registerProof_hash_unique st :
  reachable st ->
  (forall env pid h c sp,
      hashExists h st = true ->
      (exists e, registerProof env pid h c sp st = inl e) /\
      (pid <> "" -> c <> "" -> proofExists pid st = false ->
       registerProof env pid h c sp st = inl HashRegistered)) /\
  (forall p1 p2,
      proofExists p1 st = true -> proofExists p2 st = true ->
      sha256Hash (proofs_at st p1) = sha256Hash (proofs_at st p2) ->
      p1 = p2) /\
  (forall env pid h c sp,
      pid <> "" -> c <> "" -> h <> 0 ->
      proofExists pid st = false -> hashExists h st = false ->
      totalProofs st < UINT256_MAX ->
      exists st', registerProof env pid h c sp st = inr st' /\
                  cidToProofId_at st' c = pid).
Proof.
  intros Hr. split; [| split].
  - intros env pid h c sp Hbound.
    unfold hashExists in Hbound. apply bytes_length_pos in Hbound.
    split.
    + destruct (registerProof env pid h c sp st) as [e | st'] eqn:E; [by exists e |].
      apply registerProof_inr in E as (_ & _ & _ & _ & Hfree & _). done.
    + intros Hpid Hc Hfresh.
      assert (Hh : h <> 0).
      { intros ->. apply reachable_consistent in Hr as [_ I2 _]. done. }
      unfold proofExists in Hfresh. apply N.ltb_ge in Hfresh.
      assert (Hts : timestamp (proofs_at st pid) = 0) by lia.
      unfold registerProof, bind.
      apply bytes_length_pos in Hpid, Hc. rewrite Hpid, Hc. simpl.
      apply N.eqb_neq in Hh. rewrite Hh. simpl. rewrite Hts. simpl.
      destruct (hashToProofId_at st h) eqn:Eh; done.
  - intros p1 p2. by apply one_proof_per_hash.
  - intros env pid h c sp Hpid Hc Hh Hfresh Hfree Hlt.
    exists (registered env pid h c sp st). split.
    + unfold proofExists in Hfresh. apply N.ltb_ge in Hfresh.
      unfold hashExists in Hfree. apply N.ltb_ge in Hfree.
      apply registerProof_succeeds; try done; [lia |].
      apply bytes_length_zero. lia.
    + rewrite cidToProofId_at_registered. by rewrite decide_True.
Qed.

Lemma reachable_st1 : reachable st1.
Proof.
  apply (reachable_step (initial alice)); [constructor |].
  apply (step_registerProof env1 "PV-1" 7 "bafy-one" "f01234").
  vm_compute. reflexivity.
Defined.

Lemma registerProof_hash_unique_witness :
  hashExists 7 st1 = true /\
  registerProof env2 "PV-2" 7 "bafy-two" "f05678" st1 = inl HashRegistered.
Proof.
  split; [vm_compute; reflexivity |].
  destruct (registerProof_hash_unique st1 reachable_st1) as (Hdup & _ & _).
  apply (Hdup env2 "PV-2" 7 "bafy-two" "f05678").
  - vm_compute; reflexivity.
  - discriminate.
  - discriminate.
  - vm_compute; reflexivity.
Defined.

(** C1 does not hold for the locator: on a state where "bafy-one" is bound
    to the proof "PV-1", registering "PV-2" with a new hash and the same
    locator succeeds, and two existing proofs then carry that locator. *)
Lemma registerProof_accepts_bound_cid :
  reachable st1 /\
  getProofByCid "bafy-one" st1 = inr (newProof env1 "PV-1" 7 "bafy-one" "f01234") /\
  registerProof env2 "PV-2" 8 "bafy-one" "f05678" st1 = inr st2 /\
  proofExists "PV-1" st2 = true /\ proofExists "PV-2" st2 = true /\
  cid (proofs_at st2 "PV-1") = "bafy-one" /\
  cid (proofs_at st2 "PV-2") = "bafy-one" /\
  getProofByCid "bafy-one" st2 = inr (newProof env2 "PV-2" 8 "bafy-one" "f05678").
Proof.
  split; [exact reachable_st1 |].
  repeat split; vm_compute; reflexivity.
Qed.

End RegistryFacts.

(** ** The simulated ledger against the contract *)

Section SimulatedFacts.

Import Js Refinement.

Lemma Map_set_fresh {V} (m : list (string * V)) k v :
  Simulated.Map_has m k = false -> Simulated.Map_set m k v = m ++ [(k, v)].
Proof.
  induction m as [| e m IH]; simpl; [done |].
  intros [He Hm]%orb_false_iff. rewrite He. by rewrite IH.
Qed.

Lemma Map_has_app {V} (m1 m2 : list (string * V)) k :
  Simulated.Map_has (m1 ++ m2) k = Simulated.Map_has m1 k || Simulated.Map_has m2 k.
Proof. apply existsb_app. Qed.

(** The outcome of the simulated call, case by case. *)
Lemma sim_registerProof_cases now tx pid h c chain :
  match Simulated.registerProof now tx pid h c chain with
  | inl Simulated.ProofIdExists => Simulated.proofExists pid chain = true
  | inl Simulated.HashRegistered =>
      Simulated.proofExists pid chain = false /\
      Simulated.hash_known chain (toLowerCase h) = true
  | inr (receipt, chain') =>
      Simulated.proofExists pid chain = false /\
      Simulated.hash_known chain (toLowerCase h) = false /\
      Simulated.proofs chain' =
        Simulated.proofs chain ++ [(pid, Simulated.receipt_proof receipt)] /\
      Simulated.receipt_proof receipt =
        Simulated.mkProof pid h c "0xSimulated1234567890abcdef1234567890abcdef"
          (Simulated.timestamp chain) (Simulated.blockNumber chain) /\
      Simulated.blockNumber chain' = (Simulated.blockNumber chain + 1)%Z /\
      Simulated.receipt_blockNumber receipt = Simulated.blockNumber chain /\
      Simulated.receipt_hash receipt = tx
  end.
Proof.
  unfold Simulated.registerProof, Simulated.proofExists.
  destruct (Simulated.Map_has _ pid) eqn:Hid; [done |].
  destruct (Simulated.hash_known _ _) eqn:Hh; [done |].
  simpl. rewrite Map_set_fresh by done. repeat split; lia.
Qed.

Lemma proofExists_registered env pid h c sp st q :
  Registry.block_timestamp env <> 0%N ->
  Registry.proofExists q (Registry.registered env pid h c sp st) =
  String.eqb pid q || Registry.proofExists q st.
Proof.
  intros Hts. unfold Registry.proofExists. rewrite proofs_at_registered.
  case_decide as Hq.
  - subst q. rewrite String.eqb_refl. simpl. apply N.ltb_lt. lia.
  - apply String.eqb_neq in Hq. by rewrite Hq.
Qed.

Lemma hashExists_registered env pid h c sp st k :
  pid <> "" ->
  Registry.hashExists k (Registry.registered env pid h c sp st) =
  (h =? k)%N || Registry.hashExists k st.
Proof.
  intros Hpid. unfold Registry.hashExists. rewrite hashToProofId_at_registered.
  case_decide as Hk.
  - subst k. rewrite N.eqb_refl. simpl. by apply bytes_length_pos.
  - apply N.eqb_neq in Hk. by rewrite Hk.
Qed.

(** A successful registration on both sides keeps the representation. *)
Lemma represents_registered now tx env pid h c sp chain st receipt chain' :
  represents chain st ->
  pid <> "" -> is_hash h = true ->
  Registry.block_timestamp env <> 0%N ->
  Simulated.registerProof now tx pid h c chain = inr (receipt, chain') ->
  represents chain' (Registry.registered env pid (bytes32_of_hex h) c sp st).
Proof.
  intros [Rid Rdig Rh] Hpid Hh Hts Hsim.
  pose proof (sim_registerProof_cases now tx pid h c chain) as Hc.
  rewrite Hsim in Hc. destruct Hc as (_ & _ & Hproofs & Hrec & _).
  split.
  - intros q. rewrite proofExists_registered by done. rewrite <- Rid.
    unfold Simulated.proofExists. rewrite Hproofs, Map_has_app. simpl.
    rewrite orb_false_r. apply orb_comm.
  - rewrite Hproofs. apply Forall_app. split; [done |].
    constructor; [| constructor]. simpl. by rewrite Hrec.
  - intros k Hk. rewrite hashExists_registered by done. rewrite <- Rh by done.
    unfold Simulated.hash_known. rewrite Hproofs, existsb_app. simpl.
    rewrite orb_false_r, Hrec. simpl. rewrite orb_comm. f_equal.
    destruct (N.eqb_spec (bytes32_of_hex h) (bytes32_of_hex k)) as [He | He].
    + apply String.eqb_eq. by apply bytes32_of_hex_eq.
    + apply String.eqb_neq. intros Hl. apply He. by apply bytes32_of_hex_eq.
Qed.

Lemma represents_fresh now deployer :
  represents (Simulated.fresh now) (Registry.initial deployer).
Proof. split; [done | constructor | done]. Qed.

(** *** Uniqueness in the simulation *)

Lemma hash_known_false_notin chain k :
  Simulated.hash_known chain k = false ->
  k ∉ map (fun e => toLowerCase (Simulated.sha256Hash (snd e))) (Simulated.proofs chain).
Proof.
  unfold Simulated.hash_known. induction (Simulated.proofs chain) as [| e m IH]; simpl.
  - intros _. apply not_elem_of_nil.
  - intros [He Hm]%orb_false_iff. apply not_elem_of_cons. split; [| by apply IH].
    apply String.eqb_neq in He. congruence.
Qed.

Lemma Map_has_false_notin {V} (m : list (string * V)) k :
  Simulated.Map_has m k = false -> k ∉ map fst m.
Proof.
  induction m as [| e m IH]; simpl.
  - intros _. apply not_elem_of_nil.
  - intros [He Hm]%orb_false_iff. apply not_elem_of_cons. split; [| by apply IH].
    apply String.eqb_neq in He. congruence.
Qed.

Lemma NoDup_snoc {A} (l : list A) x : NoDup l -> x ∉ l -> NoDup (l ++ [x]).
Proof.
  intros Hl Hx. apply NoDup_app. split; [done |]. split.
  - intros y Hy Hin. apply list_elem_of_singleton in Hin. by subst y.
  - apply NoDup_singleton.
Qed.

Lemma unique_registered now tx pid h c chain receipt chain' :
  unique chain ->
  Simulated.registerProof now tx pid h c chain = inr (receipt, chain') ->
  unique chain'.
Proof.
  intros [Uid Uh] Hsim.
  pose proof (sim_registerProof_cases now tx pid h c chain) as Hc.
  rewrite Hsim in Hc. destruct Hc as (Hid & Hk & Hproofs & Hrec & _).
  split; rewrite Hproofs, map_app; simpl; apply NoDup_snoc; try done.
  - by apply Map_has_false_notin.
  - rewrite Hrec. simpl. by apply hash_known_false_notin.
Qed.

(** One call: from states that represent each other, a well-formed call
    reverts on both sides with the same message or succeeds on both, and
    then the new states represent each other. *)
Lemma simulated_refines_registry_step now tx env pid h c sp chain st :
  represents chain st ->
  pid <> "" -> c <> "" ->
  is_hash h = true -> bytes32_of_hex h <> 0%N ->
  Registry.block_timestamp env <> 0%N ->
  (Registry.totalProofs st < Registry.UINT256_MAX)%N ->
  let r1 := Simulated.registerProof now tx pid h c chain in
  let r2 := Registry.registerProof env pid (bytes32_of_hex h) c sp st in
  agree r1 r2 /\
  (forall receipt chain' st',
      r1 = inr (receipt, chain') -> r2 = inr st' ->
      represents chain' st' /\ (unique chain -> unique chain')).
Proof.
  intros R Hpid Hc Hh Hnz Hts Hlt r1 r2.
  pose proof (sim_registerProof_cases now tx pid h c chain) as Hcases.
  fold r1 in Hcases. destruct R as [Rid Rdig Rh].
  assert (Hguard : forall e,
    Registry.registerProof env pid (bytes32_of_hex h) c sp st = inl e ->
    e = Registry.ProofIdExists /\ Registry.proofExists pid st = true \/
    e = Registry.HashRegistered /\ Registry.proofExists pid st = false /\
      Registry.hashExists (bytes32_of_hex h) st = true).
  { intros e. unfold Registry.registerProof, Registry.bind,
      Registry.proofExists, Registry.hashExists.
    pose proof Hpid as Hpid'. pose proof Hc as Hc'.
    apply bytes_length_pos in Hpid', Hc'. rewrite Hpid', Hc'. simpl.
    pose proof Hnz as Hnz'. apply N.eqb_neq in Hnz'. rewrite Hnz'. simpl.
    destruct (N.eqb_spec (Registry.timestamp (Registry.proofs_at st pid)) 0)
      as [E | E]; simpl.
    - rewrite E.
      destruct (N.eqb_spec
        (Registry.bytes_length (Registry.hashToProofId_at st (bytes32_of_hex h))) 0)
        as [E' | E']; simpl.
      + unfold Registry.incr. apply N.ltb_lt in Hlt. rewrite Hlt. discriminate.
      + intros [= <-]. right. repeat split. apply N.ltb_lt. lia.
    - intros [= <-]. left. split; [done |]. apply N.ltb_lt. lia. }
  split.
  - unfold agree. fold r2 in Hguard.
    destruct r1 as [[] | [receipt chain']], r2 as [e2 | st'] eqn:E2.
    + destruct (Hguard e2 eq_refl) as [[-> _] | (-> & Hex & _)]; [done |].
      rewrite Rid in Hcases. congruence.
    + apply registerProof_inr in E2 as (_ & _ & _ & Hfree & _).
      rewrite Rid in Hcases. unfold Registry.proofExists in Hcases.
      rewrite Hfree in Hcases. done.
    + destruct (Hguard e2 eq_refl) as [[-> Hex] | (-> & _)]; [| done].
      destruct Hcases as [Hno _]. rewrite Rid in Hno. congruence.
    + apply registerProof_inr in E2 as (_ & _ & _ & _ & Hfree & _).
      destruct Hcases as [_ Hk]. rewrite Rh in Hk by done.
      unfold Registry.hashExists in Hk. rewrite Hfree in Hk. done.
    + destruct Hcases as (Hno & Hk & _). rewrite Rid in Hno.
      rewrite Rh in Hk by done.
      destruct (Hguard e2 eq_refl) as [[_ Hex] | (_ & _ & Hex)]; congruence.
    + done.
  - intros receipt chain' st' H1 H2.
    apply registerProof_inr in H2 as (_ & _ & _ & _ & _ & _ & ->).
    split.
    + by apply (represents_registered now tx env pid h c sp chain st receipt).
    + intros U. by apply (unique_registered now tx pid h c chain receipt).
Qed.

(** C3, as the code has it. From a chain that represents the contract
    state, along any sequence of calls whose identifier and locator are not
    empty and whose digest is a non-zero hexadecimal digest (the counter of
    the contract staying in range), the simulation and the contract fail on
    the same calls, with the same messages ("Proof ID already exists", else
    "Hash already registered"), and succeed on the same calls; at the end
    the chain still represents the contract state, and a chain with one
    entry per identifier and per lower-cased digest is still such a chain. *)
Theorem simulated_refines_registry calls : forall chain st,
  represents chain st ->
  Forall well_formed calls ->
  (Registry.totalProofs st + N.of_nat (length calls) <= Registry.UINT256_MAX)%N ->
  fst (run_simulated calls chain) = fst (run_registry calls st) /\
  represents (snd (run_simulated calls chain)) (snd (run_registry calls st)) /\
  (unique chain -> unique (snd (run_simulated calls chain))).
Proof.
  induction calls as [| r calls IH]; intros chain st R Hwf Hroom; [done |].
  apply Forall_cons in Hwf as [(Hpid & Hc & Hh & Hnz & Hts) Hwf].
  rewrite length_cons, Nat2N.inj_succ in Hroom.
  destruct (simulated_refines_registry_step (reg_now r) (reg_tx r) (reg_env r)
              (reg_proofId r) (reg_hash r) (reg_cid r) (reg_provider r) chain st)
    as [Hagree Hnext]; try done; [lia |].
  cbn [run_simulated run_registry].
  destruct (Simulated.registerProof _ _ _ _ _ chain) as [e1 | [receipt chain']];
    destruct (Registry.registerProof _ _ _ _ _ st) as [e2 | st'] eqn:E2;
    simpl in Hagree; try done.
  - destruct (IH chain st R Hwf) as (Hout & Hrep & Huniq); [lia |].
    destruct (run_simulated calls chain), (run_registry calls st).
    simpl in *. by rewrite Hagree, Hout.
  - destruct (Hnext receipt chain' st' eq_refl eq_refl) as [R' U'].
    apply registerProof_inr in E2 as (_ & _ & _ & _ & _ & _ & ->).
    destruct (IH chain' _ R' Hwf) as (Hout & Hrep & Huniq);
      [unfold Registry.registered, Registry.store; simpl; lia |].
    destruct (run_simulated calls chain'), (run_registry calls _).
    simpl in *. rewrite Hout. split; [done |]. split; [done |].
    intros U. auto.
Qed.

Lemma simulated_refines_registry_witness :
  fst (run_simulated sample_calls (Simulated.fresh 1700000000000)) =
    [None; Some "Proof ID already exists"; Some "Hash already registered"; None] /\
  fst (run_registry sample_calls (Registry.initial Registry.alice)) =
    [None; Some "Proof ID already exists"; Some "Hash already registered"; None].
Proof.
  assert (H : fst (run_simulated sample_calls (Simulated.fresh 1700000000000)) =
              [None; Some "Proof ID already exists";
               Some "Hash already registered"; None])
    by (vm_compute; reflexivity).
  split; [exact H |]. rewrite <- H. symmetry.
  apply (simulated_refines_registry sample_calls
           (Simulated.fresh 1700000000000) (Registry.initial Registry.alice)).
  - apply represents_fresh.
  - repeat constructor; try discriminate; vm_compute; (reflexivity || discriminate).
  - vm_compute. discriminate.
Defined.

(** C3 does not hold for the input checks: the contract rejects an empty
    identifier, an empty locator and the zero hash, and the simulation
    accepts each of them, from states that represent each other. *)
Lemma simulated_accepts_invalid_inputs :
  represents (Simulated.fresh 0) (Registry.initial Registry.alice) /\
  (Registry.registerProof Registry.env1 "" (bytes32_of_hex Simulated.digest_a)
     "bafy-one" "f01234" (Registry.initial Registry.alice)
     = inl Registry.InvalidProofId /\
   is_inr (Simulated.registerProof 0 "0xabc" "" Simulated.digest_a "bafy-one"
             (Simulated.fresh 0)) = true) /\
  (Registry.registerProof Registry.env1 "PV-1" (bytes32_of_hex Simulated.digest_a)
     "" "f01234" (Registry.initial Registry.alice)
     = inl Registry.InvalidCID /\
   is_inr (Simulated.registerProof 0 "0xabc" "PV-1" Simulated.digest_a ""
             (Simulated.fresh 0)) = true) /\
  (Registry.registerProof Registry.env1 "PV-1" (bytes32_of_hex Simulated.digest_zero)
     "bafy-one" "f01234" (Registry.initial Registry.alice)
     = inl Registry.InvalidHash /\
   is_inr (Simulated.registerProof 0 "0xabc" "PV-1" Simulated.digest_zero "bafy-one"
             (Simulated.fresh 0)) = true) /\
  ~ agree (Simulated.registerProof 0 "0xabc" "" Simulated.digest_a "bafy-one"
             (Simulated.fresh 0))
          (Registry.registerProof Registry.env1 "" (bytes32_of_hex Simulated.digest_a)
             "bafy-one" "f01234" (Registry.initial Registry.alice)).
Proof.
  split; [apply represents_fresh |].
  repeat split; try (vm_compute; reflexivity).
  vm_compute. tauto.
Qed.

End SimulatedFacts.

(** ** Gateway ranking *)

Section GatewayFacts.

Import Gateways.
Local Open Scope Z_scope.

(** *** The sort, for any comparison that orders consistently *)

Section Sorting.

Variable cmp : Ranked -> Ranked -> Z.

Let le (a b : Ranked) : Prop := cmp a b <= 0.

Hypothesis cmp_total : forall a b, ~ le a b -> le b a.
Hypothesis cmp_trans : forall a b c, le a b -> le b c -> le a c.

Lemma insert_perm x l : insert cmp x l ≡ₚ x :: l.
Proof.
  induction l as [| y l IH]; simpl; [done |].
  destruct (cmp x y <=? 0); [done |].
  rewrite IH. apply Permutation_swap.
Qed.

Lemma sort_perm l : sort cmp l ≡ₚ l.
Proof.
  induction l as [| x l IH]; simpl; [done |].
  rewrite insert_perm. by rewrite IH.
Qed.

Lemma insert_sorted x l :
  StronglySorted le l -> StronglySorted le (insert cmp x l).
Proof.
  induction 1 as [| y l Hs IH Hall]; simpl.
  - repeat constructor.
  - destruct (Z.leb_spec (cmp x y) 0) as [Hle | Hgt].
    + constructor; [by constructor |].
      constructor; [done |].
      eapply Forall_impl; [exact Hall |]. intros z Hz.
      by apply (cmp_trans x y z).
    + constructor; [done |].
      rewrite insert_perm. constructor; [| done].
      apply cmp_total. unfold le. lia.
Qed.

Lemma sort_sorted l : StronglySorted le (sort cmp l).
Proof.
  induction l as [| x l IH]; simpl; [constructor | by apply insert_sorted].
Qed.

End Sorting.

Lemma before_total a b : ~ before a b -> before b a.
Proof.
  unfold before, compare.
  destruct (healthy (health a)), (healthy (health b)); simpl; lia.
Qed.

Lemma before_trans a b c : before a b -> before b c -> before a c.
Proof.
  unfold before, compare.
  destruct (healthy (health a)), (healthy (health b)), (healthy (health c));
    simpl; lia.
Qed.

Lemma ranking_sorted l : StronglySorted before (sort compare l).
Proof. apply (sort_sorted compare before_total before_trans). Qed.

Lemma StronglySorted_lookup_lt {A} (R : A -> A -> Prop) (l : list A) :
  StronglySorted R l ->
  forall i j a b, (i < j)%nat -> l !! i = Some a -> l !! j = Some b -> R a b.
Proof.
  induction 1 as [| x l Hs IH Hall]; intros i j a b Hij Hi Hj.
  - by rewrite lookup_nil in Hi.
  - destruct j as [| j]; [lia |]. simpl in Hj.
    destruct i as [| i]; simpl in Hi.
    + injection Hi as <-. rewrite Forall_forall in Hall.
      apply Hall. by apply list_elem_of_lookup_2 in Hj.
    + apply (IH i j); [lia | done | done].
Qed.

(** What holds of the ranking for every assignment of health results: all
    configured gateways are there; a healthy gateway never comes after an
    unhealthy one; healthy gateways are ordered by [latency || 9999];
    unhealthy ones by their configured priority. *)
Lemma getGatewaysWithHealth_ranked check :
  let ranked := getGatewaysWithHealth check in
  ranked ≡ₚ map (fun g => mkRanked g (check g)) GATEWAYS /\
  forall i j a b,
    (i < j)%nat -> ranked !! i = Some a -> ranked !! j = Some b ->
    (healthy (health b) = true -> healthy (health a) = true) /\
    (healthy (health a) = true -> healthy (health b) = true ->
     latency_or_9999 (health a) <= latency_or_9999 (health b)) /\
    (healthy (health a) = false -> healthy (health b) = false ->
     priority (gateway a) <= priority (gateway b)).
Proof.
  intros ranked. split; [apply sort_perm |].
  intros i j a b Hij Hi Hj.
  assert (Hab : before a b).
  { apply (StronglySorted_lookup_lt before ranked (ranking_sorted _) i j); done. }
  unfold before, compare in Hab.
  destruct (healthy (health a)), (healthy (health b)); simpl in Hab;
    repeat split; intros; try done; lia.
Qed.

(** A healthy gateway measured at 50 ms stands before one at 200 ms. *)
Lemma getGatewaysWithHealth_50_before_200 check i j a b :
  let ranked := getGatewaysWithHealth check in
  ranked !! i = Some a -> ranked !! j = Some b ->
  health a = up 50 -> health b = up 200 -> (i < j)%nat.
Proof.
  intros ranked Hi Hj Ha Hb.
  destruct (Nat.lt_trichotomy i j) as [Hlt | [Heq | Hgt]]; [done | |].
  - subst j. rewrite Hi in Hj. injection Hj as <-. rewrite Ha in Hb. discriminate.
  - destruct (getGatewaysWithHealth_ranked check) as [_ H].
    destruct (H j i b a Hgt Hj Hi) as (_ & Hlat & _).
    rewrite Ha, Hb in Hlat. specialize (Hlat eq_refl eq_refl).
    vm_compute in Hlat. done.
Qed.

(** C7 fails on a latency of zero. With the first gateway healthy at 0 ms,
    the second healthy at 200 ms and the others down, the ranking puts the
    200 ms gateway first: the healthy gateways come out with latencies
    200, 0, which is not a nondecreasing order. *)
Theorem getGatewaysWithHealth_zero_latency :
  map (fun r => id (gateway r)) (getGatewaysWithHealth check_instant) =
    ["dweb"; "w3s"; "ipfs-io"; "cloudflare"; "pinata"; "nftstorage"] /\
  map (fun r => latency_ms (health r))
      (filter (fun r => healthy (health r) = true)
              (getGatewaysWithHealth check_instant)) = [200; 0] /\
  ~ StronglySorted Z.le
      (map (fun r => latency_ms (health r))
         (filter (fun r => healthy (health r) = true)
                 (getGatewaysWithHealth check_instant))).
Proof.
  split; [vm_compute; reflexivity |].
  split; [vm_compute; reflexivity |].
  intros Hs.
  assert (E : map (fun r => latency_ms (health r))
                (filter (fun r => healthy (health r) = true)
                        (getGatewaysWithHealth check_instant)) = [200; 0])
    by (vm_compute; reflexivity).
  rewrite E in Hs. inversion Hs as [| x l _ Hall]; subst.
  inversion Hall as [| y l' Hle _]; subst. lia.
Qed.

(** ** Failover retrieval *)

#[local] Arguments target_of : simpl never.

Lemma warnings_cons_fetch t effects :
  warnings (Fetch t :: effects) = warnings effects.
Proof. done. Qed.

Lemma warnings_cons_warn n e effects :
  warnings (Warn n e :: effects) = Warn n e :: warnings effects.
Proof. done. Qed.

Lemma rejections_cons fetch c g gs :
  rejections fetch c (g :: gs) =
  match fetch (target_of c g) with
  | Rejected err => Warn (name (gateway g)) err :: rejections fetch c gs
  | Responded _ _ => rejections fetch c gs
  end.
Proof. unfold rejections. simpl. by destruct (fetch (target_of c g)). Qed.

Lemma last_rejection_cons fetch c g gs lastError :
  last_rejection fetch c (g :: gs) lastError =
  last_rejection fetch c gs
    match fetch (target_of c g) with
    | Rejected err => Some err
    | Responded _ _ => lastError
    end.
Proof. done. Qed.

(** The loop, characterised: it returns at the first gateway that answers
    with a success status, having requested the gateways before it in
    order, and it throws after having requested them all. *)
Lemma try_gateways_spec fetch c gs : forall lastError,
  match try_gateways fetch c gs lastError with
  | (Return ret, effects) =>
      exists pre g post,
        gs = pre ++ g :: post /\
        Forall (fails fetch c) pre /\
        fetch (target_of c g) = Responded true (response ret) /\
        retrieved_gateway ret = name (gateway g) /\
        retrieved_url ret = target_of c g /\
        requests effects = map (target_of c) (pre ++ [g]) /\
        warnings effects = rejections fetch c pre
  | (Throw err, effects) =>
      Forall (fails fetch c) gs /\
      requests effects = map (target_of c) gs /\
      warnings effects = rejections fetch c gs /\
      err = default "All gateways failed" (last_rejection fetch c gs lastError)
  end.
Proof.
  induction gs as [| g gs IH]; intros lastError.
  - simpl. repeat split. constructor.
  - cbn [try_gateways]. fold (target_of c g).
    rewrite rejections_cons, last_rejection_cons.
    destruct (fetch (target_of c g)) as [[] body | err] eqn:E.
    + exists [], g, gs. simpl. repeat split; done.
    + specialize (IH lastError).
      destruct (try_gateways fetch c gs lastError) as [[ret | e] effects].
      * destruct IH as (pre & g' & post & -> & Hpre & Hok & Hn & Hu & Hreq & Hw).
        exists (g :: pre), g', post.
        rewrite warnings_cons_fetch, rejections_cons, E.
        repeat split; try done.
        -- constructor; [| done]. intros b. rewrite E. discriminate.
        -- simpl. by rewrite Hreq.
      * destruct IH as (Hall & Hreq & Hw & ->).
        rewrite warnings_cons_fetch.
        repeat split; try done.
        -- constructor; [| done]. intros b. rewrite E. discriminate.
        -- simpl. by rewrite Hreq.
    + specialize (IH (Some err)).
      destruct (try_gateways fetch c gs (Some err)) as [[ret | e] effects].
      * destruct IH as (pre & g' & post & -> & Hpre & Hok & Hn & Hu & Hreq & Hw).
        exists (g :: pre), g', post.
        rewrite warnings_cons_fetch, warnings_cons_warn, rejections_cons, E.
        repeat split; try done.
        -- constructor; [| done]. intros b. rewrite E. discriminate.
        -- simpl. by rewrite Hreq.
        -- by rewrite Hw.
      * destruct IH as (Hall & Hreq & Hw & ->).
        rewrite warnings_cons_fetch, warnings_cons_warn.
        repeat split; try done.
        -- constructor; [| done]. intros b. rewrite E. discriminate.
        -- simpl. by rewrite Hreq.
        -- by rewrite Hw.
Qed.

Lemma gatewaysToTry_sublist gs : gatewaysToTry gs `sublist_of` gs.
Proof.
  unfold gatewaysToTry. destruct (0 <? _).
  - apply sublist_filter.
  - apply sublist_take.
Qed.

(** C4, as the code has it. The candidates are the ranked gateways that are
    healthy, or the first three when none is, in ranked order, and they are
    requested in that order. The function returns at the first success
    status, with that gateway's response, name and address; a rejected
    request (network failure or timeout) is remembered and logged as a
    warning before the next request, a response with an error status is
    passed over; after three candidates of which the first two reject and
    the third succeeds, the third's response is returned after exactly two
    warnings; and when no candidate succeeds the function throws the last
    rejection itself, or "All gateways failed" when no request rejected. *)
Theorem fetchWithFailover_trace check fetch c :
  let tries := gatewaysToTry (getGatewaysWithHealth check) in
  tries `sublist_of` getGatewaysWithHealth check /\
  match fetchWithFailover check fetch c with
  | (Return ret, effects) =>
      exists pre g post,
        tries = pre ++ g :: post /\
        Forall (fails fetch c) pre /\
        fetch (target_of c g) = Responded true (response ret) /\
        retrieved_gateway ret = name (gateway g) /\
        retrieved_url ret = target_of c g /\
        requests effects = map (target_of c) (pre ++ [g]) /\
        warnings effects = rejections fetch c pre
  | (Throw err, effects) =>
      Forall (fails fetch c) tries /\
      requests effects = map (target_of c) tries /\
      warnings effects = rejections fetch c tries /\
      err = default "All gateways failed" (last_rejection fetch c tries None)
  end /\
  (forall g1 g2 g3 e1 e2 body,
      tries = [g1; g2; g3] ->
      fetch (target_of c g1) = Rejected e1 ->
      fetch (target_of c g2) = Rejected e2 ->
      fetch (target_of c g3) = Responded true body ->
      fetchWithFailover check fetch c =
        (Return (mkRetrieved body (name (gateway g3)) (target_of c g3)),
         [Fetch (target_of c g1); Warn (name (gateway g1)) e1;
          Fetch (target_of c g2); Warn (name (gateway g2)) e2;
          Fetch (target_of c g3)])).
Proof.
  intros tries. split; [apply gatewaysToTry_sublist |]. split.
  - apply (try_gateways_spec fetch c tries None).
  - intros g1 g2 g3 e1 e2 body Htries H1 H2 H3.
    unfold fetchWithFailover. fold tries. rewrite Htries.
    cbn [try_gateways]. fold (target_of c g1) (target_of c g2) (target_of c g3).
    by rewrite H1, H2, H3.
Qed.

(** Three healthy gateways of which the first two reject. *)
Lemma fetchWithFailover_third_after_rejections :
  fetchWithFailover check_three fetch_third_after_rejections "bafy-one" =
    (Return (mkRetrieved "payload" "IPFS.io" "https://ipfs.io/ipfs/bafy-one"),
     [Fetch "https://w3s.link/ipfs/bafy-one"; Warn "Web3.Storage" "Failed to fetch";
      Fetch "https://dweb.link/ipfs/bafy-one"; Warn "Dweb.link" "Failed to fetch";
      Fetch "https://ipfs.io/ipfs/bafy-one"]).
Proof. vm_compute. reflexivity. Qed.

(** C4 does not hold as stated. When the first two of three gateways answer
    with an error status, the third's response is returned and nothing was
    recorded of the two failed attempts; when every request rejects, what
    is thrown is the last rejection, not an "all gateways failed" error;
    and when every gateway answers with an error status, "All gateways
    failed" is thrown with no underlying error. *)
Lemma fetchWithFailover_unrecorded_failures :
  (fetchWithFailover check_three fetch_third_only "bafy-one" =
     (Return (mkRetrieved "payload" "IPFS.io" "https://ipfs.io/ipfs/bafy-one"),
      [Fetch "https://w3s.link/ipfs/bafy-one";
       Fetch "https://dweb.link/ipfs/bafy-one";
       Fetch "https://ipfs.io/ipfs/bafy-one"]) /\
   length (warnings (snd (fetchWithFailover check_three fetch_third_only "bafy-one")))
     <> 2%nat) /\
  (fst (fetchWithFailover check_three fetch_all_reject "bafy-one") =
     Throw "no route to https://ipfs.io/ipfs/bafy-one" /\
   fst (fetchWithFailover check_three fetch_all_reject "bafy-one") <>
     Throw "All gateways failed") /\
  (fst (fetchWithFailover check_three fetch_all_unavailable "bafy-one") =
     Throw "All gateways failed" /\
   warnings (snd (fetchWithFailover check_three fetch_all_unavailable "bafy-one")) = []).
Proof.
  repeat split; try (vm_compute; reflexivity); vm_compute; discriminate.
Qed.

End GatewayFacts.

(** ** Deal tracking *)

Section DealFacts.

Import Deals.
Local Open Scope Z_scope.

(** The count the function takes is the number of active deals. *)
Lemma activeCount_active_deals info :
  activeCount info = active_deals (deals info).
Proof.
  unfold activeCount. induction (deals info) as [| d l IH]; [done |].
  rewrite filter_cons. cbn [active_deals].
  destruct (status d) eqn:E; case_decide; try done.
  cbn [length]. lia.
Qed.

Lemma active_deals_nonneg l : 0 <= active_deals l.
Proof.
  induction l as [| d l IH]; simpl; [done |]. destruct (status d); lia.
Qed.

Lemma produced_simulateDealInfo now c : produced (simulateDealInfo now c).
Proof.
  unfold produced, simulateDealInfo.
  by destruct (negb (negb (char_sum c mod 3 =? 0))).
Qed.

Lemma produced_parseW3SResponse data : produced (parseW3SResponse data).
Proof.
  unfold produced, parseW3SResponse. cbn [info_status deals].
  destruct (existsb _ _); [done |]. destruct (existsb _ _); [done |].
  by destruct (0 <? _).
Qed.

(** C6. The health score is a function of the number of active deals among
    the deals of the summary and of its status alone. For every summary:
    0 "No Data" when the status is not_found (or the summary is missing),
    and otherwise 100 "Excellent" from three active deals on, 80 "Good"
    with two, 60 "Fair" with one, 40 "Pending" with none and a pending
    status, 20 "At Risk" in every other case. On the summaries that are
    produced, where not_found comes with no deal, as it does in all that
    [fetchDealFromW3S] returns, the scores 100, 80 and 60 follow from the
    number of active deals whatever the status. *)
Theorem getDealHealthScore_table info :
  let r := getDealHealthScore (Some info) in
  let n := active_deals (deals info) in
  0 <= n /\
  getDealHealthScore None = mkHealthScore 0 "No Data" "gray" /\
  (info_status info = NOT_FOUND -> r = mkHealthScore 0 "No Data" "gray") /\
  (info_status info <> NOT_FOUND ->
     (3 <= n -> r = mkHealthScore 100 "Excellent" "green") /\
     (n = 2 -> r = mkHealthScore 80 "Good" "green") /\
     (n = 1 -> r = mkHealthScore 60 "Fair" "yellow") /\
     (n = 0 -> info_status info = PENDING -> r = mkHealthScore 40 "Pending" "yellow") /\
     (n = 0 -> info_status info <> PENDING -> r = mkHealthScore 20 "At Risk" "red")) /\
  (produced info ->
     (3 <= n -> r = mkHealthScore 100 "Excellent" "green") /\
     (n = 2 -> r = mkHealthScore 80 "Good" "green") /\
     (n = 1 -> r = mkHealthScore 60 "Fair" "yellow") /\
     (n = 0 -> info_status info = PENDING -> r = mkHealthScore 40 "Pending" "yellow") /\
     (n = 0 -> info_status info <> PENDING -> info_status info <> NOT_FOUND ->
        r = mkHealthScore 20 "At Risk" "red")) /\
  (forall now reply c, produced (fetchDealFromW3S now reply c)) /\
  (forall info',
     active_deals (deals info') = n -> info_status info' = info_status info ->
     getDealHealthScore (Some info') = r).
Proof.
  intros r n.
  assert (Hn : 0 <= n) by apply active_deals_nonneg.
  assert (Htable : info_status info <> NOT_FOUND ->
     (3 <= n -> r = mkHealthScore 100 "Excellent" "green") /\
     (n = 2 -> r = mkHealthScore 80 "Good" "green") /\
     (n = 1 -> r = mkHealthScore 60 "Fair" "yellow") /\
     (n = 0 -> info_status info = PENDING -> r = mkHealthScore 40 "Pending" "yellow") /\
     (n = 0 -> info_status info <> PENDING -> r = mkHealthScore 20 "At Risk" "red")).
  { intros Hnf. unfold r, getDealHealthScore.
    rewrite bool_decide_eq_false_2 by done.
    rewrite activeCount_active_deals. fold n.
    split; [| split; [| split; [| split]]].
    - intros H3. apply Z.leb_le in H3. by rewrite H3.
    - intros ->. done.
    - intros ->. done.
    - intros -> Hp. simpl. by rewrite bool_decide_eq_true_2.
    - intros -> Hp. simpl. by rewrite bool_decide_eq_false_2. }
  split; [done |]. split; [done |]. split.
  { intros Hs. unfold r, getDealHealthScore. by rewrite bool_decide_eq_true_2. }
  split; [done |]. split.
  { intros Hproduced.
    assert (Hdeals : 0 < n -> info_status info <> NOT_FOUND).
    { intros Hpos Hs. unfold n in Hpos. rewrite (Hproduced Hs) in Hpos.
      simpl in Hpos. lia. }
    split; [intros H; apply Htable; [apply Hdeals |]; lia |].
    split; [intros H; apply Htable; [apply Hdeals |]; lia |].
    split; [intros H; apply Htable; [apply Hdeals |]; lia |].
    split.
    - intros H0 Hp. apply Htable; [congruence | done | done].
    - intros H0 Hp Hnf. by apply Htable. }
  split.
  { intros now reply c. unfold fetchDealFromW3S.
    destruct reply as [data | code |].
    - apply produced_parseW3SResponse.
    - destruct (code =? 404); [done | apply produced_simulateDealInfo].
    - apply produced_simulateDealInfo. }
  intros info' Hn' Hs. unfold r, getDealHealthScore.
  by rewrite !activeCount_active_deals, Hn', Hs.
Qed.

(** Three active deals score 100, under whatever status that is produced
    with deals. *)
Lemma getDealHealthScore_table_witness :
  getDealHealthScore (Some three_active) = mkHealthScore 100 "Excellent" "green".
Proof.
  destruct (getDealHealthScore_table three_active) as (_ & _ & _ & _ & H & _).
  apply H.
  - intros Hs. discriminate Hs.
  - vm_compute. discriminate.
Defined.

(** *** The cache *)

Lemma getDealInfo_hit call c cache entry :
  c <> "" ->
  cache !! c = Some entry ->
  at_lookup call - timestamp entry < DEAL_CACHE_TTL ->
  getDealInfo call c cache = (data entry, cache, 0%nat).
Proof.
  intros Hc He Hfresh. unfold getDealInfo, getCachedDeal.
  apply String.eqb_neq in Hc. rewrite Hc, He.
  apply Z.ltb_lt in Hfresh. by rewrite Hfresh.
Qed.

Lemma getDealInfo_miss call c cache :
  c <> "" ->
  getCachedDeal (at_lookup call) c cache = None ->
  getDealInfo call c cache =
    (fetchDealFromW3S (at_fallback call) (reply call) c,
     cacheDeal (at_store call) (writable call) c
       (fetchDealFromW3S (at_fallback call) (reply call) c) cache,
     1%nat).
Proof.
  intros Hc Hmiss. unfold getDealInfo.
  apply String.eqb_neq in Hc. by rewrite Hc, Hmiss.
Qed.

Lemma getCachedDeal_expired now c cache entry :
  cache !! c = Some entry ->
  DEAL_CACHE_TTL <= now - timestamp entry ->
  getCachedDeal now c cache = None.
Proof.
  intros He Hold. unfold getCachedDeal. rewrite He.
  apply Z.ltb_ge in Hold. by rewrite Hold.
Qed.

Lemma assign_own c entry (cache : gmap string Entry) :
  c <> proto -> assign c entry cache = <[c := entry]> cache.
Proof.
  intros Hc. unfold assign. apply String.eqb_neq in Hc.
  unfold proto in Hc. by rewrite Hc.
Qed.

Lemma cacheDeal_lookup_self now c d cache :
  c <> proto ->
  cacheDeal now true c d cache !! c = Some (mkEntry d now).
Proof.
  intros Hc. unfold cacheDeal. rewrite assign_own by done. apply lookup_insert_eq.
Qed.

(** The other entries after a write: those older than twice the lifetime
    are gone, the others are as they were. *)
Lemma cacheDeal_lookup_other now c d (cache : gmap string Entry) k :
  k <> c ->
  cacheDeal now true c d cache !! k =
  match cache !! k with
  | Some entry =>
      if DEAL_CACHE_TTL * 2 <? now - timestamp entry then None else Some entry
  | None => None
  end.
Proof.
  intros Hk. unfold cacheDeal.
  assert (Hassign : forall entry (cleaned : gmap string Entry),
            assign c entry cleaned !! k = cleaned !! k).
  { intros entry cleaned. unfold assign.
    destruct (String.eqb c "__proto__" && _); [done |].
    by rewrite lookup_insert_ne. }
  rewrite Hassign.
  rewrite map_lookup_filter. destruct (cache !! k) as [entry |]; simpl; [| done].
  destruct (Z.ltb_spec (DEAL_CACHE_TTL * 2) (now - timestamp entry)) as [Hold | Hnew];
    case_guard as Hg; simpl in Hg; try done; lia.
Qed.

(** What a write under the prototype's name leaves: no entry. *)
Lemma cacheDeal_lookup_proto now d (cache : gmap string Entry) :
  cache !! proto = None -> cacheDeal now true proto d cache !! proto = None.
Proof.
  intros Hnone. unfold cacheDeal, assign, proto.
  set (cleaned := filter _ cache).
  assert (Hcleaned : cleaned !! "__proto__" = None).
  { unfold cleaned. rewrite map_lookup_filter. unfold proto in Hnone.
    by rewrite Hnone. }
  by rewrite bool_decide_eq_true_2.
Qed.

(** C8, as the code has it. The lifetime of an entry runs from the write
    that stored it. A call that finds no fresh entry sends one request and,
    the store being writable, drops every other entry older than twice the
    lifetime and keeps the rest. For every locator but "__proto__" it
    stores the result with the time of the write; a later call whose
    lookup falls less than five minutes after that write returns the
    stored result, sends no request and leaves the cache as it is; a call
    whose lookup falls five minutes or more after the write sends a new
    request. The locator "__proto__" names the prototype of the cache
    object, not an entry: nothing is stored for it, and every call for it
    sends a request. *)
Theorem getDealInfo_cached call1 call2 c (cache : gmap string Entry) :
  c <> "" ->
  getCachedDeal (at_lookup call1) c cache = None ->
  writable call1 = true ->
  let '(r1, cache1, q1) := getDealInfo call1 c cache in
  q1 = 1%nat /\
  (forall k entry, k <> c -> cache !! k = Some entry ->
     cache1 !! k =
       if DEAL_CACHE_TTL * 2 <? at_store call1 - timestamp entry
       then None else Some entry) /\
  (c <> proto ->
     cache1 !! c = Some (mkEntry r1 (at_store call1)) /\
     (at_lookup call2 - at_store call1 < DEAL_CACHE_TTL ->
        getDealInfo call2 c cache1 = (r1, cache1, 0%nat)) /\
     (DEAL_CACHE_TTL <= at_lookup call2 - at_store call1 ->
        snd (getDealInfo call2 c cache1) = 1%nat)) /\
  (c = proto -> cache !! proto = None ->
     cache1 !! proto = None /\
     snd (getDealInfo call2 c cache1) = 1%nat).
Proof.
  intros Hc Hmiss Hw. rewrite (getDealInfo_miss call1 c cache Hc Hmiss), Hw.
  set (r1 := fetchDealFromW3S _ _ _).
  set (cache1 := cacheDeal _ _ _ _ _).
  split; [done |]. split; [| split].
  - intros k entry Hk He. unfold cache1.
    rewrite cacheDeal_lookup_other by done. by rewrite He.
  - intros Hown.
    assert (Hself : cache1 !! c = Some (mkEntry r1 (at_store call1)))
      by (by apply cacheDeal_lookup_self).
    split; [done |]. split.
    + intros Hfresh.
      by rewrite (getDealInfo_hit call2 c cache1 _ Hc Hself Hfresh).
    + intros Hold. rewrite getDealInfo_miss; [done | done |].
      by apply (getCachedDeal_expired _ _ _ _ Hself).
  - intros -> Hnone.
    assert (Hstill : cache1 !! proto = None)
      by (by apply cacheDeal_lookup_proto).
    split; [done |].
    rewrite getDealInfo_miss; [done | done |].
    unfold getCachedDeal. by rewrite Hstill.
Qed.

Lemma getDealInfo_cached_witness :
  getDealInfo call_B "bafy-one" (snd (fst (getDealInfo call_A "bafy-one" ∅))) =
    (fst (fst (getDealInfo call_A "bafy-one" ∅)),
     snd (fst (getDealInfo call_A "bafy-one" ∅)), 0%nat).
Proof.
  pose proof (getDealInfo_cached call_A call_B "bafy-one" ∅) as H.
  destruct (getDealInfo call_A "bafy-one" ∅) as [[r1 cache1] q1].
  simpl. apply H.
  - discriminate.
  - reflexivity.
  - reflexivity.
  - discriminate.
  - vm_compute. reflexivity.
Defined.

(** C8 does not hold for every two calls less than five minutes apart. A
    first call at time 0 stores what it fetched; a call at four minutes
    returns it; a call at six minutes, two minutes after the previous one,
    finds the entry expired, asks again and returns another result. *)
Lemma getDealInfo_fixed_lifetime :
  let '(rA, cacheA, qA) := getDealInfo call_A "bafy-one" ∅ in
  let '(rB, cacheB, qB) := getDealInfo call_B "bafy-one" cacheA in
  let '(rC, cacheC, qC) := getDealInfo call_C "bafy-one" cacheB in
  at_lookup call_C - at_lookup call_B < DEAL_CACHE_TTL /\
  qB = 0%nat /\ qC = 1%nat /\
  info_status rB = PENDING /\ info_status rC = ACTIVE /\
  rB <> rC.
Proof.
  vm_compute. repeat split; try reflexivity; discriminate.
Qed.

(** *** The fallback simulation *)

Lemma simulateDealInfo_shift now1 now2 c :
  simulateDealInfo now2 c = shift (now2 - now1) (simulateDealInfo now1 c).
Proof.
  unfold simulateDealInfo.
  destruct (negb (negb (char_sum c mod 3 =? 0))); [done |].
  unfold shift. simpl. f_equal.
  change (map (shift_deal (now2 - now1))) with (fmap (M:=list) (shift_deal (now2 - now1))).
  rewrite fmap_imap. apply imap_ext. intros i x _.
  unfold shift_deal. simpl. f_equal; lia.
Qed.

(** C9, as the code has it. When the request fails other than with
    not-found, a call that finds no fresh entry returns the simulation of
    the locator at the time of the fallback. The simulation at any other
    time is the same but for the instants, which move with the clock: same
    status, same providers, same deal identifiers and piece locators, and
    every activation, expiration and creation instant displaced by the
    time elapsed, so that each window keeps its length. *)
Theorem getDealInfo_fallback call c (cache : gmap string Entry) :
  c <> "" ->
  getCachedDeal (at_lookup call) c cache = None ->
  failed (reply call) ->
  let result := fst (fst (getDealInfo call c cache)) in
  result = simulateDealInfo (at_fallback call) c /\
  forall now,
    let later := simulateDealInfo now c in
    later = shift (now - at_fallback call) result /\
    info_status later = info_status result /\
    map provider (deals later) = map provider (deals result) /\
    map dealId (deals later) = map dealId (deals result) /\
    map pieceCid (deals later) = map pieceCid (deals result) /\
    map (fun d => expiration d - activation d) (deals later) =
      map (fun d => expiration d - activation d) (deals result).
Proof.
  intros Hc Hmiss Hfail result.
  assert (Hres : result = simulateDealInfo (at_fallback call) c).
  { unfold result. rewrite getDealInfo_miss by done. simpl.
    unfold fetchDealFromW3S. destruct (reply call) as [d | code |]; simpl in *.
    - done.
    - apply Z.eqb_neq in Hfail. by rewrite Hfail.
    - done. }
  split; [done |]. intros now later.
  assert (Hshift : later = shift (now - at_fallback call) result).
  { unfold later. rewrite Hres. apply simulateDealInfo_shift. }
  split; [done |]. rewrite Hshift. unfold shift. simpl.
  rewrite !map_map. simpl. repeat split.
  apply map_ext. intros d. lia.
Qed.

Lemma getDealInfo_fallback_witness :
  fst (fst (getDealInfo call_offline_1 "bafy-one" ∅)) = simulateDealInfo 0 "bafy-one".
Proof.
  apply (getDealInfo_fallback call_offline_1 "bafy-one" ∅).
  - discriminate.
  - reflexivity.
  - exact I.
Defined.

(** C9 does not hold for the instants. Two calls ten minutes apart, both
    answered by the fallback for the same locator, return deals whose
    activation and expiration instants differ. *)
Lemma getDealInfo_fallback_moves :
  let '(r1, cache1, q1) := getDealInfo call_offline_1 "bafy-one" ∅ in
  let '(r2, cache2, q2) := getDealInfo call_offline_2 "bafy-one" cache1 in
  r1 = simulateDealInfo 0 "bafy-one" /\
  r2 = simulateDealInfo 600000 "bafy-one" /\
  map provider (deals r1) = map provider (deals r2) /\
  map activation (deals r1) = [-2592000000; -3456000000; -4320000000] /\
  map activation (deals r2) = [-2591400000; -3455400000; -4319400000] /\
  map expiration (deals r1) <> map expiration (deals r2) /\
  deals r1 <> deals r2.
Proof.
  vm_compute. repeat split; try reflexivity; discriminate.
Qed.

End DealFacts.

(** ** Webhooks *)

Section WebhookFacts.

Import Webhooks.

(** C10. [updateWebhook] rewrites one entry of the stored list, the first
    whose identifier is [i]: of that webhook only the name, address,
    events, secret and enabled flag may change, each to the value the
    update gives when it gives one; its identifier, creation time, last
    trigger time and counters stay, and so does every other entry. When no
    webhook has the identifier the function throws "Webhook not found" and
    the store is as before. *)
Theorem updateWebhook_frame i updates (webhooks : list Webhook) :
  match updateWebhook i updates webhooks with
  | (inr updated, stored) =>
      exists index webhook,
        webhooks !! index = Some webhook /\ id webhook = i /\
        stored !! index = Some updated /\
        (forall j, j <> index -> stored !! j = webhooks !! j) /\
        length stored = length webhooks /\
        id updated = id webhook /\
        createdAt updated = createdAt webhook /\
        lastTriggered updated = lastTriggered webhook /\
        successCount updated = successCount webhook /\
        failCount updated = failCount webhook /\
        name updated = default (name webhook) (new_name updates) /\
        url updated = default (url webhook) (new_url updates) /\
        events updated = default (events webhook) (new_events updates) /\
        secret updated = default (secret webhook) (new_secret updates) /\
        enabled updated = default (enabled webhook) (new_enabled updates)
  | (inl e, stored) =>
      message e = "Webhook not found" /\ stored = webhooks /\
      Forall (fun w => id w <> i) webhooks
  end /\
  (Forall (fun w => id w <> i) webhooks ->
   updateWebhook i updates webhooks = (inl WebhookNotFound, webhooks)).
Proof.
  unfold updateWebhook. split.
  - destruct (list_find _ webhooks) as [[index found] |] eqn:E.
    + apply list_find_Some in E as (Hlook & Hid & _).
      exists index, found. repeat split; try done.
      * apply list_lookup_insert_eq. by apply lookup_lt_Some in Hlook.
      * intros j Hj. by apply list_lookup_insert_ne.
      * apply length_insert.
    + apply list_find_None in E. done.
  - intros Hnone.
    by rewrite (proj2 (list_find_None (fun w => id w = i) webhooks) Hnone).
Qed.

End WebhookFacts.

(** ** Verification of a proof *)

Section VerifyFacts.

Local Open Scope N_scope.

Lemma getProofById_Some saved pid p :
  Api.getProofById saved pid = Some p -> In p saved /\ Api.proofId p = pid.
Proof.
  unfold Api.getProofById. intros H. apply find_some in H as [Hin Heq].
  by apply String.eqb_eq in Heq.
Qed.

(** A hexadecimal digest written by [hashBuffer] has no capital letter. *)
Lemma hashBuffer_lower digest :
  Forall (fun b => b < 256) digest ->
  Js.toLowerCase (Api.hashBuffer digest) = Api.hashBuffer digest.
Proof.
  assert (Hchar : forall d, d < 16 -> Js.lower_ascii (Js.hex_char d) = Js.hex_char d).
  { intros d Hd.
    assert (Hcases : d = 0 \/ d = 1 \/ d = 2 \/ d = 3 \/ d = 4 \/ d = 5 \/ d = 6 \/
                     d = 7 \/ d = 8 \/ d = 9 \/ d = 10 \/ d = 11 \/ d = 12 \/
                     d = 13 \/ d = 14 \/ d = 15) by lia.
    repeat (destruct Hcases as [-> | Hcases]; [reflexivity |]).
    by subst d. }
  unfold Api.hashBuffer.
  induction 1 as [| b digest Hb _ IH]; [done |].
  cbn [foldr]. unfold Api.hex_of_byte at 1 3.
  change (Js.toLowerCase (String ?a (String ?b EmptyString) +:+ ?r))
    with (String (Js.lower_ascii a) (String (Js.lower_ascii b) (Js.toLowerCase r))).
  change (String ?a (String ?b EmptyString) +:+ ?r) with (String a (String b r)).
  rewrite IH. f_equal; [| f_equal]; apply Hchar.
  - apply N.Div0.div_lt_upper_bound. lia.
  - apply N.mod_lt. lia.
Qed.

(** The hash of a proof in a written store has no capital letter. *)
Lemma written_lower saved pid p :
  Api.written saved -> Api.getProofById saved pid = Some p ->
  Js.toLowerCase (Api.sha256Hash p) = Api.sha256Hash p.
Proof.
  intros Hwritten [Hin _]%getProofById_Some.
  unfold Api.written in Hwritten. rewrite Forall_forall in Hwritten.
  apply list_elem_of_In in Hin.
  destruct (Hwritten p Hin) as (new_id & name & size & original & c & Hbytes & ->).
  by apply hashBuffer_lower.
Qed.

(** C5. [verifyProof] is true exactly when the proof exists and the given
    hash is the stored one, letter case apart, and changes nothing that is
    stored. On the ledger the comparison is of the 32 bytes: for a proof
    registered under the hexadecimal digest [t], [verifyProof] on the
    digest [s] is true exactly when [s] and [t] agree up to letter case,
    and it is false for an identifier that is not registered. In the API
    service the comparison is of strings, between the digest of the file
    as [hashBuffer] writes it and the stored hash: on a store whose proofs
    [createProof] made, which is how proofs come to be stored, the two
    have no capital letter, and the verification succeeds exactly when a
    proof with the identifier is saved and the digest of the file is its
    hash up to letter case. *)
Theorem verifyProof_case_insensitive :
  (forall pid h st,
      Registry.verifyProof pid h st = true <->
      Registry.proofExists pid st = true /\
      Registry.sha256Hash (Registry.proofs_at st pid) = h) /\
  (forall pid s t st,
      Js.is_hash s = true -> Js.is_hash t = true ->
      Registry.proofExists pid st = true ->
      Registry.sha256Hash (Registry.proofs_at st pid) = Js.bytes32_of_hex t ->
      (Registry.verifyProof pid (Js.bytes32_of_hex s) st = true <->
       Js.toLowerCase s = Js.toLowerCase t)) /\
  (forall pid h st,
      Registry.proofExists pid st = false ->
      Registry.verifyProof pid h st = false) /\
  (forall now pid digest saved,
      let '(result, triggered, saved') := Api.verifyProof now pid digest saved in
      saved' = saved /\
      (Api.verified result = true <->
       exists p, Api.getProofById saved pid = Some p /\
                 Api.hashBuffer digest = Api.sha256Hash p) /\
      (Api.getProofById saved pid = None ->
       Api.verified result = false /\ Api.error result = Some "Proof not found")) /\
  (forall now pid digest saved,
      Forall (fun b => b < 256) digest -> Api.written saved ->
      (Api.verified (fst (fst (Api.verifyProof now pid digest saved))) = true <->
       exists p, Api.getProofById saved pid = Some p /\
                 Js.toLowerCase (Api.hashBuffer digest) =
                 Js.toLowerCase (Api.sha256Hash p))).
Proof.
  assert (Hapi : forall now pid digest saved,
      let '(result, triggered, saved') := Api.verifyProof now pid digest saved in
      saved' = saved /\
      (Api.verified result = true <->
       exists p, Api.getProofById saved pid = Some p /\
                 Api.hashBuffer digest = Api.sha256Hash p) /\
      (Api.getProofById saved pid = None ->
       Api.verified result = false /\ Api.error result = Some "Proof not found")).
  { intros now pid digest saved. unfold Api.verifyProof.
    destruct (Api.getProofById saved pid) as [p |]; simpl.
    + split; [done |]. split; [| done]. rewrite String.eqb_eq. split.
      * intros H. by exists p.
      * intros (p' & [= <-] & H). done.
    + split; [done |]. split; [| done]. split; [done |].
      intros (p & Hp & _). done. }
  assert (Hledger : forall pid h st,
      Registry.verifyProof pid h st = true <->
      Registry.proofExists pid st = true /\
      Registry.sha256Hash (Registry.proofs_at st pid) = h).
  { intros pid h st. unfold Registry.verifyProof, Registry.proofExists.
    rewrite andb_true_iff, N.eqb_eq. done. }
  split; [done |]. split; [| split; [| split; [done |]]].
  - intros pid s t st Hs Ht Hexists Hstored.
    rewrite Hledger, Hstored, <- (bytes32_of_hex_eq s t Hs Ht). split.
    + by intros [_ ->].
    + by intros ->.
  - intros pid h st Hnone.
    destruct (Registry.verifyProof pid h st) eqn:E; [| done].
    apply Hledger in E as [E _]. congruence.
  - intros now pid digest saved Hbytes Hwritten.
    specialize (Hapi now pid digest saved).
    destruct (Api.verifyProof now pid digest saved) as [[result triggered] saved'].
    destruct Hapi as (_ & Hiff & _). cbn [fst]. rewrite Hiff.
    split; intros (p & Hp & Heq); exists p; (split; [done |]).
    + by rewrite Heq.
    + by rewrite (hashBuffer_lower digest Hbytes),
                 (written_lower saved pid p Hwritten Hp) in Heq.
Qed.

Lemma verifyProof_case_insensitive_witness :
  Api.verified (fst (fst (Api.verifyProof 1700000000000 "PV-1" Api.digest_bytes
                            Api.saved_lower))) = true.
Proof.
  assert (Hbytes : Forall (fun b => b < 256) Api.digest_bytes).
  { vm_compute. repeat (apply Forall_cons; split; [reflexivity |]). apply Forall_nil_2. }
  assert (Hwritten : Api.written Api.saved_lower).
  { apply Forall_cons. split; [| apply Forall_nil_2].
    exists "PV-1", "hello.txt", 11, Api.digest_bytes, (Some "bafy-one").
    split; [exact Hbytes | reflexivity]. }
  destruct verifyProof_case_insensitive as (_ & _ & _ & _ & H).
  apply (H 1700000000000%Z "PV-1" Api.digest_bytes Api.saved_lower Hbytes Hwritten).
  eexists. split; reflexivity.
Defined.

End VerifyFacts.

(** * Further properties *)

(** In a goal [body = inr st' -> _] of the contract, step over the next
    [require], keeping as [H] that its condition holds. *)
Ltac through_guard H :=
  match goal with
  | |- context [Registry.require ?b ?e] =>
      destruct (Registry.require b e) eqn:H;
      [discriminate | apply require_inr in H]
  end.

(** ** The contract: deals, counters, lookups *)

Section RegistryDeals.

Import Registry.
Local Open Scope N_scope.

(** The state a successful [linkDeal] leaves. *)
Lemma linkDeal_result env pid d prov s e st st' :
  linkDeal env pid d prov s e st = inr st' ->
  proofExists pid st = true /\ authorized env st pid = true /\
  totalDealsTracked st < UINT256_MAX /\
  st' = linked pid d prov s e st.
Proof.
  unfold linkDeal, bind, proofExists.
  through_guard E1. through_guard E2.
  destruct (incr _) as [| total] eqn:E3; [discriminate |].
  apply incr_inr in E3 as [Hlt ->]. by intros [= <-].
Qed.

(** The state a successful [updateDealStatus] leaves. *)
Lemma updateDealStatus_result env pid i a st st' :
  updateDealStatus env pid i a st = inr st' ->
  proofExists pid st = true /\ authorized env st pid = true /\
  exists d,
    proofDeals_at st pid !! N.to_nat i = Some d /\
    st' = updated pid (N.to_nat i) a d st.
Proof.
  unfold updateDealStatus, bind, proofExists.
  through_guard E1. through_guard E2. through_guard E3.
  destruct (_ !! _) as [d |] eqn:Ed; [| discriminate].
  intros [= <-]. split; [done |]. split; [done |]. by exists d.
Qed.

Lemma proofs_at_linked pid d prov s e st q :
  proofs_at (linked pid d prov s e st) q =
  if decide (pid = q) then push_dealId d (proofs_at st pid) else proofs_at st q.
Proof.
  unfold proofs_at at 1, linked. simpl. rewrite lookup_insert. by case_decide.
Qed.

Lemma proofDeals_at_linked pid d prov s e st q :
  proofDeals_at (linked pid d prov s e st) q =
  if decide (pid = q) then proofDeals_at st pid ++ [mkDealInfo d prov s e true]
  else proofDeals_at st q.
Proof.
  unfold proofDeals_at at 1, linked. simpl. rewrite lookup_insert. by case_decide.
Qed.

Lemma proofDeals_at_updated pid i a d st q :
  proofDeals_at (updated pid i a d st) q =
  if decide (pid = q) then <[i := set_active a d]> (proofDeals_at st pid)
  else proofDeals_at st q.
Proof.
  unfold proofDeals_at at 1, updated. simpl. rewrite lookup_insert. by case_decide.
Qed.

Lemma proofs_at_updated pid i a d st q :
  proofs_at (updated pid i a d st) q = proofs_at st q.
Proof. done. Qed.

Lemma active_count_app (l1 l2 : list DealInfo) :
  length (filter (fun d => active d = true) (l1 ++ l2)) =
  (length (filter (fun d => active d = true) l1) +
   length (filter (fun d => active d = true) l2))%nat.
Proof. by rewrite filter_app, length_app. Qed.

(** X1. A link by the registrant or the owner, to a proof that exists,
    goes through (the counter being in range): the deal is added, active,
    at the end of the proof's deals and its identifier at the end of the
    proof's deal identifiers; the proof has one more active deal and the
    contract one more tracked deal; the deals of the other proofs are as
    they were. *)
Theorem linkDeal_appends env pid d prov s e st :
  proofExists pid st = true ->
  authorized env st pid = true ->
  totalDealsTracked st < UINT256_MAX ->
  exists st',
    linkDeal env pid d prov s e st = inr st' /\
    proofDeals_at st' pid = proofDeals_at st pid ++ [mkDealInfo d prov s e true] /\
    dealIds (proofs_at st' pid) = dealIds (proofs_at st pid) ++ [d] /\
    getActiveDealsCount pid st' = getActiveDealsCount pid st + 1 /\
    totalDealsTracked st' = totalDealsTracked st + 1 /\
    (forall q, q <> pid -> proofDeals_at st' q = proofDeals_at st q).
Proof.
  intros Hex Hauth Hlt.
  destruct (linkDeal env pid d prov s e st) as [err | st'] eqn:E.
  - exfalso. revert E. unfold linkDeal, bind. unfold proofExists in Hex.
    rewrite Hex, Hauth. simpl. unfold incr.
    apply N.ltb_lt in Hlt. by rewrite Hlt.
  - exists st'. split; [done |].
    apply linkDeal_result in E as (_ & _ & _ & ->).
    assert (Hd : proofDeals_at (linked pid d prov s e st) pid
                 = proofDeals_at st pid ++ [mkDealInfo d prov s e true]).
    { rewrite proofDeals_at_linked. by rewrite decide_True. }
    split; [done |]. split; [| split; [| split]].
    + rewrite proofs_at_linked. by rewrite decide_True.
    + unfold getActiveDealsCount. rewrite Hd, active_count_app.
      change (length (filter (fun d0 => active d0 = true)
                        [mkDealInfo d prov s e true])) with 1%nat.
      lia.
    + done.
    + intros q Hq. rewrite proofDeals_at_linked. by rewrite decide_False.
Qed.

Lemma linkDeal_appends_witness :
  proofDeals_at st1_linked "PV-1" = [mkDealInfo 4711 "f01234" 100 200 true] /\
  getActiveDealsCount "PV-1" st1_linked = 1.
Proof.
  destruct (linkDeal_appends env1 "PV-1" 4711 "f01234" 100 200 st1)
    as (st' & Hlink & Hdeals & _ & Hcount & _).
  - vm_compute. reflexivity.
  - vm_compute. reflexivity.
  - vm_compute. reflexivity.
  - unfold st1_linked. rewrite Hlink. split; [exact Hdeals | exact Hcount].
Defined.

(** X2. A caller who is neither the registrant of the proof nor the owner
    of the contract changes nothing: [linkDeal] and [updateDealStatus]
    revert, with "Proof not found" or "Not authorized", and for
    [updateDealStatus] possibly "Invalid deal index", which is checked
    before the caller is. *)
Theorem unauthorized_reverts env pid st :
  authorized env st pid = false ->
  (forall d prov s e,
     linkDeal env pid d prov s e st = inl ProofNotFound \/
     linkDeal env pid d prov s e st = inl NotAuthorized) /\
  (forall i a,
     updateDealStatus env pid i a st = inl ProofNotFound \/
     updateDealStatus env pid i a st = inl InvalidDealIndex \/
     updateDealStatus env pid i a st = inl NotAuthorized).
Proof.
  intros Hauth. split.
  - intros d prov s e. unfold linkDeal, bind.
    destruct (0 <? timestamp (proofs_at st pid)); simpl; [| by left].
    rewrite Hauth. by right.
  - intros i a. unfold updateDealStatus, bind.
    destruct (0 <? timestamp (proofs_at st pid)); simpl; [| by left].
    destruct (i <? _); simpl; [| by right; left].
    rewrite Hauth. by right; right.
Qed.

Lemma unauthorized_reverts_witness :
  linkDeal env2 "PV-1" 4711 "f01234" 100 200 st1 = inl NotAuthorized.
Proof.
  destruct (unauthorized_reverts env2 "PV-1" st1) as [Hlink _].
  - vm_compute. reflexivity.
  - destruct (Hlink 4711 "f01234" 100 200) as [H | H]; [| exact H].
    vm_compute in H. discriminate H.
Defined.

Lemma active_count_insert (l : list DealInfo) : forall i d a,
  l !! i = Some d ->
  (length (filter (fun x => active x = true) (<[i := set_active a d]> l)) +
   N.to_nat (flag (active d)) =
   length (filter (fun x => active x = true) l) + N.to_nat (flag a))%nat.
Proof.
  induction l as [| x l IH]; intros [| i] d a Hl; simpl in Hl; try done.
  - injection Hl as ->. simpl. rewrite !filter_cons.
    destruct a, (active d) eqn:Ed; simpl;
      repeat (case_decide; try done); simpl; lia.
  - simpl. rewrite !filter_cons. specialize (IH i d a Hl).
    case_decide; simpl; lia.
Qed.

Lemma terms_insert (l : list DealInfo) i d a :
  l !! i = Some d ->
  map terms (<[i := set_active a d]> l) = map terms l.
Proof.
  intros Hl. change (map terms) with (fmap (M:=list) terms).
  rewrite list_fmap_insert.
  apply list_insert_id. by rewrite list_lookup_fmap, Hl.
Qed.

(** X3. A successful [updateDealStatus] rewrites the active flag of the
    addressed deal and nothing else: the deal keeps its identifier,
    provider and epochs and its place, the count of active deals moves by
    the difference of the old and the new flag, the other proofs' deals,
    the proofs and the counters are untouched, and one
    [DealStatusUpdated] event carrying the deal's identifier is logged. *)
Theorem updateDealStatus_frame env pid i a st st' :
  updateDealStatus env pid i a st = inr st' ->
  exists d,
    proofDeals_at st pid !! N.to_nat i = Some d /\
    proofDeals_at st' pid = <[N.to_nat i := set_active a d]> (proofDeals_at st pid) /\
    map terms (proofDeals_at st' pid) = map terms (proofDeals_at st pid) /\
    getActiveDealsCount pid st' + flag (active d) =
      getActiveDealsCount pid st + flag a /\
    (forall q, q <> pid -> proofDeals_at st' q = proofDeals_at st q) /\
    proofs st' = proofs st /\
    totalProofs st' = totalProofs st /\
    totalDealsTracked st' = totalDealsTracked st /\
    events st' = events st ++ [DealStatusUpdated pid (dealId d) a].
Proof.
  intros H. apply updateDealStatus_result in H as (_ & _ & d & Hd & ->).
  exists d. split; [done |].
  assert (Hnew : proofDeals_at (updated pid (N.to_nat i) a d st) pid
            = <[N.to_nat i := set_active a d]> (proofDeals_at st pid)).
  { rewrite proofDeals_at_updated. by rewrite decide_True. }
  split; [done |]. split; [| split; [| split]].
  - rewrite Hnew. by apply terms_insert.
  - unfold getActiveDealsCount. rewrite Hnew.
    pose proof (active_count_insert _ _ _ a Hd) as Hc.
    destruct a, (active d); simpl in *; lia.
  - intros q Hq. rewrite proofDeals_at_updated. by rewrite decide_False.
  - done.
Qed.

Lemma updateDealStatus_frame_witness :
  getActiveDealsCount "PV-1" st1_unlinked = 0 /\
  map terms (proofDeals_at st1_unlinked "PV-1") = [(4711, "f01234", 100, 200)].
Proof.
  assert (H : updateDealStatus env1 "PV-1" 0 false st1_linked = inr st1_unlinked)
    by (vm_compute; reflexivity).
  destruct (updateDealStatus_frame _ _ _ _ _ _ H)
    as (d & Hd & _ & Hterms & Hcount & _).
  split.
  - assert (Hone : getActiveDealsCount "PV-1" st1_linked = 1)
      by (vm_compute; reflexivity).
    assert (Hact : active d = true).
    { vm_compute in Hd. injection Hd as <-. reflexivity. }
    rewrite Hone, Hact in Hcount. simpl in Hcount. lia.
  - rewrite Hterms. vm_compute. reflexivity.
Defined.

(** *** Invariants of the deal lists and of the counters *)

Lemma count_events_snoc kind log e :
  count_events kind (log ++ [e]) = count_events kind log + flag (kind e).
Proof.
  unfold count_events. rewrite List.filter_app, length_app. simpl.
  destruct (kind e); simpl; lia.
Qed.

Lemma accounted_step st st' : step st st' -> accounted st -> accounted st'.
Proof.
  intros Hstep [A1 A2 A3 A4].
  destruct Hstep as [env pid h c sp st st' H
                    |env pid d prov s e st st' H
                    |env pid i a st st' H
                    |a st].
  - apply registerProof_inr in H as (_ & _ & _ & Hfresh & _ & _ & ->).
    assert (Hd : forall q, proofDeals_at (registered env pid h c sp st) q
                           = proofDeals_at st q) by done.
    split.
    + intros q. rewrite proofs_at_registered, Hd. case_decide as Hq.
      * subst q. intros _. by apply A1.
      * apply A1.
    + intros q. rewrite proofs_at_registered, Hd. case_decide as Hq.
      * subst q. simpl. by rewrite A1.
      * apply A2.
    + simpl. rewrite count_events_snoc. simpl. by rewrite A3.
    + simpl. rewrite count_events_snoc. simpl. rewrite A4. lia.
  - apply linkDeal_result in H as (Hex & _ & _ & ->).
    unfold proofExists in Hex. apply N.ltb_lt in Hex.
    split.
    + intros q. rewrite proofs_at_linked, proofDeals_at_linked.
      case_decide as Hq.
      * subst q. simpl. lia.
      * apply A1.
    + intros q. rewrite proofs_at_linked, proofDeals_at_linked.
      case_decide as Hq.
      * subst q. simpl. rewrite map_app. simpl. by rewrite A2.
      * apply A2.
    + simpl. rewrite count_events_snoc. simpl. rewrite A3. lia.
    + simpl. rewrite count_events_snoc. simpl. by rewrite A4.
  - apply updateDealStatus_result in H as (Hex & _ & d & Hd & ->).
    unfold proofExists in Hex. apply N.ltb_lt in Hex.
    split.
    + intros q. rewrite proofs_at_updated, proofDeals_at_updated.
      case_decide as Hq.
      * subst q. lia.
      * apply A1.
    + intros q. rewrite proofs_at_updated, proofDeals_at_updated.
      case_decide as Hq.
      * subst q.
        rewrite A2. change (map dealId) with (fmap (M:=list) dealId).
        rewrite list_fmap_insert. symmetry.
        apply list_insert_id. by rewrite list_lookup_fmap, Hd.
      * apply A2.
    + simpl. rewrite count_events_snoc. simpl. rewrite A3. lia.
    + simpl. rewrite count_events_snoc. simpl. rewrite A4. lia.
  - by split.
Qed.

(** X4. In every reachable state the two records of a proof's deals agree:
    the deal identifiers kept in the proof are, in order, those of the
    entries of its deal list. *)
Theorem dealIds_follow_deals st :
  reachable st ->
  forall pid, dealIds (proofs_at st pid) = map dealId (proofDeals_at st pid).
Proof.
  intros Hr. cut (accounted st); [by intros [] |].
  induction Hr as [deployer | st st' _ IH Hstep]; [by split |].
  by apply (accounted_step st st').
Qed.

Lemma dealIds_follow_deals_witness :
  dealIds (proofs_at st1_linked "PV-1") = [4711].
Proof.
  rewrite (dealIds_follow_deals st1_linked).
  - vm_compute. reflexivity.
  - apply (reachable_step st1); [apply reachable_st1 |].
    apply (step_linkDeal env1 "PV-1" 4711 "f01234" 100 200).
    vm_compute. reflexivity.
Defined.

(** X5. In every reachable state the two counters that [getStats] returns
    are the numbers of [ProofRegistered] and of [DealLinked] events logged
    so far. *)
Theorem getStats_counts_events st :
  reachable st ->
  totalProofs st = count_events is_registration (events st) /\
  totalDealsTracked st = count_events is_link (events st).
Proof.
  intros Hr. cut (accounted st); [by intros [] |].
  induction Hr as [deployer | st st' _ IH Hstep]; [by split |].
  by apply (accounted_step st st').
Qed.

Lemma getStats_counts_events_witness :
  totalProofs st1 = 1 /\ totalDealsTracked st1 = 0.
Proof.
  destruct (getStats_counts_events st1 reachable_st1) as [Hp Hd].
  rewrite Hp, Hd. vm_compute. split; reflexivity.
Defined.

(** *** What later calls leave in place *)

Lemma deals_grow_step st st' pid :
  step st st' ->
  map terms (proofDeals_at st pid) `prefix_of` map terms (proofDeals_at st' pid).
Proof.
  intros Hstep.
  destruct Hstep as [env pid2 h c sp st st' H
                    |env pid2 d prov s e st st' H
                    |env pid2 i a st st' H
                    |a st].
  - apply registerProof_inr in H as (_ & _ & _ & _ & _ & _ & ->). done.
  - apply linkDeal_result in H as (_ & _ & _ & ->).
    rewrite proofDeals_at_linked. case_decide as Hq; [| done].
    subst pid2. rewrite map_app. by apply prefix_app_r.
  - apply updateDealStatus_result in H as (_ & _ & d & Hd & ->).
    rewrite proofDeals_at_updated. case_decide as Hq; [| done].
    subst pid2. by rewrite terms_insert.
  - done.
Qed.

(** X6. The deal list of a proof is append-only: after any further calls
    the identifiers, providers and epochs of the deals linked so far are
    still there, in the same places; entries are only added behind them,
    and only the active flags may have changed. *)
Theorem deals_append_only st st' :
  rtc step st st' ->
  forall pid,
    map terms (proofDeals_at st pid) `prefix_of` map terms (proofDeals_at st' pid).
Proof.
  intros Hsteps pid. induction Hsteps as [| st st1 st2 Hstep _ IH]; [done |].
  etrans; [by apply deals_grow_step | done].
Qed.

Lemma deals_append_only_witness :
  map terms (proofDeals_at st1_linked "PV-1") `prefix_of`
  map terms (proofDeals_at st1_unlinked "PV-1").
Proof.
  apply deals_append_only. apply rtc_once.
  apply (step_updateDealStatus env1 "PV-1" 0 false).
  vm_compute. reflexivity.
Defined.

Lemma proof_kept_step st st' pid :
  step st st' ->
  timestamp (proofs_at st pid) <> 0 ->
  same_record (proofs_at st' pid) (proofs_at st pid).
Proof.
  intros Hstep Hts.
  destruct Hstep as [env pid2 h c sp st st' H
                    |env pid2 d prov s e st st' H
                    |env pid2 i a st st' H
                    |a st].
  - apply registerProof_inr in H as (_ & _ & _ & Hfresh & _ & _ & ->).
    rewrite proofs_at_registered. rewrite decide_False; [apply same_record_refl |].
    intros ->. done.
  - apply linkDeal_result in H as (_ & _ & _ & ->).
    rewrite proofs_at_linked. case_decide as Hq; [| apply same_record_refl].
    subst pid2. apply same_record_push, same_record_refl.
  - apply updateDealStatus_result in H as (_ & _ & d & _ & ->).
    apply same_record_refl.
  - apply same_record_refl.
Qed.

(** X7. No call deletes or rewrites a registered proof: once
    [verifyProof] answers true for an identifier and a hash it answers
    true after any further calls, and the record keeps its hash, locator,
    registrant, timestamp, block number and provider. *)
Theorem verifyProof_stable pid h st st' :
  verifyProof pid h st = true ->
  rtc step st st' ->
  verifyProof pid h st' = true /\
  same_record (proofs_at st' pid) (proofs_at st pid).
Proof.
  intros Hv Hsteps. induction Hsteps as [| st st1 st2 Hstep _ IH].
  - split; [done | apply same_record_refl].
  - unfold verifyProof in Hv. apply andb_true_iff in Hv as [Hts Hh].
    apply N.ltb_lt in Hts. apply N.eqb_eq in Hh.
    destruct (proof_kept_step st st1 pid Hstep) as (E1 & E2 & E3 & E4 & E5 & E6 & E7);
      [lia |].
    destruct IH as [Hv2 (F1 & F2 & F3 & F4 & F5 & F6 & F7)].
    + unfold verifyProof. rewrite E5, E1, Hh, N.eqb_refl.
      apply andb_true_iff. split; [by apply N.ltb_lt | done].
    + split; [done |]. repeat split; congruence.
Qed.

Lemma verifyProof_stable_witness :
  verifyProof "PV-1" 7 st2 = true.
Proof.
  apply (verifyProof_stable "PV-1" 7 st1 st2).
  - vm_compute. reflexivity.
  - apply rtc_once. apply (step_registerProof env2 "PV-2" 8 "bafy-one" "f05678").
    vm_compute. reflexivity.
Defined.

(** *** The indexes lead to records that carry the key *)

Lemma dated_app log1 log2 : dated (log1 ++ log2) -> dated log1.
Proof. unfold dated. rewrite Forall_app. by intros [? _]. Qed.

Lemma indexed_step st st' :
  step st st' -> dated (events st') -> indexed st -> indexed st'.
Proof.
  intros Hstep Hlog [K1 K2].
  destruct Hstep as [env pid h c sp st st' H
                    |env pid d prov s e st st' H
                    |env pid i a st st' H
                    |a st].
  - apply registerProof_inr in H as (Hpid & _ & _ & Hfresh & _ & _ & ->).
    assert (Hts : block_timestamp env <> 0).
    { unfold dated, registered, store in Hlog. simpl in Hlog.
      rewrite Forall_app in Hlog. destruct Hlog as [_ Hl].
      by inversion Hl. }
    split.
    + intros k. rewrite hashToProofId_at_registered. case_decide as Hk.
      * intros _. rewrite proofs_at_registered. by rewrite decide_True.
      * intros Hne. destruct (K1 k Hne) as (E1 & E2 & E3).
        rewrite proofs_at_registered. rewrite decide_False; [done |].
        intros ->. done.
    + intros k. rewrite cidToProofId_at_registered. case_decide as Hk.
      * intros _. rewrite proofs_at_registered. by rewrite decide_True.
      * intros Hne. destruct (K2 k Hne) as (E1 & E2 & E3).
        rewrite proofs_at_registered. rewrite decide_False; [done |].
        intros ->. done.
  - apply linkDeal_result in H as (_ & _ & _ & ->).
    split.
    + intros k Hne. change (hashToProofId_at (linked pid d prov s e st) k)
        with (hashToProofId_at st k) in *.
      destruct (K1 k Hne) as (E1 & E2 & E3).
      rewrite proofs_at_linked. case_decide as Hq; [| done].
      rewrite Hq. done.
    + intros k Hne. change (cidToProofId_at (linked pid d prov s e st) k)
        with (cidToProofId_at st k) in *.
      destruct (K2 k Hne) as (E1 & E2 & E3).
      rewrite proofs_at_linked. case_decide as Hq; [| done].
      rewrite Hq. done.
  - apply updateDealStatus_result in H as (_ & _ & d & _ & ->). by split.
  - by split.
Qed.

Lemma events_grow_step st st' :
  step st st' -> exists more, events st' = events st ++ more.
Proof.
  intros Hstep.
  destruct Hstep as [env pid h c sp st st' H
                    |env pid d prov s e st st' H
                    |env pid i a st st' H
                    |a st].
  - apply registerProof_inr in H as (_ & _ & _ & _ & _ & _ & ->). by eexists.
  - apply linkDeal_result in H as (_ & _ & _ & ->). by eexists.
  - apply updateDealStatus_result in H as (_ & _ & d & _ & ->). by eexists.
  - exists []. simpl. by rewrite app_nil_r.
Qed.

Lemma reachable_indexed st : reachable st -> dated (events st) -> indexed st.
Proof.
  induction 1 as [deployer | st st' Hr IH Hstep]; intros Hlog.
  - by split.
  - apply (indexed_step st st'); try done. apply IH.
    destruct (events_grow_step st st' Hstep) as [more Hmore].
    rewrite Hmore in Hlog. by apply dated_app in Hlog.
Qed.

(** X8. In a reachable state whose registrations all happened in blocks
    with a timestamp, what the indexes return is consistent: a proof found
    by [getProofByHash] carries that hash, a proof found by
    [getProofByCid] carries that locator, and in both cases [getProof] on
    the identifier of the record returns the same record. *)
Theorem lookups_agree st :
  reachable st -> dated (events st) ->
  (forall h p, getProofByHash h st = inr p ->
     sha256Hash p = h /\ getProof (proofId p) st = inr p) /\
  (forall c p, getProofByCid c st = inr p ->
     cid p = c /\ getProof (proofId p) st = inr p).
Proof.
  intros Hr Hlog. destruct (reachable_indexed st Hr Hlog) as [K1 K2]. split.
  - intros h p. unfold getProofByHash, bind.
    destruct (0 <? bytes_length (hashToProofId_at st h)) eqn:E; [| discriminate].
    simpl. intros [= <-]. apply bytes_length_pos in E.
    destruct (K1 h E) as (E1 & E2 & E3). split; [done |].
    unfold getProof, bind. rewrite E2.
    assert (Hpos : (0 <? timestamp (proofs_at st (hashToProofId_at st h))) = true)
      by (apply N.ltb_lt; lia).
    by rewrite Hpos.
  - intros c p. unfold getProofByCid, bind.
    destruct (0 <? bytes_length (cidToProofId_at st c)) eqn:E; [| discriminate].
    simpl. intros [= <-]. apply bytes_length_pos in E.
    destruct (K2 c E) as (E1 & E2 & E3). split; [done |].
    unfold getProof, bind. rewrite E2.
    assert (Hpos : (0 <? timestamp (proofs_at st (cidToProofId_at st c))) = true)
      by (apply N.ltb_lt; lia).
    by rewrite Hpos.
Qed.

Lemma lookups_agree_witness :
  getProof "PV-2" st2 = inr (newProof env2 "PV-2" 8 "bafy-one" "f05678").
Proof.
  assert (Hr : reachable st2).
  { apply (reachable_step st1); [apply reachable_st1 |].
    apply (step_registerProof env2 "PV-2" 8 "bafy-one" "f05678").
    vm_compute. reflexivity. }
  assert (Hlog : dated (events st2)).
  { vm_compute. repeat constructor; discriminate. }
  destruct (lookups_agree st2 Hr Hlog) as [_ Hcid].
  destruct (Hcid "bafy-one" (newProof env2 "PV-2" 8 "bafy-one" "f05678")) as [_ H].
  - vm_compute. reflexivity.
  - exact H.
Defined.

End RegistryDeals.

(** ** The simulated ledger: reading back what was registered *)

Section SimulatedLookups.

Import Js Refinement.
Local Open Scope Z_scope.

Lemma Map_get_snoc {V} (m : list (string * V)) k v q :
  Simulated.Map_get (m ++ [(k, v)]) q =
  match Simulated.Map_get m q with
  | Some x => Some x
  | None => if String.eqb k q then Some v else None
  end.
Proof.
  induction m as [| e m IH]; simpl; [done |].
  by destruct (String.eqb (fst e) q).
Qed.

Lemma Map_get_absent {V} (m : list (string * V)) k :
  Simulated.Map_has m k = false -> Simulated.Map_get m k = None.
Proof.
  induction m as [| e m IH]; simpl; [done |].
  intros [He Hm]%orb_false_iff. rewrite He. by apply IH.
Qed.

Lemma find_snoc_absent {A} (f : A -> bool) (l : list A) x :
  existsb f l = false -> find f (l ++ [x]) = find f [x].
Proof.
  induction l as [| y l IH]; simpl; [done |].
  intros [Hy Hl]%orb_false_iff. rewrite Hy. by apply IH.
Qed.

(** X9. What the simulation registers it gives back: after a successful
    [registerProof], [getProof] on the identifier and [getProofByHash] on
    the digest, in whatever letter case, return the proof of the receipt;
    the other identifiers read as before; there is one proof more, the
    block counter has advanced by one and the receipt names the block the
    proof went into. *)
Theorem simulated_round_trip now tx pid h c chain receipt chain' :
  Simulated.registerProof now tx pid h c chain = inr (receipt, chain') ->
  Simulated.getProof pid chain' = Some (Simulated.receipt_proof receipt) /\
  (forall h', toLowerCase h' = toLowerCase h ->
     Simulated.getProofByHash h' chain' = Some (Simulated.receipt_proof receipt)) /\
  (forall q, q <> pid -> Simulated.getProof q chain' = Simulated.getProof q chain) /\
  Simulated.proofExists pid chain' = true /\
  Simulated.getTotalProofs chain' = Simulated.getTotalProofs chain + 1 /\
  Simulated.blockNumber chain' = Simulated.blockNumber chain + 1 /\
  Simulated.receipt_blockNumber receipt = Simulated.blockNumber chain /\
  Simulated.proof_blockNumber (Simulated.receipt_proof receipt) =
    Simulated.blockNumber chain.
Proof.
  intros Hsim.
  pose proof (sim_registerProof_cases now tx pid h c chain) as Hc.
  rewrite Hsim in Hc.
  destruct Hc as (Hid & Hk & Hproofs & Hrec & Hbn & Hrbn & _).
  unfold Simulated.proofExists in Hid.
  split; [| split; [| split; [| split; [| split]]]].
  - unfold Simulated.getProof. rewrite Hproofs, Map_get_snoc.
    rewrite Map_get_absent by done. by rewrite String.eqb_refl.
  - intros h' Hh'. unfold Simulated.getProofByHash.
    rewrite Hproofs, Hh'. unfold Simulated.hash_known in Hk.
    rewrite find_snoc_absent by done. simpl.
    rewrite Hrec at 1. simpl. by rewrite String.eqb_refl.
  - intros q Hq. unfold Simulated.getProof. rewrite Hproofs, Map_get_snoc.
    destruct (Simulated.Map_get _ q); [done |].
    apply not_eq_sym, String.eqb_neq in Hq. by rewrite Hq.
  - unfold Simulated.proofExists. rewrite Hproofs, Map_has_app. simpl.
    rewrite String.eqb_refl. by rewrite orb_true_r.
  - unfold Simulated.getTotalProofs. rewrite Hproofs, length_app. simpl. lia.
  - split; [done |]. split; [done |]. by rewrite Hrec.
Qed.

Lemma simulated_round_trip_witness :
  match Simulated.registerProof 1700000000000 "0xaa" "PV-1" Simulated.digest_a
          "bafy-one" (Simulated.fresh 1700000000000) with
  | inr (receipt, chain') =>
      Simulated.getProofByHash Simulated.digest_A chain' =
        Some (Simulated.receipt_proof receipt)
  | inl _ => False
  end.
Proof.
  destruct (Simulated.registerProof 1700000000000 "0xaa" "PV-1" Simulated.digest_a
              "bafy-one" (Simulated.fresh 1700000000000))
    as [e | [receipt chain']] eqn:E; [vm_compute in E; discriminate E |].
  destruct (simulated_round_trip _ _ _ _ _ _ _ _ E) as (_ & Hh & _).
  apply Hh. vm_compute. reflexivity.
Defined.

End SimulatedLookups.

(** ** Gateways: the best gateway, the candidates, the health cache *)

Section GatewayChoice.

Import Gateways.
Local Open Scope Z_scope.

Lemma find_all_false {A} (f : A -> bool) (l : list A) :
  Forall (fun x => f x = false) l -> find f l = None.
Proof.
  induction 1 as [| x l Hx _ IH]; simpl; [done |]. by rewrite Hx.
Qed.

Lemma ranked_members check r :
  r ∈ getGatewaysWithHealth check <->
  exists g, g ∈ GATEWAYS /\ r = mkRanked g (check g).
Proof.
  unfold getGatewaysWithHealth. rewrite sort_perm.
  change (map ?f GATEWAYS) with (fmap (M:=list) f GATEWAYS).
  rewrite list_elem_of_fmap. split.
  - intros (g & -> & Hg). by exists g.
  - intros (g & Hg & ->). by exists g.
Qed.

Lemma ranked_nonempty check :
  exists best rest,
    getGatewaysWithHealth check = best :: rest /\ Forall (before best) rest.
Proof.
  pose proof (ranking_sorted (map (fun g => mkRanked g (check g)) GATEWAYS)) as Hs.
  fold (getGatewaysWithHealth check) in Hs.
  assert (Hlen : length (getGatewaysWithHealth check) = 6%nat).
  { unfold getGatewaysWithHealth. by rewrite sort_perm. }
  destruct (getGatewaysWithHealth check) as [| best rest]; [discriminate |].
  exists best, rest. split; [done |].
  by apply StronglySorted_inv in Hs as [_ Hall].
Qed.

(** X10. [getBestGateway] always has an answer, the head of the ranking,
    and [getOptimizedUrl] is the address of the locator at that gateway.
    When some configured gateway is healthy the answer is a
    healthy gateway, and no healthy gateway has a smaller [latency ||
    9999]; when none is healthy the answer is the first configured
    gateway, "w3s". *)
Theorem getBestGateway_top check c :
  exists best rest,
    getGatewaysWithHealth check = best :: rest /\
    getBestGateway check = Some best /\
    getOptimizedUrl check c = Some (url (gateway best) +:+ c) /\
    ((exists g, g ∈ GATEWAYS /\ healthy (check g) = true) ->
     healthy (health best) = true /\
     forall r, r ∈ getGatewaysWithHealth check -> healthy (health r) = true ->
               latency_or_9999 (health best) <= latency_or_9999 (health r)) /\
    ((forall g, g ∈ GATEWAYS -> healthy (check g) = false) ->
     id (gateway best) = "w3s").
Proof.
  destruct (ranked_nonempty check) as (best & rest & Hranked & Hbefore).
  exists best, rest. split; [done |].
  assert (Hrest : healthy (health best) = false ->
                  Forall (fun r => healthy (health r) = false) rest).
  { intros Hb. eapply Forall_impl; [exact Hbefore |]. intros r Hr.
    unfold before, compare in Hr. rewrite Hb in Hr.
    destruct (healthy (health r)); [simpl in Hr; lia | done]. }
  assert (Hbest : getBestGateway check = Some best).
  { unfold getBestGateway. rewrite Hranked. simpl.
    destruct (healthy (health best)) eqn:Hb; [done |].
    by rewrite (find_all_false _ _ (Hrest eq_refl)). }
  split; [done |]. split; [unfold getOptimizedUrl; by rewrite Hbest |]. split.
  - intros (g & Hg & Hh).
    assert (Hin : mkRanked g (check g) ∈ best :: rest).
    { rewrite <- Hranked. apply ranked_members. by exists g. }
    assert (Hb : healthy (health best) = true).
    { destruct (healthy (health best)) eqn:Hb; [done |].
      apply elem_of_cons in Hin as [Heq | Hin].
      - rewrite <- Heq in Hb. simpl in Hb. congruence.
      - specialize (Hrest eq_refl). rewrite Forall_forall in Hrest.
        specialize (Hrest _ Hin). simpl in Hrest. congruence. }
    split; [done |]. intros r Hr Hrh. rewrite Hranked in Hr.
    apply elem_of_cons in Hr as [-> | Hr]; [lia |].
    rewrite Forall_forall in Hbefore. specialize (Hbefore r Hr).
    unfold before, compare in Hbefore. rewrite Hb, Hrh in Hbefore.
    simpl in Hbefore. lia.
  - intros Hnone.
    assert (Hmem : best ∈ getGatewaysWithHealth check)
      by (rewrite Hranked; apply elem_of_cons; by left).
    apply ranked_members in Hmem as (g & Hg & ->). simpl.
    set (w := mkGateway "w3s" "Web3.Storage" "https://w3s.link/ipfs/" 1 "primary").
    assert (Hw : w ∈ GATEWAYS) by (apply elem_of_cons; by left).
    assert (Hin : mkRanked w (check w) ∈ mkRanked g (check g) :: rest).
    { rewrite <- Hranked. apply ranked_members. by exists w. }
    assert (Hprio : priority g <= 1).
    { apply elem_of_cons in Hin as [Heq | Hin]; [by injection Heq as <- |].
      rewrite Forall_forall in Hbefore. specialize (Hbefore _ Hin).
      unfold before, compare in Hbefore. simpl in Hbefore.
      rewrite (Hnone g Hg), (Hnone w Hw) in Hbefore. simpl in Hbefore. lia. }
    unfold GATEWAYS in Hg.
    repeat (apply elem_of_cons in Hg as [-> | Hg]; [simpl in Hprio; try done; lia |]).
    by apply elem_of_nil in Hg.
Qed.

Lemma insert_head x l : Forall (before x) l -> insert compare x l = x :: l.
Proof.
  destruct 1 as [| y l Hy _]; simpl; [done |].
  unfold before in Hy. apply Z.leb_le in Hy. by rewrite Hy.
Qed.

(** A list that is in order already is left as it is. *)
Lemma sort_sorted_id l : StronglySorted before l -> sort compare l = l.
Proof.
  induction 1 as [| x l _ IH Hall]; [done |].
  change (sort compare (x :: l)) with (insert compare x (sort compare l)).
  rewrite IH. by apply insert_head.
Qed.

Lemma before_down a b :
  healthy (health a) = false -> healthy (health b) = false ->
  priority (gateway a) <= priority (gateway b) -> before a b.
Proof.
  intros Ha Hb Hp. unfold before, compare. rewrite Ha, Hb. simpl. lia.
Qed.

(** With no healthy gateway the ranking is the configured order. *)
Lemma ranked_all_down check :
  (forall g, g ∈ GATEWAYS -> healthy (check g) = false) ->
  getGatewaysWithHealth check = map (fun g => mkRanked g (check g)) GATEWAYS.
Proof.
  intros Hnone.
  assert (Hall : Forall (fun g => healthy (check g) = false) GATEWAYS)
    by (by apply Forall_forall).
  unfold GATEWAYS in Hall.
  apply Forall_cons in Hall as [H1 Hall]. apply Forall_cons in Hall as [H2 Hall].
  apply Forall_cons in Hall as [H3 Hall]. apply Forall_cons in Hall as [H4 Hall].
  apply Forall_cons in Hall as [H5 Hall]. apply Forall_cons in Hall as [H6 _].
  unfold getGatewaysWithHealth. apply sort_sorted_id.
  unfold GATEWAYS. cbn [map].
  repeat (constructor; [| repeat (constructor; [by apply before_down |]);
                          constructor]).
  constructor.
Qed.

Lemma requests_prefix fetch c gs lastError :
  requests (snd (try_gateways fetch c gs lastError)) `prefix_of`
  map (target_of c) gs.
Proof.
  pose proof (try_gateways_spec fetch c gs lastError) as H.
  destruct (try_gateways fetch c gs lastError) as [[ret | err] effects]; simpl.
  - destruct H as (pre & g & post & -> & _ & _ & _ & _ & -> & _).
    rewrite !map_app. simpl. apply prefix_app, prefix_cons, prefix_nil.
  - destruct H as (_ & -> & _). done.
Qed.

(** Where the requests for the content go. When some gateway is
    healthy every request goes to a healthy gateway; when none is, the
    requests go to the first three configured gateways, in that order. *)
Lemma content_requests_candidates check fetch c :
  let sent := requests (snd (fetchWithFailover check fetch c)) in
  ((exists g, g ∈ GATEWAYS /\ healthy (check g) = true) ->
   Forall (fun t => exists g, g ∈ GATEWAYS /\ healthy (check g) = true /\
                              t = url g +:+ c) sent) /\
  ((forall g, g ∈ GATEWAYS -> healthy (check g) = false) ->
   sent `prefix_of` ["https://w3s.link/ipfs/" +:+ c;
                     "https://dweb.link/ipfs/" +:+ c;
                     "https://ipfs.io/ipfs/" +:+ c]).
Proof.
  intros sent.
  pose proof (requests_prefix fetch c
                (gatewaysToTry (getGatewaysWithHealth check)) None) as Hpre.
  fold (fetchWithFailover check fetch c) in Hpre. fold sent in Hpre. split.
  - intros (g0 & Hg0 & Hh0).
    assert (Hin : mkRanked g0 (check g0) ∈
                  filter (fun g => healthy (health g) = true)
                         (getGatewaysWithHealth check)).
    { apply list_elem_of_filter. split; [done |].
      apply ranked_members. by exists g0. }
    unfold gatewaysToTry in Hpre.
    destruct (filter _ (getGatewaysWithHealth check)) as [| x tries] eqn:Ef;
      [by apply elem_of_nil in Hin |].
    cbn [length] in Hpre. rewrite Nat2Z.inj_succ in Hpre.
    destruct (Z.ltb_spec 0 (Z.succ (Z.of_nat (length tries)))) as [_ | Hbad]; [| lia].
    apply Forall_forall. intros t Ht.
    destruct Hpre as [more Hmore].
    assert (Ht' : t ∈ map (target_of c) (x :: tries)).
    { rewrite Hmore. apply elem_of_app. by left. }
    clear Ht. rename Ht' into Ht.
    change (map ?f ?l) with (fmap (M:=list) f l) in Ht.
    apply list_elem_of_fmap in Ht as (r & -> & Hr).
    rewrite <- Ef in Hr. apply list_elem_of_filter in Hr as [Hrh Hr].
    apply ranked_members in Hr as (g & Hg & ->). by exists g.
  - intros Hnone. unfold gatewaysToTry in Hpre.
    rewrite (ranked_all_down check Hnone) in Hpre.
    assert (Hall : Forall (fun g => healthy (check g) = false) GATEWAYS)
      by (by apply Forall_forall).
    unfold GATEWAYS in Hall, Hpre.
    repeat (apply Forall_cons in Hall as [?H Hall]).
    simpl in Hpre. rewrite !filter_cons in Hpre. simpl in Hpre.
    repeat match goal with
           | H : healthy _ = false |- _ => rewrite H in Hpre; clear H
           end.
    simpl in Hpre. exact Hpre.
Qed.

(** *** The retrieval with its health checks *)

Lemma filter_ext_in {A} (P Q : A -> Prop) `{!forall x, Decision (P x)}
    `{!forall x, Decision (Q x)} (l : list A) :
  (forall x, x ∈ l -> P x <-> Q x) -> filter P l = filter Q l.
Proof.
  induction l as [| x l IH]; intros Hpq; [done |].
  assert (Hx : P x <-> Q x) by (apply Hpq; by left).
  assert (Hl : filter P l = filter Q l).
  { apply IH. intros y Hy. apply Hpq. by right. }
  rewrite !filter_cons, Hl.
  destruct (decide (P x)), (decide (Q x)); tauto.
Qed.

Lemma filter_none {A} (P : A -> Prop) `{!forall x, Decision (P x)} (l : list A) :
  (forall x, x ∈ l -> ~ P x) -> filter P l = [].
Proof.
  induction l as [| x l IH]; intros Hnone; [done |].
  rewrite filter_cons_False by (apply Hnone; by left).
  apply IH. intros y Hy. apply Hnone. by right.
Qed.

Lemma checkGatewayHealth_frame now finished p g (cache : gmap string CachedHealth) :
  let '(h, cache1, n) := checkGatewayHealth now finished p g cache in
  (forall k, k <> id g -> cache1 !! k = cache !! k) /\
  n = (if fresh now g cache then 0 else 1)%nat.
Proof.
  unfold checkGatewayHealth, fresh.
  destruct (cache !! id g) as [cached |];
    [destruct (now - cached_at cached <? HEALTH_CHECK_INTERVAL) |];
    (split; [| done]); intros k Hk; try done; by rewrite lookup_insert_ne.
Qed.

Lemma resolved_ext meets (cache1 cache2 : gmap string CachedHealth) g :
  cache1 !! id g = cache2 !! id g ->
  resolved meets cache1 g = resolved meets cache2 g /\
  (stale meets cache1 g <-> stale meets cache2 g).
Proof.
  intros Heq. unfold resolved, stale, checkGatewayHealth, fresh. rewrite Heq.
  split; [| done].
  destruct (cache2 !! id g) as [cached |]; [| done].
  by destruct (_ <? _).
Qed.

Lemma check_all_spec meets gs : forall (cache : gmap string CachedHealth),
  NoDup (map id gs) ->
  let '(results, cache', probed) := check_all meets gs cache in
  results = map (fun g => mkRanked g (resolved meets cache g)) gs /\
  probed = map (fun g => url g +:+ TEST_CID) (filter (stale meets cache) gs) /\
  (forall k, k ∉ map id gs -> cache' !! k = cache !! k).
Proof.
  induction gs as [| g rest IH]; intros cache Hids; [done |].
  apply NoDup_cons in Hids as [Hg Hids]. cbn [check_all].
  pose proof (checkGatewayHealth_frame (read_at (meets g)) (finished_at (meets g))
                (probe (meets g)) g cache) as Hframe.
  assert (Hh : resolved meets cache g =
               fst (fst (checkGatewayHealth (read_at (meets g)) (finished_at (meets g))
                                            (probe (meets g)) g cache))) by done.
  destruct (checkGatewayHealth _ _ _ g cache) as [[h cache1] n].
  destruct Hframe as [Hother Hn]. cbn [fst] in Hh.
  specialize (IH cache1 Hids).
  destruct (check_all meets rest cache1) as [[results cache2] probed].
  destruct IH as (Hresults & Hprobed & Hkeep).
  assert (Hsame : forall g', g' ∈ rest -> cache1 !! id g' = cache !! id g').
  { intros g' Hg'. apply Hother. intros Heq. apply Hg. rewrite <- Heq.
    apply list_elem_of_In, in_map. by apply list_elem_of_In. }
  split; [| split].
  - cbn [map]. rewrite Hh. f_equal. rewrite Hresults.
    apply map_ext_in. intros g' Hg'%list_elem_of_In.
    f_equal. by apply resolved_ext, Hsame.
  - assert (Hrest : filter (stale meets cache1) rest = filter (stale meets cache) rest).
    { apply filter_ext_in. intros g' Hg'. by apply resolved_ext, Hsame. }
    rewrite Hprobed, Hrest, filter_cons.
    destruct (decide (stale meets cache g)) as [Hs | Hs]; unfold stale in Hs.
    + rewrite Hs in Hn. by subst n.
    + apply not_false_is_true in Hs. rewrite Hs in Hn. by subst n.
  - intros k Hk. cbn [map] in Hk. apply not_elem_of_cons in Hk as [Hk1 Hk2].
    rewrite (Hkeep k Hk2). by apply Hother.
Qed.

Lemma GATEWAYS_ids : NoDup (map id GATEWAYS).
Proof.
  apply (bool_decide_unpack _). by vm_compute.
Qed.

Lemma gets_sent probed targets :
  heads (map Head probed ++ map Get targets) = probed /\
  gets (map Head probed ++ map Get targets) = targets.
Proof.
  assert (H1 : forall l, heads (map Head l) = l).
  { induction l as [| t l IH]; [done |]. unfold heads in *. cbn. by rewrite IH. }
  assert (H2 : forall l, heads (map Get l) = []).
  { induction l as [| t l IH]; [done |]. unfold heads in *. cbn. exact IH. }
  assert (H3 : forall l, gets (map Head l) = []).
  { induction l as [| t l IH]; [done |]. unfold gets in *. cbn. exact IH. }
  assert (H4 : forall l, gets (map Get l) = l).
  { induction l as [| t l IH]; [done |]. unfold gets in *. cbn. by rewrite IH. }
  split.
  - transitivity (heads (map Head probed) ++ heads (map Get targets));
      [apply omap_app |]. by rewrite H1, H2, app_nil_r.
  - transitivity (gets (map Head probed) ++ gets (map Get targets));
      [apply omap_app |]. by rewrite H3, H4.
Qed.

(** X11. Every request [fetchWithFailover] sends, counting the probes of
    the health checks it starts with. First come the probes: one HEAD
    request for the test locator to each configured gateway that has no
    cache entry younger than a minute, in the configured order, so six at
    most and none when every entry is fresh. Then come the requests for
    the content, which are those of the retrieval on the statuses the
    checks resolved to, with its outcome: when some gateway is healthy
    every one of them goes to a healthy gateway, and when none is they go
    to the first three configured gateways, in that order, and to no
    other. At most twelve requests are sent in all, at most nine when no
    gateway is healthy, and the cache entries of other keys than the
    gateways' are left alone. *)
Theorem fetchWithFailover_candidates meets fetch c
    (healthCache : gmap string CachedHealth) :
  let check := resolved meets healthCache in
  let '(r, sent, cache') := fetchWithFailover_from meets fetch c healthCache in
  r = fst (fetchWithFailover check fetch c) /\
  sent = map Head (heads sent) ++ map Get (gets sent) /\
  heads sent =
    map (fun g => url g +:+ TEST_CID) (filter (stale meets healthCache) GATEWAYS) /\
  ((forall g, g ∈ GATEWAYS -> ~ stale meets healthCache g) -> heads sent = []) /\
  gets sent = requests (snd (fetchWithFailover check fetch c)) /\
  ((exists g, g ∈ GATEWAYS /\ healthy (check g) = true) ->
   Forall (fun t => exists g, g ∈ GATEWAYS /\ healthy (check g) = true /\
                              t = url g +:+ c) (gets sent)) /\
  ((forall g, g ∈ GATEWAYS -> healthy (check g) = false) ->
   gets sent `prefix_of` ["https://w3s.link/ipfs/" +:+ c;
                          "https://dweb.link/ipfs/" +:+ c;
                          "https://ipfs.io/ipfs/" +:+ c] /\
   (length sent <= 9)%nat) /\
  (length (heads sent) <= 6)%nat /\
  (length sent <= 12)%nat /\
  (forall k, k ∉ map id GATEWAYS -> cache' !! k = healthCache !! k).
Proof.
  intros check.
  unfold fetchWithFailover_from, getGatewaysWithHealth_from.
  pose proof (check_all_spec meets GATEWAYS healthCache GATEWAYS_ids) as Hspec.
  destruct (check_all meets GATEWAYS healthCache) as [[results cache'] probed].
  destruct Hspec as (Hresults & Hprobed & Hkeep).
  assert (Hranked : sort compare results = getGatewaysWithHealth check)
    by (by rewrite Hresults).
  rewrite Hranked.
  pose proof (content_requests_candidates check fetch c) as Hcontent.
  cbn zeta in Hcontent. unfold fetchWithFailover in *.
  pose proof (requests_prefix fetch c
                (gatewaysToTry (getGatewaysWithHealth check)) None) as Hpre.
  destruct (try_gateways fetch c (gatewaysToTry (getGatewaysWithHealth check)) None)
    as [r effects].
  cbn [fst snd] in *.
  destruct (gets_sent probed (requests effects)) as [Hheads Hgets].
  rewrite Hheads, Hgets.
  assert (Hsix : (length probed <= 6)%nat).
  { rewrite Hprobed, length_map.
    etransitivity; [apply length_filter | done]. }
  assert (Htries : (length (requests effects) <= 6)%nat).
  { apply prefix_length in Hpre. rewrite length_map in Hpre.
    etransitivity; [exact Hpre |].
    unfold gatewaysToTry.
    assert (Hall : length (getGatewaysWithHealth check) = 6%nat).
    { unfold getGatewaysWithHealth. by rewrite sort_perm. }
    destruct (0 <? _).
    - etransitivity; [apply length_filter |]. by rewrite Hall.
    - rewrite length_take. lia. }
  destruct Hcontent as [Hhealthy Hnone].
  split; [done |]. split; [done |]. split; [done |]. split.
  { intros Hfresh. rewrite Hprobed.
    assert (Hempty : filter (stale meets healthCache) GATEWAYS = []).
    { by apply filter_none. }
    by rewrite Hempty. }
  split; [done |]. split; [done |]. split.
  { intros Hdown. specialize (Hnone Hdown). split; [done |].
    apply prefix_length in Hnone. rewrite length_app, !length_map.
    cbn [length] in Hnone. lia. }
  split; [done |]. split; [| done].
  rewrite length_app, !length_map. lia.
Qed.

(** With an empty cache all six gateways are probed, in the configured
    order, before the requests for the content, which go to the two
    gateways found healthy. *)
Lemma fetchWithFailover_candidates_witness :
  snd (fst (fetchWithFailover_from meets_two fetch_all_unavailable "bafy-one" ∅)) =
    map Head (map (fun g => url g +:+ TEST_CID) GATEWAYS) ++
    [Get "https://w3s.link/ipfs/bafy-one"; Get "https://dweb.link/ipfs/bafy-one"].
Proof.
  pose proof (fetchWithFailover_candidates meets_two fetch_all_unavailable
                "bafy-one" ∅) as H.
  cbn zeta in H.
  destruct (fetchWithFailover_from meets_two fetch_all_unavailable "bafy-one" ∅)
    as [[r sent] cache'].
  destruct H as (_ & Hsent & Hheads & _ & Hgets & _).
  cbn [fst snd]. rewrite Hsent, Hheads, Hgets. reflexivity.
Defined.

(** *** The health cache *)

Lemma checkGatewayHealth_hit now finished probe g (cache : gmap string CachedHealth) c :
  cache !! id g = Some c ->
  now - cached_at c < HEALTH_CHECK_INTERVAL ->
  checkGatewayHealth now finished probe g cache = (status c, cache, 0%nat).
Proof.
  intros Hc Hfresh. unfold checkGatewayHealth. rewrite Hc.
  apply Z.ltb_lt in Hfresh. by rewrite Hfresh.
Qed.

(** X12. [checkGatewayHealth] sends at most one probe. With an entry for
    the gateway younger than a minute it sends none, returns the cached
    status and leaves the cache alone. Otherwise it probes once, a timeout
    being reported as the error "Timeout", and stores what it returns
    under the gateway's identifier with the time the probe ended; every
    call for that gateway whose lookup falls less than a minute after that
    time returns the same status without probing. The entries of the other
    gateways are never touched. *)
Theorem checkGatewayHealth_cached now finished probe g
    (cache : gmap string CachedHealth) :
  let '(result, cache', sent) := checkGatewayHealth now finished probe g cache in
  (forall k, k <> id g -> cache' !! k = cache !! k) /\
  (sent = 0%nat /\ cache' = cache /\
   (exists c, cache !! id g = Some c /\
              now - cached_at c < HEALTH_CHECK_INTERVAL /\ result = status c)
   \/
   sent = 1%nat /\
   (forall c, cache !! id g = Some c -> HEALTH_CHECK_INTERVAL <= now - cached_at c) /\
   cache' = <[id g := mkCachedHealth result finished]> cache /\
   lastChecked result = finished /\
   (probe = Aborted -> error result = Some "Timeout" /\ healthy result = false) /\
   (forall now2 finished2 probe2,
      now2 - finished < HEALTH_CHECK_INTERVAL ->
      checkGatewayHealth now2 finished2 probe2 g cache' = (result, cache', 0%nat))).
Proof.
  unfold checkGatewayHealth at 1.
  destruct (cache !! id g) as [c |] eqn:Ec;
    [destruct (Z.ltb_spec (now - cached_at c) HEALTH_CHECK_INTERVAL)
       as [Hfresh | Hold] |].
  1: { split; [done |]. left. repeat split. by exists c. }
  all: cbn beta iota zeta.
  all: split; [intros k Hk; by rewrite lookup_insert_ne |].
  all: right; split; [done |].
  all: split; [intros c' Hc'; first [discriminate Hc' | by injection Hc' as <-] |].
  all: split; [done |].
  all: split; [by destruct probe |].
  all: split; [by intros -> |].
  all: intros now2 finished2 probe2 Hfresh2.
  all: match goal with
       | |- checkGatewayHealth _ _ _ _ (<[_ := ?e]> _) = _ =>
           apply (checkGatewayHealth_hit now2 finished2 probe2 g _ e);
           [apply lookup_insert_eq | done]
       end.
Qed.

(** X13. The statuses are well formed and stay so: what a probe writes is
    healthy only together with a measured latency and no error, and has no
    latency only together with an error; so if every cached status is well
    formed, the status returned and every status cached afterwards are. *)
Theorem checkGatewayHealth_well_formed now finished probe g
    (cache : gmap string CachedHealth) :
  map_Forall (fun _ c => well_formed_status (status c)) cache ->
  let '(result, cache', _) := checkGatewayHealth now finished probe g cache in
  well_formed_status result /\
  map_Forall (fun _ c => well_formed_status (status c)) cache'.
Proof.
  intros Hwf. unfold checkGatewayHealth.
  assert (Hprobe : well_formed_status
            match probe with
            | Answered ok elapsed => mkHealth ok (Some elapsed) finished None
            | Aborted => mkHealth false None finished (Some "Timeout")
            | Failed reason => mkHealth false None finished (Some reason)
            end).
  { destruct probe as [ok elapsed | | reason]; split; simpl; try done;
      intros; split; eauto. }
  assert (Hnew : forall result,
            well_formed_status result ->
            well_formed_status result /\
            map_Forall (fun _ c => well_formed_status (status c))
                       (<[id g := mkCachedHealth result finished]> cache)).
  { intros result Hr. split; [done |]. by apply map_Forall_insert_2. }
  destruct (cache !! id g) as [c |] eqn:Ec.
  - destruct (now - cached_at c <? HEALTH_CHECK_INTERVAL).
    + split; [| done]. by apply (Hwf (id g) c).
    + by apply Hnew.
  - by apply Hnew.
Qed.

Lemma checkGatewayHealth_well_formed_witness :
  well_formed_status
    (fst (fst (checkGatewayHealth 0 120 (Answered true 120)
                 (mkGateway "w3s" "Web3.Storage" "https://w3s.link/ipfs/" 1 "primary")
                 ∅))).
Proof.
  pose proof (checkGatewayHealth_well_formed 0 120 (Answered true 120)
                (mkGateway "w3s" "Web3.Storage" "https://w3s.link/ipfs/" 1 "primary")
                ∅) as H.
  destruct (checkGatewayHealth _ _ _ _ _) as [[result cache'] sent].
  apply H. apply map_Forall_empty.
Defined.

(** *** The preferred gateway *)

Lemma find_configured gatewayId g :
  find (fun g => String.eqb (id g) gatewayId) GATEWAYS = Some g ->
  g ∈ GATEWAYS /\ id g = gatewayId.
Proof.
  intros H. apply find_some in H as [Hin Hid].
  split; [by apply list_elem_of_In | by apply String.eqb_eq].
Qed.

(** X14. The preferred gateway is always a configured one. After
    [setPreferredGateway] with the identifier of a configured gateway,
    [getPreferredGateway] returns the gateway with that identifier; with
    any other identifier, or nothing stored, it returns the first
    configured gateway. [getGatewayUrl] on the identifier of the preferred
    gateway is that gateway's address followed by the locator, and on an
    unknown identifier it is the address at "w3s.link". *)
Theorem getPreferredGateway_configured saved gatewayId c :
  (exists g, getPreferredGateway saved = Some g /\ g ∈ GATEWAYS /\
             getGatewayUrl (id g) c = url g +:+ c) /\
  (forall g, g ∈ GATEWAYS -> id g = gatewayId ->
     getPreferredGateway (setPreferredGateway gatewayId saved) = Some g) /\
  ((forall g, g ∈ GATEWAYS -> id g <> gatewayId) ->
   getPreferredGateway (setPreferredGateway gatewayId saved) = head GATEWAYS /\
   getGatewayUrl gatewayId c = "https://w3s.link/ipfs/" +:+ c).
Proof.
  assert (Hfind : forall g, g ∈ GATEWAYS ->
            find (fun g' => String.eqb (id g') (id g)) GATEWAYS = Some g).
  { intros g Hg. unfold GATEWAYS in Hg.
    repeat (apply elem_of_cons in Hg as [-> | Hg]; [reflexivity |]).
    by apply elem_of_nil in Hg. }
  assert (Hhead : exists g0, head GATEWAYS = Some g0 /\ g0 ∈ GATEWAYS).
  { eexists. split; [reflexivity |]. apply elem_of_cons. by left. }
  assert (Hnone : (forall g, g ∈ GATEWAYS -> id g <> gatewayId) ->
            find (fun g => String.eqb (id g) gatewayId) GATEWAYS = None).
  { intros Hno.
    destruct (find _ GATEWAYS) as [g |] eqn:E; [| done].
    apply find_configured in E as [Hin Hid]. by destruct (Hno g Hin). }
  split; [| split].
  - destruct Hhead as (g0 & Hh & Hg0).
    assert (Hdefault : exists g, head GATEWAYS = Some g /\ g ∈ GATEWAYS /\
                                 getGatewayUrl (id g) c = url g +:+ c).
    { exists g0. split; [done |]. split; [done |].
      unfold getGatewayUrl. by rewrite (Hfind g0 Hg0). }
    unfold getPreferredGateway. destruct saved as [s |]; [| exact Hdefault].
    destruct (String.eqb s ""); [exact Hdefault |].
    destruct (find (fun g => String.eqb (id g) s) GATEWAYS) as [g |] eqn:E;
      [| exact Hdefault].
    apply find_configured in E as [Hin Hid].
    exists g. split; [done |]. split; [done |].
    unfold getGatewayUrl. by rewrite (Hfind g Hin).
  - intros g Hg <-. unfold setPreferredGateway, getPreferredGateway.
    rewrite (Hfind g Hg).
    destruct (String.eqb_spec (id g) ""); [| done].
    unfold GATEWAYS in Hg.
    repeat (apply elem_of_cons in Hg as [-> | Hg]; [discriminate |]).
    by apply elem_of_nil in Hg.
  - intros Hno. split.
    + unfold setPreferredGateway, getPreferredGateway.
      rewrite (Hnone Hno). by destruct (String.eqb gatewayId "").
    + unfold getGatewayUrl. by rewrite (Hnone Hno).
Qed.

End GatewayChoice.

(** ** Deal tracking: the simulation, the parsed answer, the edges *)

Section DealShapes.

Import Deals.
Local Open Scope Z_scope.

Lemma char_sum_nonneg c : 0 <= char_sum c.
Proof. induction c as [| a c IH]; simpl; lia. Qed.

(** The simulation, case by case on the sum of the character codes. *)
Lemma simulateDealInfo_cases now c :
  (char_sum c mod 3 = 0 /\
   simulateDealInfo now c =
     mkDealInfo PENDING [] None None None true (Some "Deal aggregation in progress"))
  \/
  (char_sum c mod 3 = 1 /\
   simulateDealInfo now c =
     mkDealInfo ACTIVE
       [simulated_deal now c 0 "f01234"; simulated_deal now c 1 "f05678"]
       (Some true) None None true None)
  \/
  (char_sum c mod 3 = 2 /\
   simulateDealInfo now c =
     mkDealInfo ACTIVE
       [simulated_deal now c 0 "f01234"; simulated_deal now c 1 "f05678";
        simulated_deal now c 2 "f09012"]
       (Some true) None None true None).
Proof.
  pose proof (Z.mod_pos_bound (char_sum c) 3 ltac:(lia)) as Hb.
  assert (Hm : char_sum c mod 3 = 0 \/ char_sum c mod 3 = 1 \/ char_sum c mod 3 = 2)
    by lia.
  unfold simulateDealInfo.
  destruct Hm as [Hm | [Hm | Hm]]; rewrite Hm;
    [left | right; left | right; right]; split; done.
Qed.

Lemma running_simulated now c n p : (n <= 2)%nat -> running now (simulated_deal now c n p).
Proof.
  intros Hn. unfold running, simulated_deal, dayMs. simpl. lia.
Qed.

(** X15. What the fallback simulation returns. When the sum of the
    character codes of the locator is a multiple of three: no deal, status
    pending, health score 40 "Pending". Otherwise: status active and two or
    three deals (never one), all active, with the first providers of the
    fixed list, each deal created and activated before the time of the
    call and expiring after it; the health score is 80 "Good" with two
    deals and 100 "Excellent" with three. *)
Theorem simulateDealInfo_shape now c :
  let info := simulateDealInfo now c in
  simulated info = true /\
  (char_sum c mod 3 = 0 ->
   info_status info = PENDING /\ deals info = [] /\
   getDealHealthScore (Some info) = mkHealthScore 40 "Pending" "yellow") /\
  (char_sum c mod 3 <> 0 ->
   info_status info = ACTIVE /\
   length (deals info) = Z.to_nat (char_sum c mod 3 + 1) /\
   (length (deals info) = 2%nat \/ length (deals info) = 3%nat) /\
   map provider (deals info) =
     take (length (deals info)) ["f01234"; "f05678"; "f09012"] /\
   Forall (fun d => status d = ACTIVE /\ running now d) (deals info) /\
   getDealHealthScore (Some info) =
     if (length (deals info) =? 2)%nat
     then mkHealthScore 80 "Good" "green"
     else mkHealthScore 100 "Excellent" "green").
Proof.
  intros info. subst info.
  destruct (simulateDealInfo_cases now c) as [[Hm ->] | [[Hm ->] | [Hm ->]]].
  - split; [done |]. split; [done |]. intros Hne. by destruct Hne.
  - split; [done |]. split; [intros Hz; lia |]. intros _. rewrite Hm.
    repeat split; try done; [by left | ].
    repeat constructor; apply running_simulated; lia.
  - split; [done |]. split; [intros Hz; lia |]. intros _. rewrite Hm.
    repeat split; try done; [by right | ].
    repeat constructor; apply running_simulated; lia.
Qed.

Lemma simulateDealInfo_shape_witness :
  getDealHealthScore (Some (simulateDealInfo 0 "bafy-one")) =
    mkHealthScore 100 "Excellent" "green".
Proof.
  destruct (simulateDealInfo_shape 0 "bafy-one") as (_ & _ & H).
  destruct H as (_ & _ & _ & _ & _ & Hscore); [vm_compute; discriminate |].
  rewrite Hscore. vm_compute. reflexivity.
Defined.

Lemma simulated_dealId_distinct c i j :
  char_sum c mod 3 <> 0 -> (i <= 2)%nat -> (j <= 2)%nat -> i <> j ->
  simulated_dealId c i <> simulated_dealId c j.
Proof.
  intros Hm Hi Hj Hij. unfold simulated_dealId.
  assert (Hcases : (i = 0 \/ i = 1 \/ i = 2)%nat /\ (j = 0 \/ j = 1 \/ j = 2)%nat)
    by lia.
  destruct Hcases as [[-> | [-> | ->]] [-> | [-> | ->]]]; try done; simpl;
    remember (char_sum c) as h; clear Heqh;
    intros Heq; apply Hm; clear Hm Hi Hj Hij;
    Z.div_mod_to_equations; lia.
Qed.

(** X16. The simulated deals of one summary have pairwise different
    identifiers, each the decimal writing of a number between 1000000 and
    1999998. *)
Theorem simulateDealInfo_dealIds now c :
  let info := simulateDealInfo now c in
  NoDup (map dealId (deals info)) /\
  Forall (fun s => exists z, s = pretty z /\ 1000000 <= z <= 1999998)
         (map dealId (deals info)).
Proof.
  intros info. subst info.
  assert (Hrange : forall n,
            exists z, pretty (simulated_dealId c n) = pretty z /\
                      1000000 <= z <= 1999998).
  { intros n. exists (simulated_dealId c n). split; [done |].
    unfold simulated_dealId.
    pose proof (Z.mod_pos_bound (char_sum c * (Z.of_nat n + 1)) 999999 ltac:(lia)).
    lia. }
  assert (Hne : forall i j, char_sum c mod 3 <> 0 ->
            (i <= 2)%nat -> (j <= 2)%nat -> i <> j ->
            pretty (simulated_dealId c i) <> pretty (simulated_dealId c j)).
  { intros i j Hm Hi Hj Hij Heq. apply (inj pretty) in Heq.
    by apply (simulated_dealId_distinct c i j). }
  destruct (simulateDealInfo_cases now c) as [[Hm ->] | [[Hm ->] | [Hm ->]]].
  - split; [apply NoDup_nil_2 | constructor].
  - split.
    + cbn [deals map dealId simulated_deal]. fold (simulated_dealId c 0).
      fold (simulated_dealId c 1).
      apply NoDup_cons. split; [| apply NoDup_singleton].
      rewrite list_elem_of_singleton. apply Hne; lia.
    + repeat constructor; apply Hrange.
  - split.
    + cbn [deals map dealId simulated_deal]. fold (simulated_dealId c 0).
      fold (simulated_dealId c 1). fold (simulated_dealId c 2).
      apply NoDup_cons. split.
      * rewrite elem_of_cons, list_elem_of_singleton.
        intros [H | H]; revert H; apply Hne; lia.
      * apply NoDup_cons. split; [| apply NoDup_singleton].
        rewrite list_elem_of_singleton. apply Hne; lia.
    + repeat constructor; apply Hrange.
Qed.

(** *** The parsed answer *)

Lemma existsb_is_status s (l : list Deal) :
  existsb (is_status s) l = true <-> Exists (fun d => status d = s) l.
Proof.
  rewrite existsb_exists, Exists_exists. unfold is_status.
  split; intros (d & Hin & Hd); exists d.
  - split; [by apply list_elem_of_In | by apply bool_decide_eq_true in Hd].
  - split; [by apply list_elem_of_In | by apply bool_decide_eq_true].
Qed.

Lemma activeCount_pos info : 0 < activeCount info <-> has_status ACTIVE info.
Proof.
  unfold activeCount, has_status.
  induction (deals info) as [| d l IH]; simpl.
  - split; [lia | by intros H%Exists_nil].
  - rewrite filter_cons, Exists_cons. case_decide as Hd; simpl.
    + split; [by left | lia].
    + rewrite IH. split; [by right | by intros [? | ?]].
Qed.

Lemma mapDealStatus_found s : mapDealStatus s <> NOT_FOUND.
Proof.
  unfold mapDealStatus. destruct (Js.toLowerCase <$> s) as [t |]; [| done].
  repeat (match goal with
          | |- context [match ?x with EmptyString => _ | String _ _ => _ end] =>
              destruct x; try done
          | |- context [match ?a with Ascii.Ascii _ _ _ _ _ _ _ _ => _ end] =>
              destruct a as [[] [] [] [] [] [] [] []]; try done
          end).
Qed.

(** X17. The summary parsed from an answer of the status service has one
    deal per deal of the answer, and neither it nor any of its deals has the status
    not_found. Its status
    is active exactly when some deal is active, pending exactly when none
    is active and some is pending, unknown exactly when there is no deal,
    and expired in every other case, also when the deals are slashed or of
    unknown status. Its health score is never 0 "No Data": it is at least
    60 exactly when some deal is active, 40 exactly when none is active
    and some is pending, and 20 otherwise. *)
Theorem parseW3SResponse_health data :
  let info := parseW3SResponse data in
  let r := getDealHealthScore (Some info) in
  length (deals info) = length (w3s_deals data) /\
  Forall (fun d => status d <> NOT_FOUND) (deals info) /\
  info_status info <> NOT_FOUND /\
  (info_status info = ACTIVE <-> has_status ACTIVE info) /\
  (info_status info = PENDING <->
     ~ has_status ACTIVE info /\ has_status PENDING info) /\
  (info_status info = UNKNOWN <-> deals info = []) /\
  (info_status info = EXPIRED <->
     deals info <> [] /\ ~ has_status ACTIVE info /\ ~ has_status PENDING info) /\
  score r <> 0 /\
  (60 <= score r <-> has_status ACTIVE info) /\
  (score r = 40 <-> ~ has_status ACTIVE info /\ has_status PENDING info) /\
  (score r = 20 <-> ~ has_status ACTIVE info /\ ~ has_status PENDING info).
Proof.
  intros info r.
  set (ds := deals info).
  assert (Hlen : length ds = length (w3s_deals data)) by apply length_map.
  assert (Hstatus : info_status info =
            if existsb (is_status ACTIVE) ds then ACTIVE
            else if existsb (is_status PENDING) ds then PENDING
            else if 0 <? Z.of_nat (length ds) then EXPIRED else UNKNOWN) by done.
  assert (Hfound : Forall (fun d => status d <> NOT_FOUND) ds).
  { apply Forall_forall. intros d Hd. apply list_elem_of_In in Hd.
    apply in_map_iff in Hd as (w & <- & _). apply mapDealStatus_found. }
  clearbody info.
  pose proof (existsb_is_status ACTIVE ds) as HA.
  pose proof (existsb_is_status PENDING ds) as HP.
  fold (has_status ACTIVE info) in HA. fold (has_status PENDING info) in HP.
  assert (Hempty : ds = [] -> ~ has_status ACTIVE info /\ ~ has_status PENDING info).
  { unfold has_status. fold ds. intros ->. split; by intros H%Exists_nil. }
  assert (Hnil : (0 <? Z.of_nat (length ds)) = false <-> ds = []).
  { rewrite Z.ltb_ge. destruct ds; simpl; split; try done; lia. }
  assert (Hroll :
    info_status info <> NOT_FOUND /\
    (info_status info = ACTIVE <-> has_status ACTIVE info) /\
    (info_status info = PENDING <->
       ~ has_status ACTIVE info /\ has_status PENDING info) /\
    (info_status info = UNKNOWN <-> ds = []) /\
    (info_status info = EXPIRED <->
       ds <> [] /\ ~ has_status ACTIVE info /\ ~ has_status PENDING info)).
  { rewrite Hstatus.
    destruct (existsb (is_status ACTIVE) ds) eqn:EA;
      [| destruct (existsb (is_status PENDING) ds) eqn:EP;
         [| destruct (0 <? Z.of_nat (length ds)) eqn:EL]].
    - assert (has_status ACTIVE info) by (by apply HA).
      repeat split; try done; try tauto;
        try (intros ->; by destruct (Hempty eq_refl)).
    - assert (~ has_status ACTIVE info) by (intros ?%HA; done).
      assert (has_status PENDING info) by (by apply HP).
      repeat split; try done; try tauto;
        try (intros ->; by destruct (Hempty eq_refl)).
    - assert (~ has_status ACTIVE info) by (intros ?%HA; done).
      assert (~ has_status PENDING info) by (intros ?%HP; done).
      assert (ds <> []) by (intros ?%Hnil; congruence).
      repeat split; try done; try tauto.
    - assert (~ has_status ACTIVE info) by (intros ?%HA; done).
      assert (~ has_status PENDING info) by (intros ?%HP; done).
      assert (ds = []) by (by apply Hnil).
      repeat split; try done; try tauto. }
  destruct Hroll as (Hnf & HrA & HrP & HrU & HrE).
  split; [done |]. split; [done |]. split; [done |]. split; [done |].
  split; [done |]. split; [done |]. split; [done |].
  pose proof (activeCount_pos info) as Hcount.
  assert (Hn : 0 <= activeCount info) by (unfold activeCount; lia).
  unfold r, getDealHealthScore.
  rewrite bool_decide_eq_false_2 by done.
  destruct (Z.leb_spec 3 (activeCount info));
    [| destruct (Z.leb_spec 2 (activeCount info));
       [| destruct (Z.eqb_spec (activeCount info) 1)]]; simpl.
  1-3: assert (has_status ACTIVE info) by (apply Hcount; lia).
  1-3: repeat split; try done; try lia; try tauto.
  assert (Hno : ~ has_status ACTIVE info) by (intros ?%Hcount; lia).
  destruct (bool_decide_reflect (info_status info = PENDING)) as [Hp | Hp]; simpl.
  - apply HrP in Hp as [_ Hp].
    repeat split; try done; try lia; try tauto.
  - assert (~ has_status PENDING info) by (intros ?; apply Hp; by apply HrP).
    repeat split; try done; try lia; try tauto.
Qed.

(** *** A store that refuses the write *)

Lemma getCachedDeal_stays_missing now later c (cache : gmap string Entry) :
  getCachedDeal now c cache = None -> now <= later ->
  getCachedDeal later c cache = None.
Proof.
  unfold getCachedDeal. destruct (cache !! c) as [entry |]; [| done].
  destruct (Z.ltb_spec (now - timestamp entry) DEAL_CACHE_TTL); [done |].
  intros _ Hlater.
  destruct (Z.ltb_spec (later - timestamp entry) DEAL_CACHE_TTL); [lia | done].
Qed.

(** X18. When the store refuses the write, [getDealInfo] still returns
    what it fetched, and leaves the cache as it found it; nothing then
    spares the next request: every later call for the locator, its clock
    not behind the first, finds no fresh entry either and asks the service
    again. The empty locator is answered not_found without a request. *)
Theorem getDealInfo_unwritable call1 call2 c (cache : gmap string Entry) :
  c <> "" ->
  getCachedDeal (at_lookup call1) c cache = None ->
  writable call1 = false ->
  at_lookup call1 <= at_lookup call2 ->
  getDealInfo call1 c cache =
    (fetchDealFromW3S (at_fallback call1) (reply call1) c, cache, 1%nat) /\
  fst (fst (getDealInfo call2 c cache)) =
    fetchDealFromW3S (at_fallback call2) (reply call2) c /\
  snd (getDealInfo call2 c cache) = 1%nat /\
  getDealInfo call1 "" cache = (not_found, cache, 0%nat).
Proof.
  intros Hc Hmiss Hw Hlater.
  pose proof (getCachedDeal_stays_missing _ _ _ _ Hmiss Hlater) as Hmiss2.
  rewrite !getDealInfo_miss by done.
  unfold cacheDeal. rewrite Hw. done.
Qed.

Lemma getDealInfo_unwritable_witness :
  getDealInfo call_full "bafy-one" ∅ =
    (simulateDealInfo 0 "bafy-one", ∅, 1%nat) /\
  snd (getDealInfo call_offline_2 "bafy-one" ∅) = 1%nat.
Proof.
  destruct (getDealInfo_unwritable call_full call_offline_2 "bafy-one" ∅)
    as (H1 & _ & H2 & _).
  - discriminate.
  - reflexivity.
  - reflexivity.
  - vm_compute. discriminate.
  - split; [exact H1 | exact H2].
Defined.

End DealShapes.

(** ** Webhooks: the store, the triggers, the counters and the logs *)

Section WebhookStore.

Import Webhooks.
Local Open Scope Z_scope.

(** *** The functions on a list with one more entry in front *)

Lemma getWebhookById_cons i w ws :
  getWebhookById i (w :: ws) =
  if decide (id w = i) then Some w else getWebhookById i ws.
Proof.
  unfold getWebhookById. simpl. case_decide; [done |].
  by destruct (list_find _ ws) as [[k v] |].
Qed.

Lemma updateWebhookStats_cons j ok now w ws :
  updateWebhookStats j ok now (w :: ws) =
  if decide (id w = j) then counted ok now w :: ws
  else w :: updateWebhookStats j ok now ws.
Proof.
  unfold updateWebhookStats. simpl. case_decide; [done |].
  by destruct (list_find _ ws) as [[k v] |].
Qed.

Lemma updateWebhook_cons i u w ws :
  snd (updateWebhook i u (w :: ws)) =
  if decide (id w = i) then apply_updates u w :: ws
  else w :: snd (updateWebhook i u ws).
Proof.
  unfold updateWebhook. simpl. case_decide; [done |].
  by destruct (list_find _ ws) as [[k v] |].
Qed.

Lemma deleteWebhook_cons i w ws :
  deleteWebhook i (w :: ws) =
  if decide (id w = i) then deleteWebhook i ws else w :: deleteWebhook i ws.
Proof.
  unfold deleteWebhook. rewrite filter_cons.
  case_decide; case_decide; done.
Qed.


Lemma getWebhookById_None i ws :
  getWebhookById i ws = None <-> Forall (fun w => id w <> i) ws.
Proof.
  unfold getWebhookById. rewrite fmap_None. apply list_find_None.
Qed.

Lemma getWebhookById_Some i ws w :
  getWebhookById i ws = Some w -> w ∈ ws /\ id w = i.
Proof.
  unfold getWebhookById. intros ([k v] & Hfind & ->)%fmap_Some.
  apply list_find_Some in Hfind as (Hlook & Hid & _).
  split; [by eapply list_elem_of_lookup_2 | done].
Qed.

Lemma getWebhookById_app i l1 l2 :
  getWebhookById i (l1 ++ l2) =
  match getWebhookById i l1 with
  | Some v => Some v
  | None => getWebhookById i l2
  end.
Proof.
  induction l1 as [| w l1 IH]; [done |].
  rewrite <- app_comm_cons, !getWebhookById_cons. by case_decide.
Qed.

(** *** Creation *)

(** X19. [createWebhook] checks the address, then the events, then that
    the address parses, and leaves the store as it was when it throws.
    When it succeeds the store is the old list followed by the new
    webhook, which is enabled, never triggered, with both counters at zero,
    and from then on receives a request for each of its events. Every
    other identifier finds what it found before. The new identifier finds
    the new webhook when no stored webhook had it already; the uniqueness
    of the identifier is not checked, and an older webhook of the same
    identifier keeps answering for it. *)
Theorem createWebhook_stored parses new_id now config (webhooks : list Webhook) :
  match createWebhook parses new_id now config webhooks with
  | (inr w, stored) =>
      stored = webhooks ++ [w] /\
      id w = new_id /\ enabled w = true /\ lastTriggered w = None /\
      successCount w = 0 /\ failCount w = 0 /\ createdAt w = now /\
      config_url config = Some (url w) /\ url w <> "" /\
      parses (url w) = true /\
      events w = default [] (config_events config) /\ events w <> [] /\
      name w = default "Unnamed Webhook" (config_name config) /\
      secret w = default None (config_secret config) /\
      (forall i, i <> new_id ->
         getWebhookById i stored = getWebhookById i webhooks) /\
      (Forall (fun v => id v <> new_id) webhooks ->
         getWebhookById new_id stored = Some w) /\
      (forall v, getWebhookById new_id webhooks = Some v ->
         getWebhookById new_id stored = Some v) /\
      (forall at_trigger event, event ∈ events w ->
         triggerWebhook at_trigger event stored =
         triggerWebhook at_trigger event webhooks ++ [request_of at_trigger event w])
  | (inl e, stored) =>
      stored = webhooks /\
      match e with
      | UrlRequired => config_url config = None \/ config_url config = Some ""
      | EventRequired =>
          (exists u, config_url config = Some u /\ u <> "") /\
          default [] (config_events config) = []
      | InvalidUrl =>
          (exists u, config_url config = Some u /\ u <> "" /\ parses u = false) /\
          default [] (config_events config) <> []
      end
  end.
Proof.
  unfold createWebhook.
  destruct (config_url config) as [[| a u] |] eqn:Eurl; [split; [done | by right] | |
    split; [done | by left]].
  set (address := String a u).
  destruct (default [] (config_events config)) as [| e es] eqn:Eevents.
  { simpl. split; [done |]. split; [by exists address | done]. }
  simpl. destruct (parses address) eqn:Eparses; simpl.
  - set (w := mkWebhook _ _ _ _ _ _ _ _ _ _).
    repeat (split; [done |]).
    split; [| split; [| split]].
    + intros i Hi. rewrite getWebhookById_app.
      destruct (getWebhookById i webhooks); [done |].
      rewrite getWebhookById_cons. case_decide; [| done]. by subst i.
    + intros Hfresh%getWebhookById_None. rewrite getWebhookById_app, Hfresh.
      rewrite getWebhookById_cons. by case_decide.
    + intros v Hv. by rewrite getWebhookById_app, Hv.
    + intros at_trigger event Hevent. unfold triggerWebhook.
      rewrite filter_app, map_app. f_equal.
      rewrite filter_cons_True; [done |].
      unfold eligible. simpl. by rewrite bool_decide_eq_true_2.
  - split; [done |]. split; [| done]. by exists address.
Qed.

(** *** Deletion *)

Lemma getWebhookById_deleted i ws : getWebhookById i (deleteWebhook i ws) = None.
Proof.
  apply getWebhookById_None, Forall_forall.
  by intros w [Hid _]%list_elem_of_filter.
Qed.

Lemma getWebhookById_delete_other i j ws :
  j <> i -> getWebhookById j (deleteWebhook i ws) = getWebhookById j ws.
Proof.
  intros Hj. induction ws as [| w ws IH]; [done |].
  rewrite deleteWebhook_cons, getWebhookById_cons.
  destruct (decide (id w = i)) as [Hi | Hi].
  - rewrite IH. case_decide; [congruence | done].
  - rewrite getWebhookById_cons, IH. done.
Qed.

Lemma deleteWebhook_absent i ws :
  Forall (fun w => id w <> i) ws -> deleteWebhook i ws = ws.
Proof.
  induction 1 as [| w ws Hw _ IH]; [done |].
  rewrite deleteWebhook_cons, IH. by case_decide.
Qed.

Lemma triggerWebhook_ids now event ws :
  Forall (fun r => exists w, w ∈ ws /\ request_webhookId r = id w)
         (triggerWebhook now event ws).
Proof.
  apply Forall_forall. intros r Hr. unfold triggerWebhook in Hr.
  apply list_elem_of_In, in_map_iff in Hr as (w & <- & Hw).
  apply list_elem_of_In, list_elem_of_filter in Hw as [_ Hw]. by exists w.
Qed.

(** X20. [deleteWebhook] removes every webhook of the identifier and keeps
    the others in their order: afterwards [getWebhookById] finds nothing
    for the identifier and what it found before for any other,
    [updateWebhook] throws "Webhook not found", and no trigger sends a
    request in its name. Deleting again, or deleting an identifier that is
    not stored, changes nothing. *)
Theorem deleteWebhook_removes i (webhooks : list Webhook) :
  let stored := deleteWebhook i webhooks in
  getWebhookById i stored = None /\
  (forall j, j <> i -> getWebhookById j stored = getWebhookById j webhooks) /\
  stored `sublist_of` webhooks /\
  deleteWebhook i stored = stored /\
  (getWebhookById i webhooks = None -> stored = webhooks) /\
  (forall updates, updateWebhook i updates stored = (inl WebhookNotFound, stored)) /\
  (forall now event,
     Forall (fun r => request_webhookId r <> i) (triggerWebhook now event stored)).
Proof.
  intros stored.
  assert (Hgone : Forall (fun w => id w <> i) stored).
  { apply Forall_forall. by intros w [Hid _]%list_elem_of_filter. }
  split; [apply getWebhookById_deleted |].
  split; [intros j Hj; by apply getWebhookById_delete_other |].
  split; [apply sublist_filter |].
  split; [by apply deleteWebhook_absent |].
  split; [intros Hnone%getWebhookById_None; by apply deleteWebhook_absent |].
  split.
  - intros updates. unfold updateWebhook.
    by rewrite (proj2 (list_find_None (fun w => id w = i) stored) Hgone).
  - intros now event. pose proof (triggerWebhook_ids now event stored) as Hids.
    apply Forall_forall. intros r Hr.
    destruct (proj1 (Forall_forall _ _) Hids r Hr) as (w & Hw & ->).
    by apply (proj1 (Forall_forall _ _) Hgone).
Qed.

(** *** Triggers *)






(** *** Counters *)

Lemma getWebhookById_counted i j ok now ws :
  getWebhookById i (updateWebhookStats j ok now ws) =
  if decide (i = j) then counted ok now <$> getWebhookById i ws
  else getWebhookById i ws.
Proof.
  induction ws as [| w ws IH].
  - by case_decide.
  - rewrite updateWebhookStats_cons.
    destruct (decide (id w = j)) as [Hw | Hw].
    + rewrite !getWebhookById_cons.
      change (id (counted ok now w)) with (id w).
      destruct (decide (i = j)) as [-> | Hij];
        destruct (decide (id w = j)) as [Hj | Hj]; try done;
        destruct (decide (id w = i)) as [Hi | Hi]; congruence.
    + rewrite !getWebhookById_cons, IH.
      destruct (decide (id w = i)) as [Hi | Hi]; [| done].
      destruct (decide (i = j)); congruence.
Qed.

Lemma updateWebhookStats_ids j ok now ws :
  map id (updateWebhookStats j ok now ws) = map id ws.
Proof.
  induction ws as [| w ws IH]; [done |].
  rewrite updateWebhookStats_cons. case_decide; simpl; [done | by rewrite IH].
Qed.

Lemma deliveries_cons ok i c cs :
  deliveries ok i (c :: cs) =
  (if decide (settled_id c = i /\ delivered c = ok) then 1 else 0) +
  deliveries ok i cs.
Proof.
  unfold deliveries. rewrite filter_cons. case_decide; simpl; lia.
Qed.

(** X22. The counters count the deliveries. After any number of settled
    dispatches, in whatever order they settle, the webhook an identifier
    finds has its success counter raised by the number of those dispatches
    under its identifier that went through and its failure counter by the
    number that did not, and its identifier, name, address, events,
    secret, enabled flag and creation time are as before; an identifier
    that finds no webhook, the webhook having been deleted meanwhile,
    still finds none. The identifiers of the store stay in their order.
    The log takes one entry per dispatch, newest first, and holds the
    hundred newest. *)
Theorem dispatchWebhook_counts cs : forall s,
  let s' := foldl (fun s c => dispatchWebhook c s) s cs in
  map id (stored_webhooks s') = map id (stored_webhooks s) /\
  (forall i,
     match getWebhookById i (stored_webhooks s) with
     | Some w =>
         exists w',
           getWebhookById i (stored_webhooks s') = Some w' /\
           settings w' = settings w /\
           successCount w' = successCount w + deliveries true i cs /\
           failCount w' = failCount w + deliveries false i cs
     | None => getWebhookById i (stored_webhooks s') = None
     end) /\
  (cs <> [] ->
   stored_logs s' = take 100 (rev (map log_of cs) ++ stored_logs s)).
Proof.
  induction cs as [| c cs IH]; intros s.
  { split; [done |]. split; [| done].
    intros i. destruct (getWebhookById i (stored_webhooks s)) as [w |] eqn:E; [| done].
    exists w. unfold deliveries. simpl. split; [done |]. split; [done |]. lia. }
  simpl.
  set (s1 := dispatchWebhook c s).
  assert (Hids1 : map id (stored_webhooks s1) = map id (stored_webhooks s))
    by apply updateWebhookStats_ids.
  assert (Hfind1 : forall i,
    getWebhookById i (stored_webhooks s1) =
    if decide (i = settled_id c)
    then counted (delivered c) (counted_at c) <$> getWebhookById i (stored_webhooks s)
    else getWebhookById i (stored_webhooks s))
    by (intros i; apply getWebhookById_counted).
  assert (Hlogs1 : stored_logs s1 = take 100 (log_of c :: stored_logs s)) by done.
  assert (Hrest :
    map id (stored_webhooks (foldl (fun s c => dispatchWebhook c s) s1 cs)) =
      map id (stored_webhooks s1) /\
    (forall i,
       match getWebhookById i (stored_webhooks s1) with
       | Some w =>
           exists w',
             getWebhookById i
               (stored_webhooks (foldl (fun s c => dispatchWebhook c s) s1 cs)) = Some w' /\
             settings w' = settings w /\
             successCount w' = successCount w + deliveries true i cs /\
             failCount w' = failCount w + deliveries false i cs
       | None =>
           getWebhookById i
             (stored_webhooks (foldl (fun s c => dispatchWebhook c s) s1 cs)) = None
       end) /\
    stored_logs (foldl (fun s c => dispatchWebhook c s) s1 cs) =
      take 100 (rev (map log_of cs) ++ stored_logs s1)).
  { destruct (IH s1) as (H1 & H2 & H3). split; [done |]. split; [done |].
    destruct cs as [| c' cs']; [| by apply H3].
    change (stored_logs s1 = take 100 (stored_logs s1)).
    rewrite Hlogs1. by rewrite take_take. }
  clearbody s1. destruct Hrest as (Hids & Hfind & Hlogs).
  split; [congruence |]. split; [| intros _].
  - intros i. specialize (Hfind i). rewrite (Hfind1 i) in Hfind.
    rewrite !deliveries_cons.
    destruct (getWebhookById i (stored_webhooks s)) as [w |].
    + destruct (decide (i = settled_id c)) as [-> | Hi]; simpl in Hfind.
      * destruct Hfind as (w' & Hw' & Hset & Hok & Hfail).
        exists w'. split; [done |]. split; [done |]. simpl in Hok, Hfail.
        destruct (delivered c).
        -- rewrite decide_True by done.
           rewrite (decide_False (P := _ /\ true = false)) by (by intros [_ ?]). lia.
        -- rewrite (decide_False (P := _ /\ false = true)) by (by intros [_ ?]).
           rewrite decide_True by done. lia.
      * destruct Hfind as (w' & Hw' & Hset & Hok & Hfail).
        exists w'. split; [done |]. split; [done |].
        rewrite !decide_False by (intros [? _]; congruence). lia.
    + by destruct (decide (i = settled_id c)).
  - rewrite Hlogs, Hlogs1.
    change (rev (map log_of (c :: cs))) with (rev (map log_of cs) ++ [log_of c]).
    rewrite <- app_assoc.
    change ([log_of c] ++ stored_logs s) with (log_of c :: stored_logs s).
    generalize (log_of c :: stored_logs s), (rev (map log_of cs)).
    intros l older. rewrite !take_app, take_take. do 2 f_equal. lia.
Qed.

(** *** Edits and deliveries do not disturb each other *)

(** X23. A delivery that is counted and an edit of the settings can come
    in either order: [updateWebhook] then [updateWebhookStats] leaves the
    store that [updateWebhookStats] then [updateWebhook] leaves, whatever
    the two identifiers, so that neither loses what the other wrote. The
    same holds of a deletion, and a delivery counted for a webhook that
    has been deleted leaves the store as it is. *)
Theorem updateWebhookStats_commutes i j ok now updates (webhooks : list Webhook) :
  snd (updateWebhook i updates (updateWebhookStats j ok now webhooks)) =
    updateWebhookStats j ok now (snd (updateWebhook i updates webhooks)) /\
  deleteWebhook i (updateWebhookStats j ok now webhooks) =
    updateWebhookStats j ok now (deleteWebhook i webhooks) /\
  updateWebhookStats i ok now (deleteWebhook i webhooks) = deleteWebhook i webhooks.
Proof.
  assert (Hgone : forall ws,
    updateWebhookStats i ok now (deleteWebhook i ws) = deleteWebhook i ws).
  { intros ws. unfold updateWebhookStats.
    pose proof (getWebhookById_deleted i ws) as Hnone.
    unfold getWebhookById in Hnone. apply fmap_None in Hnone. by rewrite Hnone. }
  split; [| split; [| apply Hgone]].
  - induction webhooks as [| w ws IH]; [done |].
    rewrite updateWebhookStats_cons, (updateWebhook_cons i updates w ws).
    destruct (decide (id w = j)) as [Hj | Hj];
      destruct (decide (id w = i)) as [Hi | Hi];
      rewrite updateWebhook_cons, updateWebhookStats_cons.
    + change (id (counted ok now w)) with (id w).
      change (id (apply_updates updates w)) with (id w).
      by rewrite !decide_True.
    + change (id (counted ok now w)) with (id w).
      by rewrite decide_False, decide_True.
    + change (id (apply_updates updates w)) with (id w).
      by rewrite decide_True, decide_False.
    + rewrite !decide_False by done. by rewrite IH.
  - induction webhooks as [| w ws IH]; [done |].
    rewrite updateWebhookStats_cons, (deleteWebhook_cons i w ws).
    destruct (decide (id w = j)) as [Hj | Hj];
      destruct (decide (id w = i)) as [Hi | Hi].
    + rewrite deleteWebhook_cons.
      change (id (counted ok now w)) with (id w). rewrite decide_True by done.
      assert (i = j) as <- by congruence. by rewrite Hgone.
    + rewrite deleteWebhook_cons, updateWebhookStats_cons.
      change (id (counted ok now w)) with (id w).
      by rewrite decide_False, decide_True.
    + rewrite deleteWebhook_cons. by rewrite decide_True.
    + rewrite deleteWebhook_cons, updateWebhookStats_cons.
      rewrite !decide_False by done. by rewrite IH.
Qed.

(** *** Logs *)

(** X24. The log never grows past a hundred entries: [logWebhookEvent]
    puts the new entry in front and keeps the ninety-nine newest of the
    old ones. [clearWebhookLogs] with an identifier removes the entries of
    that webhook, so that [getWebhookLogs] then finds none for it, and
    keeps those of every other webhook; with no identifier, or with the
    empty string, it removes every entry, and [getWebhookLogs] with the
    empty string returns them all. *)
Theorem logWebhookEvent_bounded webhookId event success error now
    (logs : list Log) :
  let entry := mkLog webhookId event success error now in
  let logs' := logWebhookEvent webhookId event success error now logs in
  logs' = entry :: take 99 logs /\
  (length logs' <= 100)%nat /\
  length logs' = Nat.min 100 (S (length logs)) /\
  (forall i j, i <> "" -> j <> "" ->
     getWebhookLogs (Some i) (clearWebhookLogs (Some i) logs) = [] /\
     (j <> i ->
      getWebhookLogs (Some j) (clearWebhookLogs (Some i) logs) =
      getWebhookLogs (Some j) logs) /\
     clearWebhookLogs (Some i) logs `sublist_of` logs) /\
  clearWebhookLogs None logs = [] /\
  clearWebhookLogs (Some "") logs = [] /\
  getWebhookLogs (Some "") logs = getWebhookLogs None logs /\
  getWebhookLogs None logs = logs.
Proof.
  intros entry logs'.
  assert (Hshape : logs' = entry :: take 99 logs) by done.
  split; [done |].
  assert (Hlen : length logs' = Nat.min 100 (S (length logs))).
  { rewrite Hshape. cbn [length]. rewrite length_take. lia. }
  split; [lia |]. split; [done |].
  split; [| done].
  intros i j Hi Hj. unfold getWebhookLogs, clearWebhookLogs.
  apply String.eqb_neq in Hi, Hj. rewrite Hi, Hj.
  clear logs' Hshape Hlen.
  split; [| split].
  - induction logs as [| l logs IH]; [done |].
    rewrite (filter_cons (fun l => log_webhookId l <> i)).
    destruct (decide (log_webhookId l <> i)) as [Hl | Hl]; [| done].
    by rewrite filter_cons_False by (intros ?; by apply Hl).
  - intros Hji. induction logs as [| l logs IH]; [done |].
    rewrite (filter_cons (fun l => log_webhookId l <> i)), (filter_cons _ l logs).
    destruct (decide (log_webhookId l <> i)) as [Hl | Hl].
    + rewrite filter_cons, IH. done.
    + rewrite IH. rewrite decide_False; [done |].
      intros Heq. apply Hl. congruence.
  - apply sublist_filter.
Qed.

End WebhookStore.

(** ** The digest the API service writes *)

Section DigestFacts.

Import Js.
Local Open Scope N_scope.

Lemma hex_value_of_char d : d < 16 -> hex_value (hex_char d) = Some d.
Proof.
  intros Hd.
  assert (Hcases : d = 0 \/ d = 1 \/ d = 2 \/ d = 3 \/ d = 4 \/ d = 5 \/ d = 6 \/
                   d = 7 \/ d = 8 \/ d = 9 \/ d = 10 \/ d = 11 \/ d = 12 \/
                   d = 13 \/ d = 14 \/ d = 15) by lia.
  repeat (destruct Hcases as [-> | Hcases]; [reflexivity |]).
  by subst d.
Qed.

Lemma hashBuffer_cons b digest :
  Api.hashBuffer (b :: digest) =
  String (hex_char (b / 16)) (String (hex_char (b mod 16)) (Api.hashBuffer digest)).
Proof. done. Qed.

Lemma byte_digits b : b < 256 -> b / 16 < 16 /\ b mod 16 < 16.
Proof.
  intros Hb. split; [apply N.Div0.div_lt_upper_bound; lia | apply N.mod_lt; lia].
Qed.

Lemma parse_hex_hashBuffer digest : forall acc,
  Forall (fun b => b < 256) digest ->
  parse_hex acc (Api.hashBuffer digest) = Some (Api.big_endian acc digest).
Proof.
  induction digest as [| b digest IH]; intros acc Hbytes; [done |].
  apply Forall_cons in Hbytes as [Hb Hbytes].
  destruct (byte_digits b Hb) as [Hhi Hlo].
  rewrite hashBuffer_cons. cbn [parse_hex].
  rewrite (hex_value_of_char _ Hhi), (hex_value_of_char _ Hlo), (IH _ Hbytes).
  unfold Api.big_endian. cbn [foldl]. do 2 f_equal.
  pose proof (N.div_mod b 16). lia.
Qed.

Lemma hashBuffer_length digest :
  String.length (Api.hashBuffer digest) = (2 * length digest)%nat.
Proof.
  induction digest as [| b digest IH]; [done |].
  rewrite hashBuffer_cons. cbn [String.length length]. lia.
Qed.

Lemma hashBuffer_inj digest : forall digest',
  Forall (fun b => b < 256) digest -> Forall (fun b => b < 256) digest' ->
  Api.hashBuffer digest' = Api.hashBuffer digest -> digest' = digest.
Proof.
  induction digest as [| b digest IH]; intros [| b' digest'] Hd Hd';
    try done.
  rewrite !hashBuffer_cons. intros [= Hhi Hlo Hrest].
  apply Forall_cons in Hd as [Hb Hd], Hd' as [Hb' Hd'].
  destruct (byte_digits b Hb) as [H1 H2], (byte_digits b' Hb') as [H1' H2'].
  apply (f_equal hex_value) in Hhi, Hlo.
  rewrite !hex_value_of_char in Hhi, Hlo by done.
  injection Hhi as Hhi. injection Hlo as Hlo.
  f_equal; [| by apply IH].
  pose proof (N.div_mod b 16). pose proof (N.div_mod b' 16). lia.
Qed.

Lemma big_endian_bound digest : forall acc,
  Forall (fun b => b < 256) digest ->
  Api.big_endian acc digest < (acc + 1) * 256 ^ N.of_nat (length digest).
Proof.
  induction digest as [| b digest IH]; intros acc Hbytes.
  - unfold Api.big_endian. simpl. lia.
  - apply Forall_cons in Hbytes as [Hb Hbytes].
    change (Api.big_endian acc (b :: digest))
      with (Api.big_endian (256 * acc + b) digest).
    specialize (IH (256 * acc + b) Hbytes).
    cbn [length]. rewrite Nat2N.inj_succ, N.pow_succ_r'. nia.
Qed.

(** X25. The string [hashBuffer] writes for a digest has two characters a
    byte and reads back, as hexadecimal, to the number whose bytes are the
    digest, most significant first; distinct digests give distinct
    strings. For the 32 bytes of a SHA-256 digest the string is a hash as
    the contract interface wants it, and the [bytes32] it stands for is
    that number, which fits in 256 bits. *)
Theorem hashBuffer_digest digest :
  Forall (fun b => b < 256) digest ->
  String.length (Api.hashBuffer digest) = (2 * length digest)%nat /\
  parse_hex 0 (Api.hashBuffer digest) = Some (Api.big_endian 0 digest) /\
  Api.big_endian 0 digest < 256 ^ N.of_nat (length digest) /\
  (forall digest', Forall (fun b => b < 256) digest' ->
     Api.hashBuffer digest' = Api.hashBuffer digest -> digest' = digest) /\
  (length digest = 32%nat ->
     is_hash (Api.hashBuffer digest) = true /\
     bytes32_of_hex (Api.hashBuffer digest) = Api.big_endian 0 digest /\
     bytes32_of_hex (Api.hashBuffer digest) < 2 ^ 256).
Proof.
  intros Hbytes.
  pose proof (hashBuffer_length digest) as Hlen.
  pose proof (parse_hex_hashBuffer digest 0 Hbytes) as Hparse.
  pose proof (big_endian_bound digest 0 Hbytes) as Hbound.
  split; [done |]. split; [done |]. split; [lia |].
  split; [intros digest' Hd' Heq; by apply hashBuffer_inj |].
  intros H32. unfold is_hash, bytes32_of_hex. rewrite Hparse, Hlen, H32.
  split; [| split; [done |]].
  - apply andb_true_iff. split; [done |]. by apply bool_decide_eq_true_2.
  - simpl. rewrite H32 in Hbound.
    change (256 ^ N.of_nat 32) with (2 ^ 256) in Hbound. lia.
Qed.

Lemma hashBuffer_digest_witness :
  is_hash (Api.hashBuffer Api.digest_bytes) = true.
Proof.
  apply (hashBuffer_digest Api.digest_bytes).
  - vm_compute. repeat (apply Forall_cons; split; [reflexivity |]). apply Forall_nil_2.
  - reflexivity.
Defined.

(** X26. The API service verifies a file exactly when its digest is the
    one the proof was made from: for a saved proof whose hash is what
    [hashBuffer] wrote for a digest, [verifyProof] answers verified when
    the file has that digest and not verified when it has any other, and
    the notification it triggers carries that verdict. *)
Theorem verifyProof_digest now pid digest original saved p :
  Api.getProofById saved pid = Some p ->
  Api.sha256Hash p = Api.hashBuffer original ->
  Forall (fun b => b < 256) original ->
  Forall (fun b => b < 256) digest ->
  let '(result, triggered, _) := Api.verifyProof now pid digest saved in
  (Api.verified result = true <-> digest = original) /\
  Api.success result = true /\
  triggered = [Api.mkVerified pid (Api.verified result) now].
Proof.
  intros Hp Hhash Horiginal Hdigest. unfold Api.verifyProof. rewrite Hp. simpl.
  split; [| done]. rewrite String.eqb_eq, Hhash. split.
  - intros Heq. by apply hashBuffer_inj.
  - by intros ->.
Qed.

Lemma verifyProof_digest_witness :
  Api.verified (fst (fst (Api.verifyProof 1700000000000 "PV-1" Api.digest_bytes
                            Api.saved_lower))) = true.
Proof.
  assert (Hbytes : Forall (fun b => b < 256) Api.digest_bytes).
  { vm_compute. repeat (apply Forall_cons; split; [reflexivity |]). apply Forall_nil_2. }
  pose proof (verifyProof_digest 1700000000000 "PV-1" Api.digest_bytes
                Api.digest_bytes Api.saved_lower
                (Api.mkProof "PV-1" "hello.txt" 11 Simulated.digest_a (Some "bafy-one"))
                eq_refl eq_refl Hbytes Hbytes) as H.
  destruct (Api.verifyProof 1700000000000 "PV-1" Api.digest_bytes Api.saved_lower)
    as [[result triggered] saved'].
  simpl. by apply H.
Defined.

End DigestFacts.

(** ** Listing the saved proofs *)

Section ListingFacts.

Import Listing.
Local Open Scope Z_scope.

Lemma slice_within {A} (s e : Z) (l : list A) :
  0 <= s -> s <= e ->
  slice s e l = take (Z.to_nat (e - s)) (drop (Z.to_nat s) l).
Proof.
  intros Hs He. unfold slice.
  destruct (Z.ltb_spec s 0); [lia |]. destruct (Z.ltb_spec e 0); [lia |].
  set (len := Z.of_nat (length l)).
  destruct (decide (len <= s)) as [Hout | Hin].
  - rewrite !drop_ge by lia. by rewrite !take_nil.
  - rewrite (Z.min_l s len) by lia.
    destruct (decide (e <= len)) as [He' | He'].
    + by rewrite Z.min_l by lia.
    + rewrite Z.min_r by lia.
      rewrite !take_ge; [done | |]; rewrite length_drop; lia.
Qed.

(** Cutting a list into pieces of [size] and putting them back. *)
Lemma chunks_concat {A} (size : nat) : forall (n : nat) (l : list A),
  (0 < size)%nat -> (length l <= n * size)%nat ->
  concat (map (fun k => take size (drop (k * size) l)) (seq 0 n)) = l.
Proof.
  induction n as [| n IH]; intros l Hsize Hlen.
  - destruct l; [done | simpl in Hlen; lia].
  - cbn [seq map concat]. rewrite <- seq_shift, map_map.
    rewrite Nat.mul_0_l, drop_0.
    assert (Hrest := IH (drop size l) Hsize).
    rewrite length_drop in Hrest. specialize (Hrest ltac:(lia)).
    transitivity (take size l ++ drop size l); [| apply take_drop].
    f_equal. etransitivity; [| exact Hrest].
    f_equal. apply map_ext. intros k. rewrite drop_drop. do 2 f_equal; lia.
Qed.

(** *** The search *)

Lemma lower_ascii_N a :
  Ascii.N_of_ascii (Js.lower_ascii a) =
  (if (65 <=? Ascii.N_of_ascii a) && (Ascii.N_of_ascii a <=? 90)
   then Ascii.N_of_ascii a + 32 else Ascii.N_of_ascii a)%N.
Proof.
  destruct a as [[] [] [] [] [] [] [] []]; reflexivity.
Qed.

Lemma lower_same_letter a b :
  Js.lower_ascii a = Js.lower_ascii b <-> same_letter a b.
Proof.
  assert (Hinj : forall x y, Ascii.N_of_ascii x = Ascii.N_of_ascii y -> x = y).
  { intros x y H. apply (f_equal Ascii.ascii_of_N) in H.
    by rewrite !Ascii.ascii_N_embedding in H. }
  assert (Hiff : Js.lower_ascii a = Js.lower_ascii b <->
                 Ascii.N_of_ascii (Js.lower_ascii a) =
                 Ascii.N_of_ascii (Js.lower_ascii b)).
  { split; [by intros -> | apply Hinj]. }
  rewrite Hiff, !lower_ascii_N. unfold same_letter. cbn zeta.
  generalize (Ascii.N_of_ascii a), (Ascii.N_of_ascii b). intros m n.
  destruct (N.leb_spec 65 m), (N.leb_spec m 90), (N.leb_spec 65 n),
    (N.leb_spec n 90); cbn [andb]; lia.
Qed.

Lemma toLowerCase_same_letters s : forall t,
  Js.toLowerCase s = Js.toLowerCase t <-> same_letters s t.
Proof.
  induction s as [| a s IH]; intros [| b t]; cbn [Js.toLowerCase].
  - split; [intros _; constructor | done].
  - split; [done | intros H; inversion H].
  - split; [done | intros H; inversion H].
  - split.
    + intros [= Hab Hst]. constructor; [by apply lower_same_letter | by apply IH].
    + intros H. inversion H as [| ? ? ? ? Hab Hst]; subst.
      f_equal; [by apply lower_same_letter | by apply IH].
Qed.

Lemma toLowerCase_app s t :
  Js.toLowerCase (s +:+ t) = Js.toLowerCase s +:+ Js.toLowerCase t.
Proof.
  induction s as [| a s IH]; [done |].
  change (String a s +:+ t) with (String a (s +:+ t)).
  cbn [Js.toLowerCase]. rewrite IH. done.
Qed.

(** A stretch at the front of the lower-cased string is the lower-cased
    front of the string. *)
Lemma toLowerCase_split x : forall s y,
  Js.toLowerCase s = x +:+ y ->
  exists s1 s2, s = s1 +:+ s2 /\ Js.toLowerCase s1 = x /\ Js.toLowerCase s2 = y.
Proof.
  induction x as [| a x IH]; intros s y H.
  - exists "", s. done.
  - destruct s as [| b s]; [done |].
    change (String a x +:+ y) with (String a (x +:+ y)) in H.
    cbn [Js.toLowerCase] in H. injection H as Hb Hrest.
    destruct (IH s y Hrest) as (s1 & s2 & -> & H1 & H2).
    exists (String b s1), s2.
    change (String b s1 +:+ s2) with (String b (s1 +:+ s2)).
    cbn [Js.toLowerCase]. by rewrite Hb, H1.
Qed.

Lemma prefix_split t : forall s,
  String.prefix t s = true <-> exists post, s = t +:+ post.
Proof.
  induction t as [| a t IH]; intros s.
  - split; [intros _; by exists s | intros _; by destruct s].
  - destruct s as [| b s]; cbn [String.prefix].
    + split; [done | by intros (post & H)].
    + destruct (Ascii.ascii_dec a b) as [-> | Hab].
      * rewrite IH. split.
        -- intros (post & ->). by exists post.
        -- intros (post & [= ->]). by exists post.
      * split; [done |]. intros (post & [= ? _]). done.
Qed.

Lemma includes_split s : forall t,
  includes s t = true <-> exists pre post, s = pre +:+ t +:+ post.
Proof.
  induction s as [| a s IH]; intros t; cbn [includes];
    rewrite orb_true_iff, prefix_split.
  - split.
    + intros [(post & H) | H]; [| done]. by exists "", post.
    + intros (pre & post & H). left.
      destruct pre; [by exists post | done].
  - rewrite IH. split.
    + intros [(post & H) | (pre & post & ->)].
      * by exists "", post.
      * by exists (String a pre), post.
    + intros (pre & post & H). destruct pre as [| b pre].
      * left. by exists post.
      * right. injection H as _ ->. by exists pre, post.
Qed.

(** What the search tests is that the term occurs, letter case apart. *)
Lemma includes_occurs term field :
  includes (Js.toLowerCase field) (Js.toLowerCase term) = true <->
  occurs term field.
Proof.
  rewrite includes_split. unfold occurs. split.
  - intros (pre' & post' & H).
    apply toLowerCase_split in H as (pre & rest & -> & _ & H).
    apply toLowerCase_split in H as (mid & post & -> & H & _).
    exists pre, mid, post. split; [done |]. by apply toLowerCase_same_letters.
  - intros (pre & mid & post & -> & H%toLowerCase_same_letters).
    exists (Js.toLowerCase pre), (Js.toLowerCase post).
    by rewrite !toLowerCase_app, H.
Qed.

Lemma filter_stage {B} (o : option B) (g : B -> Proof -> bool) l p :
  p ∈ match o with Some b => List.filter (g b) l | None => l end <->
  p ∈ l /\ forall b, o = Some b -> g b p = true.
Proof.
  destruct o as [b |].
  - rewrite list_elem_of_In, filter_In, <- list_elem_of_In. split.
    + intros [Hin Hg]. split; [done |]. by intros b' [= <-].
    + intros [Hin Hg]. split; [done |]. by apply Hg.
  - split; [intros Hin; by split | by intros [Hin _]].
Qed.

Lemma apply_filters_passes filter saved p :
  p ∈ apply_filters filter saved <-> p ∈ saved /\ passes filter p.
Proof.
  unfold apply_filters, passes.
  set (l1 := match filter_demoMode filter with Some _ => _ | None => _ end).
  set (l2 := match filter_onChain filter with Some _ => _ | None => _ end).
  set (l3 := match filter_hasNft filter with Some _ => _ | None => _ end).
  assert (H1 : p ∈ l1 <-> p ∈ saved /\
            forall wanted, filter_demoMode filter = Some wanted -> demoMode p = wanted).
  { unfold l1.
    rewrite (filter_stage (filter_demoMode filter)
               (fun wanted p => Bool.eqb (demoMode p) wanted)).
    by setoid_rewrite Bool.eqb_true_iff. }
  assert (H2 : p ∈ l2 <-> p ∈ l1 /\
            forall wanted, filter_onChain filter = Some wanted -> registered p = wanted).
  { unfold l2.
    rewrite (filter_stage (filter_onChain filter)
               (fun wanted p => Bool.eqb (registered p) wanted)).
    by setoid_rewrite Bool.eqb_true_iff. }
  assert (H3 : p ∈ l3 <-> p ∈ l2 /\
            forall wanted, filter_hasNft filter = Some wanted -> minted p = wanted).
  { unfold l3.
    rewrite (filter_stage (filter_hasNft filter)
               (fun wanted p => Bool.eqb (minted p) wanted)).
    by setoid_rewrite Bool.eqb_true_iff. }
  clearbody l1 l2 l3.
  assert (H4 : p ∈ match filter_search filter with
                   | None | Some "" => l3
                   | Some search =>
                       List.filter
                         (fun p =>
                            includes (Js.toLowerCase (fileName p)) (Js.toLowerCase search) ||
                            includes (Js.toLowerCase (proofId p)) (Js.toLowerCase search) ||
                            includes (Js.toLowerCase (sha256Hash p)) (Js.toLowerCase search))
                         l3
                   end <->
               p ∈ l3 /\
               forall search, filter_search filter = Some search -> search <> "" ->
                 found search p).
  { destruct (filter_search filter) as [[| a t] |].
    - split; [intros Hin; split; [done |]; by intros search [= <-] | by intros [Hin _]].
    - rewrite list_elem_of_In, filter_In, <- list_elem_of_In.
      rewrite !orb_true_iff, !includes_occurs.
      split.
      + intros [Hin Hg]. split; [done |]. intros search [= <-] _.
        unfold found. tauto.
      + intros [Hin Hg]. split; [done |].
        specialize (Hg (String a t) eq_refl ltac:(done)).
        unfold found in Hg. tauto.
    - split; [intros Hin; split; [done |]; by intros search [=] | by intros [Hin _]]. }
  rewrite H4, H3, H2, H1. tauto.
Qed.

(** X27. [listProofs] cuts the listing into pages without losing or
    repeating a proof. The search term and the file names, identifiers
    and hashes it is looked for in are taken to be ASCII when a search is
    set; the limit is positive and the page at least the first. Then
    [total] is the number of saved proofs that pass the filters and
    [totalPages] the least number of pages of [limit] proofs that hold
    them; a page has at most [limit] proofs, exactly [limit] when a next
    page is announced, and none beyond the last page; the pages from the
    first to the last, one after the other, are the sorted listing. The
    listing holds exactly the saved proofs that pass every filter that
    is set: the demo mode, the registration and the token as asked, and,
    for a search term that is not empty, a stretch of the file name, of
    the identifier or of the hash that has the letters of the term,
    capital or small. A next page is announced exactly when proofs remain
    after the page. *)
Theorem listProofs_pages sort current limit filter (saved : list Proof) :
  (forall l, sort l ≡ₚ l) ->
  0 < limit -> 1 <= current ->
  searchable filter saved ->
  let listing := sort (apply_filters filter saved) in
  let '(data, pagination) := listProofs sort current limit filter saved in
  total pagination = Z.of_nat (length (apply_filters filter saved)) /\
  (totalPages pagination - 1) * limit < total pagination <=
    totalPages pagination * limit /\
  data = take (Z.to_nat limit) (drop (Z.to_nat ((current - 1) * limit)) listing) /\
  Z.of_nat (length data) <= limit /\
  (hasNext pagination = true <-> current * limit < total pagination) /\
  (hasNext pagination = true -> Z.of_nat (length data) = limit) /\
  (totalPages pagination < current -> data = []) /\
  (hasPrev pagination = true <-> 1 < current) /\
  concat (map (page_data sort limit filter saved)
              (seq 0 (Z.to_nat (totalPages pagination)))) = listing /\
  (forall p, p ∈ listing <-> p ∈ saved /\ passes filter p).
Proof.
  intros Hsort Hlimit Hcurrent _ listing. unfold listProofs. fold listing.
  set (n := Z.of_nat (length listing)).
  set (pages := - (- n / limit)).
  assert (Hn : 0 <= n) by (unfold n; lia).
  assert (Hpages : (pages - 1) * limit < n <= pages * limit).
  { unfold pages. pose proof (Z.div_mod (- n) limit).
    pose proof (Z.mod_pos_bound (- n) limit). nia. }
  assert (Hdata : slice ((current - 1) * limit) ((current - 1) * limit + limit) listing =
                  take (Z.to_nat limit)
                       (drop (Z.to_nat ((current - 1) * limit)) listing)).
  { rewrite slice_within by nia. do 2 f_equal. lia. }
  rewrite Hdata.
  set (data := take _ _).
  assert (Hlen : length data =
            Nat.min (Z.to_nat limit) (length listing - Z.to_nat ((current - 1) * limit))).
  { unfold data. by rewrite length_take, length_drop. }
  assert (Hnext : (current <? pages) = true <-> current * limit < n).
  { rewrite Z.ltb_lt. split; [nia |]. intros H.
    destruct (decide (current < pages)); [done | nia]. }
  split.
  { unfold n, listing. by rewrite (Permutation_length (Hsort _)). }
  split; [done |]. split; [done |]. split; [lia |]. split; [done |].
  split.
  { intros H%Hnext. rewrite Hlen.
    assert ((current - 1) * limit + limit <= n) by lia.
    assert (0 <= (current - 1) * limit) by nia.
    unfold n in *. lia. }
  split.
  { intros Hbeyond. cbn [totalPages] in Hbeyond.
    unfold data. rewrite drop_ge; [by rewrite take_nil |].
    assert (n <= (current - 1) * limit) by nia.
    unfold n in *. lia. }
  split; [apply Z.ltb_lt |].
  split.
  - cbn [totalPages].
    assert (Hfit : (length listing <= Z.to_nat pages * Z.to_nat limit)%nat).
    { assert (0 <= pages) by nia. unfold n in *. nia. }
    etransitivity;
      [| apply (chunks_concat (Z.to_nat limit) (Z.to_nat pages) listing); [lia | done]].
    f_equal. apply map_ext_in. intros k _. unfold page_data, listProofs. cbn [fst].
    fold listing.
    rewrite slice_within by nia. do 3 f_equal; nia.
  - intros p. rewrite <- (apply_filters_passes filter saved).
    unfold listing. by rewrite (Hsort _).
Qed.

(** The search for "HELLO" finds the proof of hello.txt and no other. *)
Lemma listProofs_pages_witness :
  concat (map (page_data (fun l => l) 2 search_hello sample_proofs) (seq 0 1)) =
    [mkProof "PV-1" "hello.txt" 11 Simulated.digest_a 1700000000000 true false false] /\
  found "HELLO"
    (mkProof "PV-1" "hello.txt" 11 Simulated.digest_a 1700000000000 true false false).
Proof.
  pose proof (listProofs_pages (fun l => l) 1 2 search_hello sample_proofs
                (fun l => Permutation_refl l)) as H.
  destruct (listProofs (fun l => l) 1 2 search_hello sample_proofs)
    as [data pagination] eqn:E.
  destruct H as (_ & _ & _ & _ & _ & _ & _ & _ & Hpages & Hin); [lia | lia | |].
  { split; [reflexivity |]. repeat (apply Forall_cons; split; [reflexivity |]).
    apply Forall_nil_2. }
  injection E as _ <-. split; [exact Hpages |].
  assert (Hfirst : mkProof "PV-1" "hello.txt" 11 Simulated.digest_a 1700000000000
                     true false false ∈ apply_filters search_hello sample_proofs).
  { change (apply_filters search_hello sample_proofs)
      with [mkProof "PV-1" "hello.txt" 11 Simulated.digest_a 1700000000000
              true false false].
    apply elem_of_cons. left. reflexivity. }
  apply Hin in Hfirst as (_ & _ & _ & _ & Hsearch).
  by apply (Hsearch "HELLO").
Defined.

End ListingFacts.

(** ** The simulated ledger: tokens *)

Section TokenFacts.

Import Nfts.
Local Open Scope Z_scope.

Lemma mintProof_cases now txHash pid h c name size chain :
  match mintProof now txHash pid h c name size chain with
  | inl e => e = AlreadyMinted /\ isProofMinted pid chain = true
  | inr (receipt, chain') =>
      isProofMinted pid chain = false /\
      nfts chain' =
        nfts chain ++
          [(pid, mkNFT (nftCounter chain) pid h c name size
                       "0xSimulated1234567890abcdef1234567890abcdef"
                       (timestamp chain))] /\
      nftCounter chain' = nftCounter chain + 1 /\
      blockNumber chain' = blockNumber chain + 1 /\
      transactions chain' =
        transactions chain ++
          [mkTransaction txHash "mintProof" pid (nftCounter chain)
                         (blockNumber chain) (timestamp chain)] /\
      receipt = mkReceipt txHash (nftCounter chain) (blockNumber chain)
  end.
Proof.
  unfold mintProof, isProofMinted.
  destruct (Simulated.Map_has (nfts chain) pid) eqn:E; [done |].
  cbn. rewrite Map_set_fresh by done.
  repeat split. f_equal. lia.
Qed.

(** X28. A proof is minted once: [mintProof] throws "Proof already minted"
    exactly when the identifier has a token, and then changes nothing.
    When it succeeds the token takes the number the counter showed, the
    counter and the block number advance by one, [getNFT] returns the
    token under the identifier and what it returned before under any
    other, and a second [mintProof] for the identifier throws. That the
    proof was registered, or that the digest has no token yet, is not
    asked. *)
Theorem mintProof_once now txHash pid h c name size chain :
  match mintProof now txHash pid h c name size chain with
  | inl e =>
      message e = "Proof already minted" /\ isProofMinted pid chain = true
  | inr (receipt, chain') =>
      isProofMinted pid chain = false /\
      receipt_tokenId receipt = nftCounter chain /\
      receipt_blockNumber receipt = blockNumber chain /\
      nftCounter chain' = nftCounter chain + 1 /\
      blockNumber chain' = blockNumber chain + 1 /\
      getTotalNFTs chain' = getTotalNFTs chain + 1 /\
      (exists nft,
         getNFT pid chain' = Some nft /\ tokenId nft = nftCounter chain /\
         proofId nft = pid /\ sha256Hash nft = h /\ cid nft = c /\
         fileName nft = name /\ fileSize nft = size) /\
      (forall q, q <> pid -> getNFT q chain' = getNFT q chain) /\
      isProofMinted pid chain' = true /\
      (forall now' txHash' h' c' name' size',
         mintProof now' txHash' pid h' c' name' size' chain' = inl AlreadyMinted)
  end.
Proof.
  pose proof (mintProof_cases now txHash pid h c name size chain) as Hc.
  destruct (mintProof now txHash pid h c name size chain)
    as [e | [receipt chain']].
  { destruct Hc as [-> Hm]. done. }
  destruct Hc as (Hnew & Hnfts & Hcounter & Hblock & _ & ->).
  assert (Hminted : isProofMinted pid chain' = true).
  { unfold isProofMinted. rewrite Hnfts, Map_has_app. simpl.
    rewrite String.eqb_refl. by rewrite orb_true_r. }
  split; [done |]. split; [done |]. split; [done |]. split; [done |].
  split; [done |]. split.
  { unfold getTotalNFTs. rewrite Hnfts, length_app. simpl. lia. }
  split.
  { eexists. split.
    - unfold getNFT. rewrite Hnfts, Map_get_snoc.
      rewrite Map_get_absent by done. by rewrite String.eqb_refl.
    - done. }
  split.
  { intros q Hq. unfold getNFT. rewrite Hnfts, Map_get_snoc.
    destruct (Simulated.Map_get _ q); [done |].
    apply not_eq_sym, String.eqb_neq in Hq. by rewrite Hq. }
  split; [done |].
  intros now' txHash' h' c' name' size'. unfold mintProof.
  unfold isProofMinted in Hminted. by rewrite Hminted.
Qed.

(** *** The numbering of the tokens *)

Lemma numbered_reachable chain : reachable chain -> numbered chain.
Proof.
  induction 1 as [now | chain chain' _ IH Hstep].
  - split; try done. apply NoDup_nil_2.
  - destruct IH as [Htokens Hcounter Hkeys Hids].
    destruct Hstep as [now txHash pid h c name size chain receipt chain' Hmint
                      | chain chain' Hnfts Hsame].
    + pose proof (mintProof_cases now txHash pid h c name size chain) as Hc.
      rewrite Hmint in Hc. destruct Hc as (Hnew & Hnfts & Hnext & _).
      split.
      * unfold tokens in *. rewrite Hnfts, map_app, length_app, Htokens.
        simpl. rewrite seq_app, map_app. simpl. f_equal. f_equal. lia.
      * rewrite Hnfts, length_app, Hnext, Hcounter. simpl. lia.
      * rewrite Hnfts, map_app. simpl. apply NoDup_snoc; [done |].
        by apply Map_has_false_notin.
      * rewrite Hnfts. apply Forall_app. split; [done |]. by apply Forall_singleton.
    + split; unfold tokens in *; rewrite ?Hnfts, ?Hsame; done.
Qed.

Lemma Map_get_lookup {V} (m : list (string * V)) k v :
  Simulated.Map_get m k = Some v -> exists i, m !! i = Some (k, v).
Proof.
  induction m as [| [k' v'] m IH]; simpl; [done |].
  destruct (String.eqb_spec k' k) as [-> | Hk].
  - intros [= ->]. by exists 0%nat.
  - intros (i & Hi)%IH. by exists (S i).
Qed.

(** X29. The tokens are numbered as they are minted. In every state the
    class reaches from its constructor the tokens carry the numbers 1, 2,
    3 and so on in the order of minting, and the counter is one more than
    their count; so two proofs never share a token number, and a token
    found under an identifier carries that identifier and a number below
    the counter. *)
Theorem tokens_numbered chain :
  reachable chain ->
  tokens chain = map Z.of_nat (seq 1 (length (nfts chain))) /\
  nftCounter chain = getTotalNFTs chain + 1 /\
  NoDup (tokens chain) /\
  (forall p q n m,
     getNFT p chain = Some n -> getNFT q chain = Some m ->
     tokenId n = tokenId m -> p = q) /\
  (forall p n, getNFT p chain = Some n ->
     proofId n = p /\ 1 <= tokenId n < nftCounter chain).
Proof.
  intros [Htokens Hcounter Hkeys Hids]%numbered_reachable.
  assert (Hdistinct : NoDup (tokens chain)).
  { rewrite Htokens. apply NoDup_fmap_2; [apply _ | apply NoDup_seq]. }
  assert (Hat : forall p n i, nfts chain !! i = Some (p, n) ->
            tokens chain !! i = Some (tokenId n)).
  { intros p n i Hi. unfold tokens.
    change (map ?f ?l) with (f <$> l). by rewrite list_lookup_fmap, Hi. }
  split; [done |]. split; [done |]. split; [done |]. split.
  - intros p q n m (i & Hi)%Map_get_lookup (j & Hj)%Map_get_lookup Heq.
    pose proof (Hat _ _ _ Hi) as Hti. pose proof (Hat _ _ _ Hj) as Htj.
    rewrite <- Heq in Htj.
    assert (i = j) as -> by (eapply NoDup_lookup; eauto).
    congruence.
  - intros p n (i & Hi)%Map_get_lookup. split.
    + rewrite Forall_forall in Hids.
      apply (Hids (p, n)). by eapply list_elem_of_lookup_2.
    + pose proof (Hat _ _ _ Hi) as Hti. rewrite Htokens in Hti.
      change (map ?f ?l) with (f <$> l) in Hti.
      rewrite list_lookup_fmap in Hti.
      destruct (seq 1 (length (nfts chain)) !! i) as [k |] eqn:Ek; [| done].
      apply lookup_seq in Ek as [-> Hlt]. injection Hti as <-.
      rewrite Hcounter. lia.
Qed.

Lemma tokens_numbered_witness : tokens chain1 = [1].
Proof.
  apply (tokens_numbered chain1).
  eapply reachable_step; [apply (reachable_fresh 1700000000000) |].
  eapply (step_mint 1700000000000 "0xaa" "PV-1" Simulated.digest_a "bafy-one"
                    "hello.txt" 11).
  reflexivity.
Defined.

End TokenFacts.
